(** * vue3-nichessboard: the board helper functions and the board API

    A shallow embedding of [src/helper/Board.ts], [src/helper/DefaultConfig.ts]
    and [src/classes/BoardApi.ts].

    - [Coordinates]: [squareIndexToKey] and [keyToSquareIndex];
    - [Js]: the JavaScript values and the object store the configuration
      functions work on;
    - [Config]: [isObject], [deepCopy], [deepMergeConfig], [deepDiffConfig]
      and the default configuration;
    - [Api]: the [BoardApi] class, over the two libraries it drives (the
      nichess rules engine and the nichessground board), which are taken as
      parameters. *)

From Stdlib Require Import ZArith QArith String Ascii DecimalString DecimalPos DecimalZ Lia.
From stdpp Require Import base option list strings.

Local Open Scope string_scope.
Local Open Scope list_scope.
Local Open Scope Z_scope.

(** ** JavaScript numbers, as far as the coordinate functions need them

    Square indices are integers; the only other number the coordinate
    functions can produce is [NaN] ([parseInt] of something that is not a
    digit). Arithmetic propagates [NaN]. *)

Inductive number :=
| NaN
| Int (z : Z).

Definition number_eq_dec (a b : number) : {a = b} + {a <> b}.
Proof. decide equality; apply Z.eq_dec. Defined.

Definition num_bin (f : Z -> Z -> Z) (a b : number) : number :=
  match a, b with
  | Int x, Int y => Int (f x y)
  | _, _ => NaN
  end.

Definition num_add := num_bin Z.add.
Definition num_sub := num_bin Z.sub.
Definition num_mul := num_bin Z.mul.

(** [a === b] on numbers: [NaN] is not equal to anything, itself included. *)
Definition num_strict_eq (a b : number) : bool :=
  match a, b with
  | Int x, Int y => Z.eqb x y
  | _, _ => false
  end.

(** [n.toString()] *)
Definition num_toString (n : number) : string :=
  match n with
  | NaN => "NaN"
  | Int z => NilZero.string_of_int (Z.to_int z)
  end.

(** [parseInt(key[i])] for a character of a string: [key[i]] is a string of
    one character, or [undefined] past the end of the string; [parseInt] of
    one character is its value when it is a decimal digit and [NaN] in every
    other case ([undefined], a letter, a sign or a blank alone). *)
Definition digit_value (c : ascii) : option Z :=
  let n := Z.of_nat (nat_of_ascii c) in
  if (48 <=? n) && (n <=? 57) then Some (n - 48) else None.

Definition parseInt_char (c : option ascii) : number :=
  match c with
  | Some d => match digit_value d with Some v => Int v | None => NaN end
  | None => NaN
  end.

(** ** Board.ts: the coordinate functions *)

Module Coordinates.

Section Shape.

(** [NUM_ROWS] is imported from the rules engine; it is a positive
    integer there, and the functions below are only meant for that case
    (a division by zero would give [Infinity] or [NaN] in JavaScript). *)
Variable NUM_ROWS : Z.

(** [Math.floor(squareIndex / NUM_ROWS)]: on integers this is the floor
    division [Z.div], as long as they are integers a double holds exactly
    ([safe_integer] below); the properties that are stated for every index
    ask for that. *)
Definition floor_div (a b : number) : number := num_bin Z.div a b.

Definition squareIndexToCoordinates (squareIndex : number) : number * number :=
  let x := num_sub squareIndex
             (num_mul (floor_div squareIndex (Int NUM_ROWS)) (Int NUM_ROWS)) in
  let y := floor_div squareIndex (Int NUM_ROWS) in
  (num_add x (Int 1), num_add y (Int 1)).

(** The [switch (x)] of [squareIndexToKey]; [file] stays [''] when no case
    matches. *)
Definition file_of_x (x : number) : string :=
  match x with
  | Int 1 => "a"
  | Int 2 => "b"
  | Int 3 => "c"
  | Int 4 => "d"
  | Int 5 => "e"
  | Int 6 => "f"
  | Int 7 => "g"
  | Int 8 => "h"
  | _ => ""
  end.

Definition squareIndexToKey (squareIndex : number) : string :=
  let xy := squareIndexToCoordinates squareIndex in
  let x := fst xy in
  let y := snd xy in
  let file := file_of_x x in
  String.append file (num_toString y).

(** The [switch (firstChar)] of [keyToSquareIndex]; [x] stays [0] when no
    case matches ([key[0]] is [undefined] for the empty string). *)
Definition x_of_firstChar (firstChar : option ascii) : Z :=
  match firstChar with
  | Some "a"%char => 0
  | Some "b"%char => 1
  | Some "c"%char => 2
  | Some "d"%char => 3
  | Some "e"%char => 4
  | Some "f"%char => 5
  | Some "g"%char => 6
  | Some "h"%char => 7
  | _ => 0
  end.

Definition keyToSquareIndex (key : string) : number :=
  let firstChar := String.get 0 key in
  let x := x_of_firstChar firstChar in
  let y := num_sub (parseInt_char (String.get 1 key)) (Int 1) in
  num_add (num_mul y (Int NUM_ROWS)) (Int x).

End Shape.

(** How a call ends: with a value, or with an exception. Neither coordinate
    function has a [throw]. The operations of [squareIndexToKey] (number
    arithmetic, [switch], [toString], string concatenation) raise on no
    number. Those of [keyToSquareIndex] ([switch], [parseInt], arithmetic)
    raise on no string, and its first, [key[0]], raises a [TypeError] when
    the key is [undefined] or [null]: the argument is a string, or [None]
    for a key that is missing. *)
Inductive exn := InvalidCoordinate | TypeError.

Inductive completion (A : Type) :=
| Return (a : A)
| Throw (e : exn).
Arguments Return {A} a.
Arguments Throw {A} e.

Definition call_squareIndexToKey (NUM_ROWS : Z) (squareIndex : number)
  : completion string :=
  Return (squareIndexToKey NUM_ROWS squareIndex).

Definition call_keyToSquareIndex (NUM_ROWS : Z) (key : option string)
  : completion number :=
  match key with
  | Some k => Return (keyToSquareIndex NUM_ROWS k)
  | None => Throw TypeError
  end.

(** The integers on which the arithmetic of JavaScript numbers (doubles) is
    the arithmetic of integers, with room for the products and sums the
    coordinate functions make of an index and [NUM_ROWS]. *)
Definition safe_integer (z : Z) : Prop := - 2 ^ 52 < z < 2 ^ 52.

(** The key format: a file letter, assigned in ascending column order from
    ['a'], followed by the 1-indexed rank in decimal. [valid_key] describes
    the keys of a board of [NUM_SQUARES] squares in rows of [NUM_ROWS]. *)
Definition file_letter (column : Z) : ascii :=
  ascii_of_nat (Z.to_nat (97 + column)).

Definition key_of (column rank : Z) : string :=
  String (file_letter column) (num_toString (Int rank)).

Definition valid_index (NUM_SQUARES : Z) (i : Z) : Prop :=
  0 <= i < NUM_SQUARES.

Definition valid_key (NUM_ROWS NUM_SQUARES : Z) (k : string) : Prop :=
  exists column rank,
    0 <= column < NUM_ROWS /\ column < 26 /\ 1 <= rank /\
    (rank - 1) * NUM_ROWS + column < NUM_SQUARES /\
    k = key_of column rank.

End Coordinates.

(** ** JavaScript values and the object store

    Configuration trees are JavaScript objects: they are shared by reference
    and updated in place, so they live in a store ([heap]) and a value only
    refers to them ([VRef]). Allocation appends a cell to the store; a
    location is the position of its cell. Only the objects that stay
    reachable are allocated (the temporary arrays of [Object.entries] and
    [map] are not). *)

Module Js.

Definition loc := nat.

(** A number: [NaN], an infinity, or a rational (every finite double is
    one). The configuration functions copy numbers and compare them with
    [===] and do no arithmetic on them; [-0] and [0], which [===] does not
    tell apart, are one number here. *)
Inductive num :=
| NumNaN
| NumInf (negative : bool)
| NumQ (q : Q).

Inductive value :=
| VUndefined
| VNull
| VBool (b : bool)
| VNum (n : num)
| VStr (s : string)
| VRef (l : loc).

(** The functions that occur in configurations, by the code that creates
    them. A call of [AfterPatch userAfter] runs [changeTurn] and then
    [userAfter]. *)
Inductive closure :=
| HostFunction (name : string)
    (** a function of the host application *)
| EmptyArrow
    (** [() => {}] of [defaultBoardConfig] *)
| ChangeTurnBound
    (** [this.changeTurn.bind(this)] *)
| AfterPatch (userAfter : value).
    (** [async (...args) => { await this.changeTurn(...args); userAfter(...args); }] *)

Inductive cell :=
| CObj (props : list (string * value))
    (** a plain object: its own properties, in insertion order *)
| CArr (elems : list value)
    (** an array *)
| CMap (entries : list (string * list string))
    (** a [Map<Key, Key[]>]; its entries are not properties *)
| CFun (f : closure).
    (** a function *)

Abbreviation heap := (list cell).

Definition alloc (h : heap) (c : cell) : heap * value :=
  (h ++ [c], VRef (length h)).

(** *** Properties *)

Fixpoint lookup_prop (key : string) (props : list (string * value)) : option value :=
  match props with
  | [] => None
  | (k, v) :: rest => if decide (k = key) then Some v else lookup_prop key rest
  end.

(** [o[key] = v] on the property list of [o]: an existing property keeps its
    place, a new one goes last (a new array index would go before the names
    that are none, see [own_props]). *)
Fixpoint set_prop (key : string) (v : value) (props : list (string * value))
  : list (string * value) :=
  match props with
  | [] => [(key, v)]
  | (k, w) :: rest =>
      if decide (k = key) then (k, v) :: rest else (k, w) :: set_prop key v rest
  end.

Definition index_name (i : nat) : string := num_toString (Int (Z.of_nat i)).

(** The own enumerable properties of a value, as [{...v}], [Object.entries(v)]
    and [for (key in v)] see them: the properties of a plain object, the
    indices of an array or of a string, nothing for a [Map], a function,
    [undefined], [null], a boolean or a number. Properties are kept in
    insertion order, which is the order JavaScript enumerates names that are
    no array indices (an array index is enumerated before the other names,
    wherever it was inserted). Properties with a name that a program gives
    to a function or to an array ([f.after = ...]) are not modelled. The
    properties below that depend on either say so in a hypothesis
    ([ConfigSpec.config_names], [StoreSpec.no_function_or_array]). *)
Definition own_props (h : heap) (v : value) : list (string * value) :=
  match v with
  | VRef l =>
      match h !! l with
      | Some (CObj props) => props
      | Some (CArr elems) => imap (fun i e => (index_name i, e)) elems
      | _ => []
      end
  | VStr s =>
      imap (fun i c => (index_name i, VStr (String c EmptyString)))
        (list_ascii_of_string s)
  | _ => []
  end.

(** [v?.[key]] (and [v[key]] where [v] is known to be an object): the own
    property, [undefined] without it. JavaScript goes on to the prototype
    when there is no own property; the properties of the built-in prototypes
    ([toString], [constructor], [__proto__], ... of [Object.prototype]) are
    not modelled, so this is the read of a name that no prototype has. The
    properties below that read a name the old configuration may lack ask for
    such names ([ConfigSpec.config_names]). *)
Definition get (h : heap) (v : value) (key : string) : value :=
  default VUndefined (lookup_prop key (own_props h v)).

(** [key in v] for an object [v]. *)
Definition has_key (h : heap) (v : value) (key : string) : bool :=
  bool_decide (is_Some (lookup_prop key (own_props h v))).

(** [o[key] = v] for the plain object at [l]. *)
Definition store_prop (h : heap) (l : loc) (key : string) (v : value) : heap :=
  match h !! l with
  | Some (CObj props) => <[l := CObj (set_prop key v props)]> h
  | _ => h
  end.

(** [a === b]. References are equal when they are the same object; [NaN]
    is equal to nothing, itself included. *)
Definition strict_eq (a b : value) : bool :=
  match a, b with
  | VUndefined, VUndefined => true
  | VNull, VNull => true
  | VBool x, VBool y => Bool.eqb x y
  | VNum (NumQ x), VNum (NumQ y) => Qeq_bool x y
  | VNum (NumInf x), VNum (NumInf y) => Bool.eqb x y
  | VStr x, VStr y => bool_decide (x = y)
  | VRef x, VRef y => bool_decide (x = y)
  | _, _ => false
  end.

(** [a === b], or both are [NaN]: the same value, as a reader of it sees
    it. *)
Definition same_value (a b : value) : bool :=
  strict_eq a b
  || match a, b with
     | VNum NumNaN, VNum NumNaN => true
     | _, _ => false
     end.

(** [Boolean(v)]. *)
Definition truthy (v : value) : bool :=
  match v with
  | VUndefined | VNull => false
  | VBool b => b
  | VNum NumNaN => false
  | VNum (NumInf _) => true
  | VNum (NumQ q) => negb (Qeq_bool q 0)
  | VStr s => negb (bool_decide (s = EmptyString))
  | VRef _ => true
  end.

(** *** Literals

    An object literal of the source, and its evaluation: the nested objects
    are allocated, then the object itself. *)
#[local] Set Warnings "-register-all".

Inductive literal :=
| LUndefined
| LNull
| LBool (b : bool)
| LNum (q : Q)
| LStr (s : string)
| LVal (v : value)
    (** an expression that is already a value (a variable) *)
| LFun (f : closure)
| LArr (elems : list literal)
| LMap (entries : list (string * list string))
| LObj (fields : list (string * literal)).

Fixpoint eval_literal (h : heap) (e : literal) : heap * value :=
  match e with
  | LUndefined => (h, VUndefined)
  | LNull => (h, VNull)
  | LBool b => (h, VBool b)
  | LNum q => (h, VNum (NumQ q))
  | LStr s => (h, VStr s)
  | LVal v => (h, v)
  | LFun f => alloc h (CFun f)
  | LMap entries => alloc h (CMap entries)
  | LArr elems =>
      let '(h1, vs) :=
        (fix go (h : heap) (es : list literal) : heap * list value :=
           match es with
           | [] => (h, [])
           | e :: es' =>
               let '(h1, v) := eval_literal h e in
               let '(h2, vs) := go h1 es' in
               (h2, v :: vs)
           end) h elems in
      alloc h1 (CArr vs)
  | LObj fields =>
      let '(h1, props) :=
        (fix go (h : heap) (fs : list (string * literal))
           : heap * list (string * value) :=
           match fs with
           | [] => (h, [])
           | (k, e) :: fs' =>
               let '(h1, v) := eval_literal h e in
               let '(h2, props) := go h1 fs' in
               (h2, (k, v) :: props)
           end) h fields in
      alloc h1 (CObj props)
  end.

End Js.

(** ** Board.ts: the configuration functions *)

Module Config.

Import Js.

(** [Boolean(value) && value instanceof Object && !(value instanceof Array)
    && !(value instanceof Function)]: true of plain objects, and of the other
    objects that are neither arrays nor functions (a [Map]). *)
Definition isObject (h : heap) (value : Js.value) : bool :=
  match value with
  | VRef l =>
      match h !! l with
      | Some (CObj _) | Some (CMap _) => true
      | _ => false
      end
  | _ => false
  end.

(** [entries.map(([key, val]) => [key, f(val)])], for an [f] that allocates. *)
Fixpoint map_entries (f : heap -> value -> option (heap * value))
    (h : heap) (entries : list (string * value))
  : option (heap * list (string * value)) :=
  match entries with
  | [] => Some (h, [])
  | (key, val) :: rest =>
      '(h1, val') ← f h val;
      '(h2, rest') ← map_entries f h1 rest;
      Some (h2, (key, val') :: rest')
  end.

(** The recursion of the three functions follows the nesting of the
    configuration, which the store does not bound (a cyclic configuration
    makes them recurse forever); [fuel] bounds the depth of recursion, and
    [None] is a run that needs more. *)
Fixpoint deepCopy (fuel : nat) (h : heap) (value : Js.value)
  : option (heap * Js.value) :=
  match fuel with
  | O => None
  | S fuel' =>
      if isObject h value then
        '(h1, copied) ← map_entries (deepCopy fuel') h (own_props h value);
        Some (alloc h1 (CObj copied))
      else Some (h, value)
  end.

(** [for (const key in result) result[key] = body(key)], where [result] is the
    object at [r] and [keys] its property names. *)
Fixpoint assign_each (body : heap -> string -> option (heap * value))
    (r : loc) (keys : list string) (h : heap) : option heap :=
  match keys with
  | [] => Some h
  | key :: rest =>
      '(h1, v) ← body h key;
      assign_each body r rest (store_prop h1 r key v)
  end.

(** [{ ...target, ...source }]: the properties of [target], overwritten or
    followed by those of [source]. This is the order of the result's names
    when none of them is an array index (see [Js.own_props]). *)
Definition spread2 (tprops sprops : list (string * value)) : list (string * value) :=
  fold_left (fun acc kv => set_prop kv.1 kv.2 acc) sprops tprops.

Fixpoint deepMergeConfig (fuel : nat) (h : heap) (target source : value)
  : option (heap * value) :=
  match fuel with
  | O => None
  | S fuel' =>
      let props := spread2 (own_props h target) (own_props h source) in
      let r := length h in
      let h0 := h ++ [CObj props] in
      h' ← assign_each
             (fun h key =>
                if isObject h (get h target key) && isObject h (get h source key)
                then deepMergeConfig fuel' h (get h target key) (get h source key)
                else deepCopy fuel' h (get h (VRef r) key))
             r (map fst props) h0;
      Some (h', VRef r)
  end.

(** [for (const key in newConfig) { ... }] of [deepDiffConfig], where [diff]
    is the object at [d]. *)
Fixpoint diff_each (sub : heap -> value -> value -> option (heap * value))
    (oldConfig newConfig : value) (d : loc) (keys : list string) (h : heap)
  : option heap :=
  match keys with
  | [] => Some h
  | key :: rest =>
      if isObject h (get h oldConfig key) && isObject h (get h newConfig key) then
        '(h1, subDiff) ← sub h (get h oldConfig key) (get h newConfig key);
        if bool_decide (own_props h1 subDiff = [])
        then diff_each sub oldConfig newConfig d rest h1
        else diff_each sub oldConfig newConfig d rest (store_prop h1 d key subDiff)
      else if negb (strict_eq (get h oldConfig key) (get h newConfig key)) then
        diff_each sub oldConfig newConfig d rest
          (store_prop h d key (get h newConfig key))
      else diff_each sub oldConfig newConfig d rest h
  end.

Fixpoint deepDiffConfig (fuel : nat) (h : heap) (oldConfig newConfig : value)
  : option (heap * value) :=
  match fuel with
  | O => None
  | S fuel' =>
      let d := length h in
      let h0 := h ++ [CObj []] in
      h' ← diff_each (deepDiffConfig fuel') oldConfig newConfig d
             (map fst (own_props h newConfig)) h0;
      Some (h', VRef d)
  end.

End Config.

(** ** Configuration trees

    What the properties of the configuration functions are stated with. *)

Module ConfigSpec.

Import Js Config.

(** A plain object of the store. *)
Definition is_plain (h : heap) (v : value) : bool :=
  match v with
  | VRef l => match h !! l with Some (CObj _) => true | _ => false end
  | _ => false
  end.

(** A well-formed configuration tree of depth at most [d]: plain objects
    nested at most [d] deep (so without a cycle), with distinct property
    names, whose leaves are primitives, functions or arrays. A [Map] is no
    leaf of a well-formed tree: [isObject] takes it for a plain object, and
    it has no property to copy. *)
Fixpoint wf_tree (d : nat) (h : heap) (v : value) : bool :=
  match v with
  | VRef l =>
      match h !! l with
      | Some (CObj props) =>
          match d with
          | O => false
          | S d' =>
              bool_decide (NoDup props.*1)
              && forallb (fun kv => wf_tree d' h kv.2) props
          end
      | Some (CMap _) | None => false
      | Some _ => true
      end
  | _ => true
  end.

(** [v'] is a copy of [v] made in a store that had [lo] cells: the same
    leaves (primitives are the same values, functions and arrays the same
    objects), and for every plain object of [v] a plain object allocated
    since, with the same property names in the same order. *)
Fixpoint is_copy (d lo : nat) (h : heap) (v v' : value) : Prop :=
  match v with
  | VRef l =>
      match h !! l with
      | Some (CObj props) =>
          match d with
          | O => False
          | S d' =>
              exists l' props',
                v' = VRef l' /\ lo <= l' /\ h !! l' = Some (CObj props') /\
                Forall2 (fun kv kv' => kv.1 = kv'.1 /\ is_copy d' lo h kv.2 kv'.2)
                  props props'
          end
      | _ => v' = v
      end
  | _ => v' = v
  end%nat.

(** [r] reads as [n] under every property of [n]: where [n] has a leaf, [r]
    has the same value ([===], or [NaN] where [n] has [NaN]); where [n] has
    a plain object, [r] has a plain object (allocated since the store had
    [lo] cells) that reads as it under each of its properties. Properties
    that [r] has and [n] has not are not looked at. *)
Fixpoint reproduces (d lo : nat) (h : heap) (r n : value) : Prop :=
  match n with
  | VRef l =>
      match h !! l with
      | Some (CObj props) =>
          match d with
          | O => False
          | S d' =>
              exists l' props',
                r = VRef l' /\ lo <= l' /\ h !! l' = Some (CObj props') /\
                Forall (fun kv =>
                          reproduces d' lo h
                            (default VUndefined (lookup_prop kv.1 props')) kv.2)
                  props
          end
      | _ => r = n
      end
  | _ => same_value r n = true
  end%nat.

(** [deepDiffConfig(a, b)] has nothing to report: under every property of
    [b], [a] has the same leaf, or a plain object where [b] has one, with
    nothing to report either. *)
Fixpoint unchanged (d : nat) (h : heap) (a b : value) : bool :=
  match d with
  | O => false
  | S d' =>
      forallb
        (fun kv =>
           let av := get h a kv.1 in
           if isObject h av && isObject h kv.2
           then unchanged d' h av kv.2
           else strict_eq av kv.2)
        (own_props h b)
  end.

(** All properties of [b] but those of [keys] are unchanged from [a]. *)
Definition unchanged_but (d : nat) (h : heap) (keys : list string) (a b : value) : bool :=
  forallb
    (fun kv =>
       if bool_decide (kv.1 ∈ keys) then true
       else
         let av := get h a kv.1 in
         if isObject h av && isObject h kv.2
         then unchanged d h av kv.2
         else strict_eq av kv.2)
    (own_props h b).

(** [b] has the leaf [key], and [a] has another value there. *)
Definition leaf_changed (h : heap) (key : string) (a b : value) : bool :=
  has_key h b key
  && negb (isObject h (get h a key) && isObject h (get h b key))
  && negb (strict_eq (get h a key) (get h b key)).

(** [A] and [B] differ only in [viewOnly] and [animation.duration]; [d]
    bounds the depth of what [animation] has besides [duration]. *)
Definition differ_in_viewOnly_and_duration (d : nat) (h : heap) (A B : value) : bool :=
  leaf_changed h "viewOnly" A B
  && has_key h B "animation"
  && isObject h (get h A "animation") && isObject h (get h B "animation")
  && leaf_changed h "duration" (get h A "animation") (get h B "animation")
  && unchanged_but (S d) h ["viewOnly"; "animation"] A B
  && unchanged_but d h ["duration"] (get h A "animation") (get h B "animation").

(** The properties [deepDiffConfig] gives its result, for the properties
    [bprops] of the new configuration; [sub] relates two nested objects to
    their difference. *)
Inductive diff_list (sub : value -> value -> value -> Prop) (h : heap) (a : value)
  : list (string * value) -> list (string * value) -> Prop :=
| diff_nil :
    diff_list sub h a [] []
| diff_nested key bv rest pp pv :
    isObject h (get h a key) = true -> isObject h bv = true ->
    sub (get h a key) bv pv -> own_props h pv <> [] ->
    diff_list sub h a rest pp ->
    diff_list sub h a ((key, bv) :: rest) ((key, pv) :: pp)
| diff_nested_empty key bv rest pp pv :
    isObject h (get h a key) = true -> isObject h bv = true ->
    sub (get h a key) bv pv -> own_props h pv = [] ->
    diff_list sub h a rest pp ->
    diff_list sub h a ((key, bv) :: rest) pp
| diff_changed key bv rest pp :
    isObject h (get h a key) && isObject h bv = false ->
    strict_eq (get h a key) bv = false ->
    diff_list sub h a rest pp ->
    diff_list sub h a ((key, bv) :: rest) ((key, bv) :: pp)
| diff_same key bv rest pp :
    isObject h (get h a key) && isObject h bv = false ->
    strict_eq (get h a key) bv = true ->
    diff_list sub h a rest pp ->
    diff_list sub h a ((key, bv) :: rest) pp.

(** [p] is what [deepDiffConfig(a, b)] returns: a plain object allocated
    since the store had [lo] cells, with a property for each leaf of [b]
    that [a] has not ([!==]) and for each nested object whose difference is
    not empty. *)
Fixpoint is_diff (d lo : nat) (h : heap) (a b p : value) : Prop :=
  match d with
  | O => False
  | S d' =>
      exists lp pp,
        p = VRef lp /\ (lo <= lp)%nat /\ h !! lp = Some (CObj pp) /\
        diff_list (is_diff d' lo h) h a (own_props h b) pp
  end.

(** [r] is what [deepMergeConfig(t, s)] returns: a plain object allocated
    since the store had [lo] cells, with the property names of
    [{ ...t, ...s }]; under a name where [t] and [s] both have an object it
    has their merge, under any other name a copy of what [{ ...t, ...s }] has
    there (the value of [s] if [s] has the name, that of [t] otherwise). *)
Fixpoint is_merge (d lo : nat) (h : heap) (t s r : value) : Prop :=
  match d with
  | O => False
  | S d' =>
      exists lr rp,
        r = VRef lr /\ (lo <= lr)%nat /\ h !! lr = Some (CObj rp) /\
        rp.*1 = (spread2 (own_props h t) (own_props h s)).*1 /\
        Forall
          (fun kv =>
             let tv := get h t kv.1 in
             let sv := get h s kv.1 in
             if isObject h tv && isObject h sv
             then is_merge d' lo h tv sv kv.2
             else is_copy d' lo h
                    (default tv (lookup_prop kv.1 (own_props h s))) kv.2)
          rp
  end.

(** *** Configuration names

    The names for which the store above is JavaScript's: a name that is no
    array index (such a name starts with a digit) and that [Object.prototype]
    does not have. *)
Definition starts_with_digit (key : string) : bool :=
  match key with
  | String c _ => match digit_value c with Some _ => true | None => false end
  | EmptyString => false
  end.

Definition object_prototype_names : list string :=
  ["constructor"; "hasOwnProperty"; "isPrototypeOf"; "propertyIsEnumerable";
   "toLocaleString"; "toString"; "valueOf"; "__proto__";
   "__defineGetter__"; "__defineSetter__"; "__lookupGetter__"; "__lookupSetter__"].

Definition config_name (key : string) : bool :=
  negb (starts_with_digit key)
  && negb (bool_decide (key ∈ object_prototype_names)).

(** Every property name of the plain objects of [v], down to depth [d], is
    a configuration name. *)
Fixpoint config_names (d : nat) (h : heap) (v : value) : bool :=
  match d with
  | O => true
  | S d' =>
      if is_plain h v
      then forallb (fun kv => config_name kv.1 && config_names d' h kv.2)
             (own_props h v)
      else true
  end.

End ConfigSpec.

(** ** Two small configurations

    [config_A] and [config_B] are two configurations of a host: [config_B]
    was written from [config_A] with another [viewOnly] and another
    [animation.duration]; the array and the function are the same objects in
    both. [empty_config] is [{}]. *)

Module Examples.

Import Js.

Definition config_A_literal : literal :=
  LObj [ ("viewOnly", LBool false);
         ("animation", LObj [ ("enabled", LBool true); ("duration", LNum 300) ]);
         ("drawable", LObj [ ("visible", LBool true); ("shapes", LArr []) ]);
         ("events", LObj [ ("move", LFun (HostFunction "onMove")) ]) ].

Definition store_A : heap * value :=
  Eval vm_compute in eval_literal [] config_A_literal.

Definition config_A : value := store_A.2.

Definition config_B_literal : literal :=
  LObj [ ("viewOnly", LBool true);
         ("animation", LObj [ ("enabled", LBool true); ("duration", LNum 500) ]);
         ("drawable",
           LObj [ ("visible", LBool true);
                  ("shapes", LVal (get store_A.1 (get store_A.1 config_A "drawable") "shapes")) ]);
         ("events",
           LObj [ ("move", LVal (get store_A.1 (get store_A.1 config_A "events") "move")) ]) ].

Definition store_B : heap * value :=
  Eval vm_compute in eval_literal store_A.1 config_B_literal.

Definition config_B : value := store_B.2.

Definition store_all : heap * value :=
  Eval vm_compute in eval_literal store_B.1 (LObj []).

(** The store with the three configurations. *)
Definition store : heap := store_all.1.

Definition empty_config : value := store_all.2.






End Examples.

(** ** Stores without dangling references, and fresh trees *)

Module StoreSpec.

Import Js Config.

(** A reference points to one of the first [n] cells. *)
Definition points_below (n : nat) (v : value) : bool :=
  match v with
  | VRef l => bool_decide (l < n)%nat
  | _ => true
  end.

Definition cell_closed (n : nat) (c : cell) : bool :=
  match c with
  | CObj props => forallb (fun kv => points_below n kv.2) props
  | CArr elems => forallb (points_below n) elems
  | _ => true
  end.

(** No property of an object and no element of an array is a reference to
    a cell the store does not have. *)
Definition closed (h : heap) : bool :=
  forallb (cell_closed (length h)) h.

(** Down to depth [d], the objects of [v] (in the sense of [isObject]: [v]
    itself, the objects it has as properties, theirs, and so on) are plain
    objects allocated since the store had [lo] cells. An array or a function
    is no object in that sense: nothing is said of it nor of what it holds. *)
Fixpoint fresh (d lo : nat) (h : heap) (v : value) : Prop :=
  match d with
  | O => True
  | S d' =>
      isObject h v = true ->
      exists (l : nat) props,
        v = VRef l /\ (lo <= l)%nat /\ h !! l = Some (CObj props) /\
        forall key w, lookup_prop key props = Some w -> fresh d' lo h w
  end.

(** [v] is no function and no array. *)
Definition no_function_or_array (h : heap) (v : value) : bool :=
  match v with
  | VRef l =>
      match h !! l with
      | Some (CFun _) | Some (CArr _) => false
      | _ => true
      end
  | _ => true
  end.

(** The configuration, its [movable] and its [movable.events] are what the
    type [BoardConfig] has there (an object, or nothing): no function and
    no array, which a program can give properties that the store does not
    have (see [Js.own_props]). *)
Definition events_path_typed (h : heap) (config : value) : bool :=
  no_function_or_array h config
  && no_function_or_array h (get h config "movable")
  && no_function_or_array h (get h (get h config "movable") "events").

End StoreSpec.

(** ** DefaultConfig.ts *)

Module DefaultConfig.

Import Js.

Definition possibleMovesWhite : list (string * list string) :=
  [ ("b1", ["a3"; "c3"]);
    ("g1", ["f3"; "h3"]);
    ("a2", ["a3"; "a4"]);
    ("b2", ["b3"; "b4"]);
    ("c2", ["c3"; "c4"]);
    ("d2", ["d3"; "d4"]);
    ("e2", ["e3"; "e4"]);
    ("f2", ["f3"; "f4"]);
    ("g2", ["g3"; "g4"]);
    ("h2", ["h3"; "h4"]) ].

Definition initialPos : string :=
  "0|0-warrior-60,0-knight-60,0-assassin-10,0-mage-10,0-king-10,0-assassin-10,0-knight-60,0-warrior-60,0-pawn-30,0-pawn-30,0-pawn-30,0-pawn-30,0-pawn-30,0-pawn-30,0-pawn-30,0-pawn-30,empty,empty,empty,empty,empty,empty,empty,empty,empty,empty,empty,empty,empty,empty,empty,empty,empty,empty,empty,empty,empty,empty,empty,empty,empty,empty,empty,empty,empty,empty,empty,empty,1-pawn-30,1-pawn-30,1-pawn-30,1-pawn-30,1-pawn-30,1-pawn-30,1-pawn-30,1-pawn-30,1-warrior-60,1-knight-60,1-assassin-10,1-mage-10,1-king-10,1-assassin-10,1-knight-60,1-warrior-60,".

Definition brush (key color : string) (opacity lineWidth : Q) : literal :=
  LObj [ ("key", LStr key); ("color", LStr color);
         ("opacity", LNum opacity); ("lineWidth", LNum lineWidth) ].

Definition defaultBoardConfig_literal : literal :=
  LObj
    [ ("fen", LStr initialPos);
      ("orientation", LStr "white");
      ("turnColor", LStr "white");
      ("coordinates", LBool false);
      ("autoCastle", LBool true);
      ("viewOnly", LBool false);
      ("disableContextMenu", LBool false);
      ("addPieceZIndex", LBool false);
      ("blockTouchScroll", LBool false);
      ("highlight", LObj [ ("lastMove", LBool true); ("check", LBool true) ]);
      ("animation", LObj [ ("enabled", LBool true); ("duration", LNum 300) ]);
      ("lastMove", LUndefined);
      ("movable",
        LObj
          [ ("free", LBool false);
            ("color", LStr "white");
            ("showDests", LBool true);
            ("dests", LMap possibleMovesWhite);
            ("events",
              LObj [ ("after", LFun EmptyArrow); ("afterNewPiece", LUndefined) ]);
            ("rookCastle", LBool true) ]);
      ("premovable",
        LObj
          [ ("enabled", LBool true);
            ("showDests", LBool true);
            ("castle", LBool true);
            ("events", LObj [ ("set", LUndefined); ("unset", LUndefined) ]) ]);
      ("predroppable",
        LObj
          [ ("enabled", LBool false);
            ("events", LObj [ ("set", LUndefined); ("unset", LUndefined) ]) ]);
      ("draggable",
        LObj
          [ ("enabled", LBool true);
            ("distance", LNum 3);
            ("autoDistance", LBool true);
            ("showGhost", LBool true);
            ("deleteOnDropOff", LBool false) ]);
      ("selectable", LObj [ ("enabled", LBool true) ]);
      ("events",
        LObj
          [ ("change", LUndefined);
            ("move", LUndefined);
            ("dropNewPiece", LUndefined);
            ("select", LUndefined);
            ("insert", LUndefined) ]);
      ("drawable",
        LObj
          [ ("enabled", LBool true);
            ("visible", LBool true);
            ("defaultSnapToValidMove", LBool true);
            ("eraseOnClick", LBool true);
            ("shapes", LArr []);
            ("autoShapes", LArr []);
            ("brushes",
              LObj
                [ ("green", brush "g" "#15781B" 1 10);
                  ("red", brush "r" "#882020" 1 10);
                  ("blue", brush "b" "#003088" 1 10);
                  ("yellow", brush "y" "#e68f00" 1 10);
                  ("paleBlue", brush "pb" "#003088" 0.4 15);
                  ("paleGreen", brush "pg" "#15781B" 0.4 15);
                  ("paleRed", brush "pr" "#882020" 0.4 15);
                  ("paleGrey", brush "pgr" "#4a4a4a" 0.35 15) ]) ]) ].

(** The store once the module is loaded, and the default configuration in
    it. Every later store extends this one. *)
Definition module_store : heap * value :=
  Eval vm_compute in eval_literal [] defaultBoardConfig_literal.

Definition initial_heap : heap := module_store.1.
Definition defaultBoardConfig : value := module_store.2.

End DefaultConfig.

(** ** The two libraries behind the board API

    [BoardApi] drives a rules engine (the [nichess] package) and a board
    widget ([nichessground]). Neither is part of this code base; they are
    taken as parameters, with the operations [BoardApi] and [Board.ts] call.
    The queries of the engine are read as functions of its state. *)

Inductive Player := PLAYER_1 | PLAYER_2.

(** [1 - nichess.currentPlayer()] *)
Definition other_player (p : Player) : Player :=
  match p with PLAYER_1 => PLAYER_2 | PLAYER_2 => PLAYER_1 end.

Inductive PieceType :=
| P1_KING | P1_MAGE | P1_WARRIOR | P1_ASSASSIN | P1_KNIGHT | P1_PAWN
| P2_KING | P2_MAGE | P2_WARRIOR | P2_ASSASSIN | P2_KNIGHT | P2_PAWN
| NO_PIECE.

Record Piece := {
  piece_type : PieceType;
  squareIndex : Z;
  healthPoints : Z
}.

Record PlayerAction := {
  srcIdx : Z;
  dstIdx : Z
}.

Class NichessApi := {
  engine : Type;
  NUM_ROWS : Z;
  NUM_SQUARES : Z;
  new_engine : engine;
  reset : engine -> engine;
  makeAction : number -> number -> engine -> engine;
  legalActionsBySquare : number -> engine -> list PlayerAction;
  allPiecesByPlayer : Player -> engine -> list Piece;
  currentPlayer : engine -> Player;
  setCurrentPlayer : Player -> engine -> engine;
  isGameOver : engine -> bool;
  draw : engine -> bool;
  moveNumber : engine -> Z;
  boardToString : engine -> string;
  boardFromString : string -> engine -> engine;
  addPiece : PieceType -> number -> Z -> engine -> bool * engine;
  dump : engine -> string
}.

Inductive Color := white | black.

Inductive MovableColor := mc_white | mc_black | mc_both.

Definition movable_of (c : Color) : MovableColor :=
  match c with white => mc_white | black => mc_black end.

(** What [fullRerender] hands to the board for a square. *)
Record PieceView := {
  role : string;
  color : string;
  view_healthPoints : Z
}.

Record DrawShape := {
  shape_orig : string;
  shape_dest : option string;
  shape_brush : string
}.

(** The calls [BoardApi] makes on the board. *)
Inductive board_call :=
| cg_set_fen (fen : string)
| cg_set_config (h : Js.heap) (config : Js.value)
| cg_move (orig dest : string)
| cg_setPieces (pieces : list (string * option PieceView))
| cg_setShapes (shapes : list DrawShape)
| cg_toggleOrientation
| cg_redrawAll
| cg_cancelPremove
| cg_playPremove.

(** [board.state], as far as [BoardApi] reads and writes it itself, and the
    rest of the board ([widget]), which only the board's own code touches. *)
Record cg_state (widget : Type) := {
  turnColor : Color;
  movable_free : bool;
  movable_color : option MovableColor;
  movable_dests : option (list (string * list string));
  selected : option string;
  cg_widget : widget
}.
Arguments turnColor {widget} _.
Arguments movable_free {widget} _.
Arguments movable_color {widget} _.
Arguments movable_dests {widget} _.
Arguments selected {widget} _.
Arguments cg_widget {widget} _.

Class Chessground := {
  widget : Type;
  new_board : cg_state widget;
  cg_call : board_call -> cg_state widget -> cg_state widget
}.

(** ** Board.ts: the functions over the engine *)

Module Board.

Section WithEngine.

Context {E : NichessApi}.

Definition squareIndexToKey : number -> string :=
  Coordinates.squareIndexToKey NUM_ROWS.
Definition keyToSquareIndex : string -> number :=
  Coordinates.keyToSquareIndex NUM_ROWS.

Definition nichessTypeToRole (pt : PieceType) : string :=
  match pt with
  | P1_KING => "king"
  | P1_MAGE => "queen"
  | P1_WARRIOR => "rook"
  | P1_ASSASSIN => "bishop"
  | P1_KNIGHT => "knight"
  | P1_PAWN => "pawn"
  | P2_KING => "king"
  | P2_MAGE => "queen"
  | P2_WARRIOR => "rook"
  | P2_ASSASSIN => "bishop"
  | P2_KNIGHT => "knight"
  | P2_PAWN => "pawn"
  | _ => "error"
  end.

Definition nichessTypeToColor (pt : PieceType) : string :=
  match pt with
  | P1_KING => "white"
  | P1_MAGE => "white"
  | P1_WARRIOR => "white"
  | P1_ASSASSIN => "white"
  | P1_KNIGHT => "white"
  | P1_PAWN => "white"
  | P2_KING => "black"
  | P2_MAGE => "black"
  | P2_WARRIOR => "black"
  | P2_ASSASSIN => "black"
  | P2_KNIGHT => "black"
  | P2_PAWN => "black"
  | _ => "error"
  end.

(** [map.set(key, v)] on a [Map] kept as the list of its entries. *)
Fixpoint map_set {V : Type} (key : string) (v : V) (m : list (string * V))
  : list (string * V) :=
  match m with
  | [] => [(key, v)]
  | (k, w) :: rest =>
      if decide (k = key) then (k, v) :: rest else (k, w) :: map_set key v rest
  end.

(** The indices [0 .. NUM_SQUARES - 1] of [for (let i = 0; i < NUM_SQUARES; i++)]. *)
Definition square_indices : list Z :=
  map Z.of_nat (seq 0 (Z.to_nat NUM_SQUARES)).

Definition set_player_pieces (pieces : list Piece)
    (pieceDiff : list (string * option PieceView))
  : list (string * option PieceView) :=
  fold_left
    (fun diff cp =>
       let key := squareIndexToKey (Int (squareIndex cp)) in
       if healthPoints cp <=? 0 then diff
       else
         let p := {| role := nichessTypeToRole (piece_type cp);
                     color := nichessTypeToColor (piece_type cp);
                     view_healthPoints := healthPoints cp |} in
         map_set key (Some p) diff)
    pieces pieceDiff.

(** The [pieceDiff] built by [fullRerender]. *)
Definition pieceDiff_of (nichess : engine) : list (string * option PieceView) :=
  let cleared :=
    fold_left (fun diff i => map_set (squareIndexToKey (Int i)) None diff)
      square_indices [] in
  let currentPlayerPieces := allPiecesByPlayer (currentPlayer nichess) nichess in
  let diff := set_player_pieces currentPlayerPieces cleared in
  let otherPlayerPieces :=
    allPiecesByPlayer (other_player (currentPlayer nichess)) nichess in
  set_player_pieces otherPlayerPieces diff.

Definition fullRerender {B : Chessground} (cg : cg_state widget) (nichess : engine)
  : cg_state widget :=
  cg_call (cg_setPieces (pieceDiff_of nichess)) cg.

Definition possibleMoves (game : engine) : list (string * list string) :=
  fold_left
    (fun dests i =>
       let legalMoves := legalActionsBySquare (Int i) game in
       match legalMoves with
       | [] => dests
       | _ =>
           let srcKey := squareIndexToKey (Int i) in
           map_set srcKey
             (map (fun m => squareIndexToKey (Int (dstIdx m))) legalMoves) dests
       end)
    square_indices [].

End WithEngine.

End Board.

(** ** Board.ts: the functions over chess.js moves and pieces

    The fields of a chess.js [Move] and [Piece] that these functions read. *)

Module ChessBoard.

Inductive PieceSymbol := sym_p | sym_n | sym_b | sym_r | sym_q | sym_k.

(** ['w' | 'b'] *)
Inductive ShortColor := color_w | color_b.

Record Move := {
  move_color : ShortColor;
  from : string;
  to : string;
  piece : PieceSymbol;
  captured : option PieceSymbol;
  promotion : option PieceSymbol;
  san : string
}.

Record Piece := {
  piece_color : ShortColor;
  type : PieceSymbol
}.

(** [{ orig, dest?, brush }] *)
Record Threat := {
  orig : string;
  dest : option string;
  brush : string
}.

(** [s.includes(c)] for a string [c] of one character. *)
Fixpoint includes (s : string) (c : ascii) : bool :=
  match s with
  | EmptyString => false
  | String a rest => if Ascii.eqb a c then true else includes rest c
  end.

(** [threats.push(t)] *)
Definition push (threats : list Threat) (t : Threat) : list Threat :=
  threats ++ [t].

Definition getThreats (moves : list Move) : list Threat :=
  fold_left
    (fun threats move =>
       let threats := push threats {| orig := to move; dest := None; brush := "yellow" |} in
       let threats :=
         match captured move with
         | Some _ =>
             push threats {| orig := from move; dest := Some (to move); brush := "red" |}
         | None => threats
         end in
       if includes (san move) "+"
       then push threats {| orig := from move; dest := Some (to move); brush := "blue" |}
       else threats)
    moves [].

Definition shortToLongColor (color : ShortColor) : Color :=
  match color with color_w => white | color_b => black end.

(** [piece] is [Piece | null]; [dest[1]] is [undefined] on a key of fewer
    than two characters. *)
Definition isPromotion (dest : string) (piece : option Piece) : bool :=
  match piece with
  | Some p =>
      match type p with
      | sym_p =>
          let promotionRow :=
            match piece_color p with color_w => "8" | color_b => "1" end in
          match String.get 1 dest with
          | Some c => String.eqb (String c EmptyString) promotionRow
          | None => false
          end
      | _ => false
      end
  | None => false
  end.

Definition getPossiblePromotions (legalMoves : list Move) : list Move :=
  List.filter
    (fun move => match promotion move with Some _ => true | None => false end)
    legalMoves.

Definition chessJSPieceToLichessPiece (s : PieceSymbol) : string :=
  match s with
  | sym_p => "pawn"
  | sym_n => "knight"
  | sym_b => "bishop"
  | sym_r => "rook"
  | sym_q => "queen"
  | sym_k => "king"
  end.

End ChessBoard.

(** ** BoardApi.ts *)

Module BoardApi.

Import Js.

(** [boardState.historyViewerState]: [{ isEnabled: false }], or
    [{ isEnabled: true, plyViewing, viewOnly }]. *)
Inductive HistoryViewerState :=
| HistoryDisabled
| HistoryEnabled (plyViewing : Z) (viewOnly : bool).

Record BoardState := {
  showThreats : bool;
  historyViewerState : HistoryViewerState
}.

Record Props := {
  playerColor : option MovableColor;
  boardConfig : value
}.

(** [{ from, to, promotion? }] *)
Record Move := {
  from : string;
  to : string;
  promotion : option string
}.

(** The argument of [move]: [string | Move]. *)
Inductive move_arg :=
| SanMove (san : string)
| ObjectMove (m : Move).

(** [this.emit(...)] *)
Inductive event :=
| ev_move (m : Move)
| ev_draw
| ev_checkmate (c : Color).

(** What [nextTick] has been asked to run later. *)
Inductive task := task_playPremove.

Section WithLibraries.

Context {E : NichessApi} {B : Chessground}.

(** The fields of a [BoardApi], with what it has emitted and scheduled. *)
Record api := {
  game : engine;
  board : cg_state widget;
  boardState : BoardState;
  props : Props;
  emitted : list event;
  ticks : list task
}.

Definition with_game (f : engine -> engine) (st : api) : api :=
  {| game := f (game st); board := board st; boardState := boardState st;
     props := props st; emitted := emitted st; ticks := ticks st |}.

Definition with_board (f : cg_state widget -> cg_state widget) (st : api) : api :=
  {| game := game st; board := f (board st); boardState := boardState st;
     props := props st; emitted := emitted st; ticks := ticks st |}.

Definition with_boardState (f : BoardState -> BoardState) (st : api) : api :=
  {| game := game st; board := board st; boardState := f (boardState st);
     props := props st; emitted := emitted st; ticks := ticks st |}.

Definition emit (e : event) (st : api) : api :=
  {| game := game st; board := board st; boardState := boardState st;
     props := props st; emitted := emitted st ++ [e]; ticks := ticks st |}.

Definition nextTick (t : task) (st : api) : api :=
  {| game := game st; board := board st; boardState := boardState st;
     props := props st; emitted := emitted st; ticks := ticks st ++ [t] |}.

(** Assignments to [this.board.state]. *)
Definition set_turnColor (c : Color) (cg : cg_state widget) : cg_state widget :=
  {| turnColor := c; movable_free := movable_free cg;
     movable_color := movable_color cg; movable_dests := movable_dests cg;
     selected := selected cg; cg_widget := cg_widget cg |}.

Definition set_movable_color (c : option MovableColor) (cg : cg_state widget)
  : cg_state widget :=
  {| turnColor := turnColor cg; movable_free := movable_free cg;
     movable_color := c; movable_dests := movable_dests cg;
     selected := selected cg; cg_widget := cg_widget cg |}.

Definition set_movable_dests (d : option (list (string * list string)))
    (cg : cg_state widget) : cg_state widget :=
  {| turnColor := turnColor cg; movable_free := movable_free cg;
     movable_color := movable_color cg; movable_dests := d;
     selected := selected cg; cg_widget := cg_widget cg |}.

Definition set_selected (s : option string) (cg : cg_state widget)
  : cg_state widget :=
  {| turnColor := turnColor cg; movable_free := movable_free cg;
     movable_color := movable_color cg; movable_dests := movable_dests cg;
     selected := s; cg_widget := cg_widget cg |}.

Definition isEnabled (s : HistoryViewerState) : bool :=
  match s with HistoryDisabled => false | HistoryEnabled _ _ => true end.

Definition getTurnColor (st : api) : Color :=
  match currentPlayer (game st) with PLAYER_1 => white | PLAYER_2 => black end.

Definition emitEvents (st : api) : api :=
  if isGameOver (game st) then
    if draw (game st) then emit ev_draw st
    else emit (ev_checkmate (turnColor (board st))) st
  else st.

Definition updateGameState (updateFen : bool) (st : api) : api :=
  let st :=
    if negb (isEnabled (historyViewerState (boardState st))) then
      let st :=
        if updateFen
        then with_board (cg_call (cg_set_fen (boardToString (game st)))) st
        else st in
      let st := with_board (set_turnColor (getTurnColor st)) st in
      if movable_free (board st) then
        let st := with_board (set_movable_color (Some mc_both)) st in
        with_board (set_movable_dests (Some [])) st
      else
        let c := match playerColor (props st) with
                 | Some c => c
                 | None => movable_of (turnColor (board st))
                 end in
        let st := with_board (set_movable_color (Some c)) st in
        with_board (set_movable_dests (Some (Board.possibleMoves (game st)))) st
    else st in
  emitEvents st.

Definition forbidMoves (st : api) : api :=
  with_board (set_movable_color None) st.

Definition allowMoves (st : api) : api :=
  with_board (set_movable_color (Some (movable_of (turnColor (board st))))) st.

Definition isMoveLegal (m : Move) (st : api) : bool :=
  let src := Board.keyToSquareIndex (from m) in
  let dst := Board.keyToSquareIndex (to m) in
  let legalActions := legalActionsBySquare src (game st) in
  existsb
    (fun a => num_strict_eq (Int (srcIdx a)) src
              && num_strict_eq (Int (dstIdx a)) dst)
    legalActions.

Definition undoLastMove (st : api) : api := st.

Definition toggleOrientation (st : api) : api :=
  with_board (cg_call cg_toggleOrientation) st.

Definition hideMoves (st : api) : api :=
  let st := with_boardState
              (fun bs => {| showThreats := false;
                            historyViewerState := historyViewerState bs |}) st in
  with_board (cg_call (cg_setShapes [])) st.

Definition move (m : move_arg) (emitEvent : bool) (st : api) : bool * api :=
  match m with
  | ObjectMove mv =>
      let src := Board.keyToSquareIndex (from mv) in
      let dst := Board.keyToSquareIndex (to mv) in
      let st := with_game (makeAction src dst) st in
      let st := with_board (cg_call (cg_move (from mv) (to mv))) st in
      let st := with_board (fun cg => Board.fullRerender cg (game st)) st in
      let st := if emitEvent then emit (ev_move mv) st else st in
      let st := updateGameState false st in
      let st := nextTick task_playPremove st in
      let st := if isGameOver (game st) then forbidMoves st else st in
      (true, st)
  | SanMove _ => (false, st)
  end.

(** [changeTurn(orig, dest, _)]; its [async] body has no [await], so it
    runs to its end when it is called. *)
Definition changeTurn (orig dest : string) (st : api) : api :=
  snd (move (ObjectMove {| from := orig; to := dest; promotion := None |}) true st).

Definition getPossibleMoves (st : api) : option (list (string * list string)) :=
  Some (Board.possibleMoves (game st)).

Definition getCurrentTurnNumber (st : api) : Z := moveNumber (game st).

Definition getCurrentPlyNumber (st : api) : Z :=
  2 * getCurrentTurnNumber st
  - (match getTurnColor st with black => 1 | white => 2 end).

(** The operations that are left to do return a constant and leave the
    game and the board as they are; they are written as the other
    operations that return a value, with the state after the call. *)
Definition getLastMove (st : api) : option Move * api := (None, st).

Definition getHistory (verbose : bool) (st : api) : list Move * api := ([], st).

Definition getFen (st : api) : string := boardToString (game st).

Definition getBoardPosition (st : api)
  : list (list (option (string * string * string))) * api := ([], st).

Definition getPgn (st : api) : string := boardToString (game st).

Definition getIsGameOver (st : api) : bool := isGameOver (game st).

Definition setPosition (fen : string) (st : api) : api :=
  let st := with_game (boardFromString fen) st in
  let st := with_boardState
              (fun bs => {| showThreats := showThreats bs;
                            historyViewerState := HistoryDisabled |}) st in
  updateGameState true st.

Definition putPiece (pieceType : PieceType) (squareIndex : number)
    (healthPoints : Z) (st : api) : bool * api :=
  let '(success, g) := addPiece pieceType squareIndex healthPoints (game st) in
  let st := with_game (fun _ => g) st in
  if success then
    let st := with_board (fun cg => Board.fullRerender cg (game st)) st in
    let st := with_board (cg_call cg_redrawAll) st in
    (true, st)
  else (false, st).

Definition removePiece (square : string) (st : api) : api := st.

Definition clearBoard (st : api) : api := st.

Definition setShapes (shapes : list DrawShape) (st : api) : api :=
  with_board (cg_call (cg_setShapes shapes)) st.

Definition loadPgn (pgn : string) (st : api) : api := st.

(** [getPgnInfo] returns [{}], a record without entries. *)
Definition getPgnInfo (st : api) : list (string * option string) * api := ([], st).

Definition setPgnInfo (changes : list (string * string)) (st : api)
  : list (string * option string) :=
  [("White", Some "Deep Blue"); ("Black", Some "Kasparov, Garry")].

(** *** setConfig

    [config] is an object of the store; [None] is a run that needs more
    [fuel] for [deepMergeConfig], [Throw TypeError] a property read on
    [undefined] or [null], or [in] on a value that is no object. *)

Definition nullish (v : value) : bool :=
  match v with VUndefined | VNull => true | _ => false end.

(** [const { fen, ...configWithoutFen } = config] *)
Definition without_fen (h : heap) (config : value) : heap * value :=
  alloc h (CObj (filter (fun kv => kv.1 <> "fen") (own_props h config))).

Definition setConfig (fuel : nat) (h : heap) (config : value)
    (fillDefaults : bool) (st : api)
  : option (Coordinates.completion (heap * api)) :=
  '(h, config, st) ←
    (if fillDefaults then
       '(h', merged) ← Config.deepMergeConfig fuel h
                         DefaultConfig.defaultBoardConfig config;
       Some (h', merged, with_board (set_selected None) st)
     else Some (h, config, st));
  if nullish config then Some (Coordinates.Throw Coordinates.TypeError) else
  let movable := get h config "movable" in
  let events := get h movable "events" in
  '(h, thrown) ←
    Some
      (if truthy events then
         match events with
         | VRef l =>
             if has_key h events "after" then
               let userAfter := get h events "after" in
               let '(h1, patched) :=
                 alloc h (CFun (if truthy userAfter
                                then AfterPatch userAfter
                                else ChangeTurnBound)) in
               (store_prop h1 l "after" patched, false)
             else (h, false)
         | _ => (h, true)
         end
       else (h, false));
  if (thrown : bool) then Some (Coordinates.Throw Coordinates.TypeError) else
  let fen := get h config "fen" in
  let '(h, configWithoutFen) := without_fen h config in
  let st := with_board (cg_call (cg_set_config h configWithoutFen)) st in
  let st := match fen with
            | VStr s => if truthy fen then setPosition s st else st
            | _ => st
            end in
  let st := with_board (cg_call cg_redrawAll) st in
  Some (Coordinates.Return (h, st)).

Definition resetBoard (fuel : nat) (h : heap) (st : api)
  : option (Coordinates.completion (heap * api)) :=
  let st := with_game reset st in
  let st := with_board (fun cg => Board.fullRerender cg (game st)) st in
  setConfig fuel h (boardConfig (props st)) true st.

(** [new BoardApi(boardElement, boardState, props, emit)] *)
Definition new_BoardApi (fuel : nat) (h : heap) (bs : BoardState) (p : Props)
  : option (Coordinates.completion (heap * api)) :=
  resetBoard fuel h
    {| game := new_engine; board := new_board; boardState := bs; props := p;
       emitted := []; ticks := [] |}.

(** *** History *)

Definition viewHistory (ply : Z) (st : api) : api := st.

Definition stopViewingHistory (st : api) : api :=
  if isEnabled (historyViewerState (boardState st))
  then viewHistory (getCurrentPlyNumber st) st
  else st.

Definition viewStart (st : api) : api := viewHistory 0 st.

Definition viewNext (st : api) : api :=
  match historyViewerState (boardState st) with
  | HistoryEnabled plyViewing _ => viewHistory (plyViewing + 1) st
  | HistoryDisabled => st
  end.

Definition viewPrevious (st : api) : api :=
  let ply := match historyViewerState (boardState st) with
             | HistoryEnabled plyViewing _ => plyViewing
             | HistoryDisabled => getCurrentPlyNumber st
             end in
  viewHistory (ply - 1) st.

(** *** Calling a function of a configuration

    [call_after] is the call [f(orig, dest, metadata)] of the function [f]
    of a [movable.events.after] slot: what the board does after a move made
    on it. The functions of the host are not run; their calls are counted
    in [host_calls]. [fuel] bounds the nesting of patched functions. *)
Fixpoint call_after (fuel : nat) (h : heap) (f : value) (orig dest : string)
    (st : api) (host_calls : list string) : option (api * list string) :=
  match fuel with
  | O => None
  | S fuel' =>
      match f with
      | VRef l =>
          match h !! l with
          | Some (CFun (HostFunction name)) => Some (st, host_calls ++ [name])
          | Some (CFun EmptyArrow) => Some (st, host_calls)
          | Some (CFun ChangeTurnBound) => Some (changeTurn orig dest st, host_calls)
          | Some (CFun (AfterPatch userAfter)) =>
              call_after fuel' h userAfter orig dest (changeTurn orig dest st)
                host_calls
          | _ => None
          end
      | _ => None
      end
  end.

End WithLibraries.

End BoardApi.

(** ** Runs of the board API *)

Module BoardApiRuns.

Import Js.

Section WithLibraries.

Context {E : NichessApi} {B : Chessground}.

(** [n] calls [setConfig(config, false)], one after the other, with the same
    object [config]; a call that throws ends the run. *)
Fixpoint setConfig_times (fuel n : nat) (h : heap) (config : value)
    (st : BoardApi.api) : option (Coordinates.completion (heap * BoardApi.api)) :=
  match n with
  | O => Some (Coordinates.Return (h, st))
  | S n' =>
      match BoardApi.setConfig fuel h config false st with
      | Some (Coordinates.Return (h', st')) => setConfig_times fuel n' h' config st'
      | r => r
      end
  end.

End WithLibraries.

End BoardApiRuns.

(** ** Stand-ins for the two libraries

    A small rules engine and a small board, to run the board API on concrete
    positions. They are not the rules of nichess nor the widget of
    nichessground: pawns step forward and capture diagonally, knights jump
    forward, a game is over once a king has been captured, and moves are
    applied without a check; the board keeps the pieces it was given and the
    [movable.events.after] function of the configurations it was set to,
    which it calls after a move made on it. The start position and the
    position format are those of [initialPos]. *)

Module Stub.

Import Js.

Record position := {
  to_move : Player;
  pieces : list Piece;
  move_number : Z
}.

Definition owner (pt : PieceType) : option Player :=
  match pt with
  | P1_KING | P1_MAGE | P1_WARRIOR | P1_ASSASSIN | P1_KNIGHT | P1_PAWN => Some PLAYER_1
  | P2_KING | P2_MAGE | P2_WARRIOR | P2_ASSASSIN | P2_KNIGHT | P2_PAWN => Some PLAYER_2
  | NO_PIECE => None
  end.

Definition player_eqb (p q : Player) : bool :=
  match p, q with
  | PLAYER_1, PLAYER_1 | PLAYER_2, PLAYER_2 => true
  | _, _ => false
  end.

Definition owned_by (p : Player) (pc : Piece) : bool :=
  match owner (piece_type pc) with
  | Some q => player_eqb p q
  | None => false
  end.

Definition piece_at (i : Z) (ps : list Piece) : option Piece :=
  find (fun pc => (squareIndex pc =? i) && (0 <? healthPoints pc)) ps.

Definition back_rank (p : Player) : list PieceType :=
  match p with
  | PLAYER_1 => [P1_WARRIOR; P1_KNIGHT; P1_ASSASSIN; P1_MAGE; P1_KING; P1_ASSASSIN; P1_KNIGHT; P1_WARRIOR]
  | PLAYER_2 => [P2_WARRIOR; P2_KNIGHT; P2_ASSASSIN; P2_MAGE; P2_KING; P2_ASSASSIN; P2_KNIGHT; P2_WARRIOR]
  end.

Definition start_health (pt : PieceType) : Z :=
  match pt with
  | P1_WARRIOR | P2_WARRIOR | P1_KNIGHT | P2_KNIGHT => 60
  | P1_PAWN | P2_PAWN => 30
  | _ => 10
  end.

Definition place (first : Z) (pts : list PieceType) : list Piece :=
  imap (fun i pt => {| piece_type := pt; squareIndex := first + Z.of_nat i;
                       healthPoints := start_health pt |}) pts.

Definition start_position : position :=
  {| to_move := PLAYER_1;
     pieces := place 0 (back_rank PLAYER_1) ++ place 8 (replicate 8 P1_PAWN)
               ++ place 48 (replicate 8 P2_PAWN) ++ place 56 (back_rank PLAYER_2);
     move_number := 1 |}.

Definition forward (p : Player) : Z :=
  match p with PLAYER_1 => 1 | PLAYER_2 => -1 end.

Definition on_board (i : Z) : bool := (0 <=? i) && (i <? 64).

Definition is_empty (ps : list Piece) (i : Z) : bool :=
  match piece_at i ps with Some _ => false | None => true end.

Definition is_enemy (p : Player) (ps : list Piece) (i : Z) : bool :=
  match piece_at i ps with Some pc => negb (owned_by p pc) | None => false end.

Definition next_file (i j : Z) : bool := Z.abs (i mod 8 - j mod 8) =? 1.

Definition pawn_targets (p : Player) (ps : list Piece) (i : Z) : list Z :=
  let d := forward p in
  let start_row := match p with PLAYER_1 => 1 | PLAYER_2 => 6 end in
  let one := i + 8 * d in
  let two := i + 16 * d in
  (if on_board one && is_empty ps one then [one] else [])
  ++ (if (i / 8 =? start_row) && on_board two && is_empty ps one && is_empty ps two
      then [two] else [])
  ++ filter (fun j => on_board j && next_file i j && is_enemy p ps j)
       [i + 7 * d; i + 9 * d].

Definition knight_targets (p : Player) (ps : list Piece) (i : Z) : list Z :=
  let d := forward p in
  filter (fun j => on_board j && next_file i j && (is_empty ps j || is_enemy p ps j))
    [i + 15 * d; i + 17 * d].

Definition targets (g : position) (i : Z) : list Z :=
  match piece_at i (pieces g) with
  | Some pc =>
      if owned_by (to_move g) pc then
        match piece_type pc with
        | P1_PAWN | P2_PAWN => pawn_targets (to_move g) (pieces g) i
        | P1_KNIGHT | P2_KNIGHT => knight_targets (to_move g) (pieces g) i
        | _ => []
        end
      else []
  | None => []
  end.

Definition stub_legalActionsBySquare (i : number) (g : position) : list PlayerAction :=
  match i with
  | Int s => map (fun j => {| srcIdx := s; dstIdx := j |}) (targets g s)
  | NaN => []
  end.

(** The piece on [src] goes to [dst], whatever stands there is removed, and
    the turn passes. Nothing is checked. *)
Definition stub_makeAction (src dst : number) (g : position) : position :=
  match src, dst with
  | Int s, Int d =>
      {| to_move := other_player (to_move g);
         pieces :=
           map (fun pc =>
                  if squareIndex pc =? s
                  then {| piece_type := piece_type pc; squareIndex := d;
                          healthPoints := healthPoints pc |}
                  else pc)
             (filter (fun pc => negb (squareIndex pc =? d)) (pieces g));
         move_number :=
           match to_move g with
           | PLAYER_1 => move_number g
           | PLAYER_2 => move_number g + 1
           end |}
  | _, _ => g
  end.

Definition has_king (p : Player) (ps : list Piece) : bool :=
  existsb
    (fun pc => match piece_type pc with
               | P1_KING => player_eqb p PLAYER_1 && (0 <? healthPoints pc)
               | P2_KING => player_eqb p PLAYER_2 && (0 <? healthPoints pc)
               | _ => false
               end) ps.

Definition stub_isGameOver (g : position) : bool :=
  negb (has_king PLAYER_1 (pieces g) && has_king PLAYER_2 (pieces g)).

(** The position format of [initialPos]: the player to move, [|], and for
    each square [empty,] or [<player>-<piece>-<health>,]. *)
Definition piece_name (pt : PieceType) : string :=
  match pt with
  | P1_KING | P2_KING => "king"
  | P1_MAGE | P2_MAGE => "mage"
  | P1_WARRIOR | P2_WARRIOR => "warrior"
  | P1_ASSASSIN | P2_ASSASSIN => "assassin"
  | P1_KNIGHT | P2_KNIGHT => "knight"
  | P1_PAWN | P2_PAWN => "pawn"
  | NO_PIECE => "none"
  end.

Definition player_digit (p : Player) : string :=
  match p with PLAYER_1 => "0" | PLAYER_2 => "1" end.

Definition square_text (ps : list Piece) (i : Z) : string :=
  match piece_at i ps with
  | Some pc =>
      match owner (piece_type pc) with
      | Some p =>
          String.append (player_digit p)
            (String.append "-"
               (String.append (piece_name (piece_type pc))
                  (String.append "-"
                     (String.append (num_toString (Int (healthPoints pc))) ","))))
      | None => "empty,"
      end
  | None => "empty,"
  end.

Definition stub_boardToString (g : position) : string :=
  String.append (player_digit (to_move g))
    (String.append "|"
       (String.concat "" (map (fun i => square_text (pieces g) (Z.of_nat i)) (seq 0 64)))).

(** Reading the format back. *)
Fixpoint split_on (sep : ascii) (s : string) : list string :=
  match s with
  | EmptyString => [EmptyString]
  | String c rest =>
      if decide (c = sep) then EmptyString :: split_on sep rest
      else match split_on sep rest with
           | [] => [String c EmptyString]
           | w :: ws => String c w :: ws
           end
  end.

Definition parse_number (s : string) : Z :=
  fold_left (fun acc c => match digit_value c with
                          | Some v => 10 * acc + v
                          | None => acc
                          end) (list_ascii_of_string s) 0.

Definition piece_of_name (p : Player) (name : string) : PieceType :=
  match p with
  | PLAYER_1 =>
      if decide (name = "king") then P1_KING
      else if decide (name = "mage") then P1_MAGE
      else if decide (name = "warrior") then P1_WARRIOR
      else if decide (name = "assassin") then P1_ASSASSIN
      else if decide (name = "knight") then P1_KNIGHT
      else if decide (name = "pawn") then P1_PAWN
      else NO_PIECE
  | PLAYER_2 =>
      if decide (name = "king") then P2_KING
      else if decide (name = "mage") then P2_MAGE
      else if decide (name = "warrior") then P2_WARRIOR
      else if decide (name = "assassin") then P2_ASSASSIN
      else if decide (name = "knight") then P2_KNIGHT
      else if decide (name = "pawn") then P2_PAWN
      else NO_PIECE
  end.

Definition player_of_digit (s : string) : Player :=
  if decide (s = "1") then PLAYER_2 else PLAYER_1.

Definition parse_square (i : nat) (text : string) : list Piece :=
  match split_on "-" text with
  | [p; name; hp] =>
      [{| piece_type := piece_of_name (player_of_digit p) name;
          squareIndex := Z.of_nat i;
          healthPoints := parse_number hp |}]
  | _ => []
  end.

Definition stub_boardFromString (s : string) (g : position) : position :=
  match split_on "|" s with
  | [p; squares] =>
      {| to_move := player_of_digit p;
         pieces := concat (imap parse_square (split_on "," squares));
         move_number := 1 |}
  | _ => g
  end.

#[export] Instance stub_engine : NichessApi := {
  engine := position;
  NUM_ROWS := 8;
  NUM_SQUARES := 64;
  new_engine := start_position;
  reset := fun _ => start_position;
  makeAction := stub_makeAction;
  legalActionsBySquare := stub_legalActionsBySquare;
  allPiecesByPlayer := fun p g => filter (owned_by p) (pieces g);
  currentPlayer := to_move;
  setCurrentPlayer := fun p g =>
    {| to_move := p; pieces := pieces g; move_number := move_number g |};
  isGameOver := stub_isGameOver;
  draw := fun _ => false;
  moveNumber := move_number;
  boardToString := stub_boardToString;
  boardFromString := stub_boardFromString;
  addPiece := fun pt i hp g =>
    match i with
    | Int s =>
        (true, {| to_move := to_move g;
                  pieces := {| piece_type := pt; squareIndex := s;
                               healthPoints := hp |} :: pieces g;
                  move_number := move_number g |})
    | NaN => (false, g)
    end;
  dump := stub_boardToString
}.

(** The board: the pieces it shows, and the function it calls after a move
    made on it. *)
Record stub_widget := {
  shown : list (string * PieceView);
  after_slot : value
}.

Definition show (diff : list (string * option PieceView))
    (pieces : list (string * PieceView)) : list (string * PieceView) :=
  fold_left
    (fun acc kv =>
       match kv.2 with
       | Some p => Board.map_set kv.1 p acc
       | None => filter (fun e => e.1 <> kv.1) acc
       end) diff pieces.

Definition stub_call (c : board_call) (cg : cg_state stub_widget)
  : cg_state stub_widget :=
  match c with
  | cg_setPieces diff =>
      {| turnColor := turnColor cg; movable_free := movable_free cg;
         movable_color := movable_color cg; movable_dests := movable_dests cg;
         selected := selected cg;
         cg_widget := {| shown := show diff (shown (cg_widget cg));
                         after_slot := after_slot (cg_widget cg) |} |}
  | cg_set_config h config =>
      let movable := get h config "movable" in
      let events := get h movable "events" in
      {| turnColor := turnColor cg;
         movable_free := match get h movable "free" with
                         | VBool b => b
                         | _ => movable_free cg
                         end;
         movable_color := movable_color cg; movable_dests := movable_dests cg;
         selected := selected cg;
         cg_widget := {| shown := shown (cg_widget cg);
                         after_slot := if has_key h events "after"
                                       then get h events "after"
                                       else after_slot (cg_widget cg) |} |}
  | _ => cg
  end.

#[export] Instance stub_board : Chessground := {
  widget := stub_widget;
  new_board :=
    {| turnColor := white; movable_free := false; movable_color := Some mc_both;
       movable_dests := None; selected := None;
       cg_widget := {| shown := []; after_slot := VUndefined |} |};
  cg_call := stub_call
}.

(** A move made on the board: the board calls its [after] function. *)
Definition move_on_board (fuel : nat) (h : heap) (orig dest : string)
    (st : BoardApi.api) : option (BoardApi.api * list string) :=
  BoardApi.call_after fuel h (after_slot (cg_widget (BoardApi.board st)))
    orig dest st [].

(** The board API on the stand-ins, as the constructor leaves it when the
    host gives the configuration [{}]. *)
Definition host_store : heap * value := eval_literal DefaultConfig.initial_heap (LObj []).

Definition booted : option (Coordinates.completion (heap * BoardApi.api)) :=
  BoardApi.new_BoardApi 8 host_store.1
    {| BoardApi.showThreats := false;
       BoardApi.historyViewerState := BoardApi.HistoryDisabled |}
    {| BoardApi.playerColor := None; BoardApi.boardConfig := host_store.2 |}.

Definition unbooted : BoardApi.api :=
  {| BoardApi.game := new_engine; BoardApi.board := new_board;
     BoardApi.boardState :=
       {| BoardApi.showThreats := false;
          BoardApi.historyViewerState := BoardApi.HistoryDisabled |};
     BoardApi.props := {| BoardApi.playerColor := None;
                          BoardApi.boardConfig := host_store.2 |};
     BoardApi.emitted := []; BoardApi.ticks := [] |}.

Definition start_heap : heap :=
  match booted with
  | Some (Coordinates.Return (h, _)) => h
  | _ => host_store.1
  end.

Definition start_api : BoardApi.api :=
  match booted with
  | Some (Coordinates.Return (_, st)) => st
  | _ => unbooted
  end.

Definition object_move (orig dest : string) : BoardApi.move_arg :=
  BoardApi.ObjectMove
    {| BoardApi.from := orig; BoardApi.to := dest; BoardApi.promotion := None |}.

(** A sequence of [move] calls. *)
Definition play (moves : list (string * string)) (st : BoardApi.api) : BoardApi.api :=
  fold_left (fun st m => snd (BoardApi.move (object_move m.1 m.2) true st)) moves st.

Definition is_move_event (e : BoardApi.event) : bool :=
  match e with BoardApi.ev_move _ => true | _ => false end.

Definition count_moves (events : list BoardApi.event) : nat :=
  length (filter is_move_event events).

(** A configuration of the host with a function of its own in the
    [movable.events.after] slot: [{ movable: { events: { after: hostAfter } } }]. *)
Definition host_after_config : heap * value :=
  eval_literal start_heap
    (LObj [("movable",
             LObj [("events", LObj [("after", LFun (HostFunction "hostAfter"))])])]).

(** [setConfig(config, fillDefaults)] twice with the same object [config],
    then a move made on the board: the number of [move] events the move made
    on the board brings (one for each run of [changeTurn]) and the calls of
    functions of the host. *)
Definition set_twice_then_move (config : heap * value) (fillDefaults : bool)
  : option (nat * list string) :=
  match BoardApi.setConfig 8 config.1 config.2 fillDefaults start_api with
  | Some (Coordinates.Return (h1, st1)) =>
      match BoardApi.setConfig 8 h1 config.2 fillDefaults st1 with
      | Some (Coordinates.Return (h2, st2)) =>
          match move_on_board 8 h2 "e2" "e4" st2 with
          | Some (st3, calls) =>
              Some ((count_moves (BoardApi.emitted st3)
                     - count_moves (BoardApi.emitted st2))%nat, calls)
          | None => None
          end
      | _ => None
      end
  | _ => None
  end.

End Stub.

(** * Properties *)

(** ** The coordinate functions *)

Section CoordinateFacts.

Import Coordinates.

Variable NUM_ROWS : Z.

Lemma small_cases (n bound : Z) :
  0 <= n < bound -> bound <= 9 ->
  n = 0 \/ n = 1 \/ n = 2 \/ n = 3 \/ n = 4 \/ n = 5 \/ n = 6 \/ n = 7 \/ n = 8.
Proof. lia. Qed.

(** The key written for column [x] and row [y] (both 0-based). *)
Definition written_key (x y : Z) : string :=
  String.append (file_of_x (Int (x + 1))) (num_toString (Int (y + 1))).

Lemma squareIndexToKey_written (i : Z) :
  0 < NUM_ROWS ->
  squareIndexToKey NUM_ROWS (Int i) = written_key (i mod NUM_ROWS) (i / NUM_ROWS).
Proof.
  intros HR. unfold squareIndexToKey, squareIndexToCoordinates, written_key; cbn.
  replace (i - i / NUM_ROWS * NUM_ROWS) with (i mod NUM_ROWS); [reflexivity|].
  rewrite Z.mod_eq by lia. lia.
Qed.

Lemma keyToSquareIndex_written (x y : Z) :
  0 <= x < 8 -> 0 <= y < 9 ->
  keyToSquareIndex NUM_ROWS (written_key x y) = Int (y * NUM_ROWS + x).
Proof.
  intros Hx Hy.
  destruct (small_cases x 8 Hx ltac:(lia)) as [-> | [-> | [-> | [-> | [-> | [-> | [-> | [-> | ->]]]]]]]];
    try lia;
    destruct (small_cases y 9 Hy ltac:(lia)) as [-> | [-> | [-> | [-> | [-> | [-> | [-> | [-> | ->]]]]]]]];
    reflexivity.
Qed.

Lemma key_of_written (c r : Z) :
  0 <= c < 8 -> key_of c r = written_key c (r - 1).
Proof.
  intros Hc. unfold key_of, written_key.
  replace (r - 1 + 1) with r by lia.
  destruct (small_cases c 8 Hc ltac:(lia)) as [-> | [-> | [-> | [-> | [-> | [-> | [-> | [-> | ->]]]]]]]];
    try lia; reflexivity.
Qed.

Lemma index_to_key_to_index (NUM_SQUARES i : Z) :
  0 < NUM_ROWS <= 8 -> NUM_SQUARES <= 9 * NUM_ROWS ->
  valid_index NUM_SQUARES i ->
  keyToSquareIndex NUM_ROWS (squareIndexToKey NUM_ROWS (Int i)) = Int i.
Proof.
  intros HR HN Hi. unfold valid_index in Hi.
  rewrite squareIndexToKey_written by lia.
  pose proof (Z.mod_pos_bound i NUM_ROWS ltac:(lia)) as Hm.
  assert (0 <= i / NUM_ROWS < 9) as Hd.
  { split; [apply Z.div_pos; lia | apply Z.div_lt_upper_bound; lia]. }
  rewrite keyToSquareIndex_written by lia.
  f_equal. rewrite (Z.div_mod i NUM_ROWS) at 3 by lia. lia.
Qed.

Lemma key_to_index_to_key (NUM_SQUARES : Z) (k : string) :
  0 < NUM_ROWS <= 8 -> NUM_SQUARES <= 9 * NUM_ROWS ->
  valid_key NUM_ROWS NUM_SQUARES k ->
  squareIndexToKey NUM_ROWS (keyToSquareIndex NUM_ROWS k) = k.
Proof.
  intros HR HN (c & r & Hc & _ & Hr & Hlt & ->).
  assert (0 <= r - 1 < 9) as Hr' by nia.
  rewrite key_of_written by lia.
  rewrite keyToSquareIndex_written by lia.
  rewrite squareIndexToKey_written by lia.
  f_equal.
  - rewrite Z.add_comm, Z.mod_add by lia. apply Z.mod_small; lia.
  - rewrite Z.add_comm, Z.div_add by lia. rewrite Z.div_small by lia. lia.
Qed.

End CoordinateFacts.

(** C3, as the code has it. On a board of at most eight columns
    ([NUM_ROWS <= 8], the letters [a] to [h] of the two [switch] statements)
    and at most nine ranks (one rank digit read back by [parseInt(key[1])]),
    [squareIndexToKey] and [keyToSquareIndex] are mutual inverses: every valid
    index is read back from its key, and every valid key is written back from
    its index. The 8 x 8 board of the engine is such a board. *)
Theorem coordinate_bijection_small_board (NUM_ROWS NUM_SQUARES : Z) :
  0 < NUM_ROWS <= 8 -> NUM_SQUARES <= 9 * NUM_ROWS ->
  (forall i, Coordinates.valid_index NUM_SQUARES i ->
     Coordinates.keyToSquareIndex NUM_ROWS
       (Coordinates.squareIndexToKey NUM_ROWS (Int i)) = Int i) /\
  (forall k, Coordinates.valid_key NUM_ROWS NUM_SQUARES k ->
     Coordinates.squareIndexToKey NUM_ROWS
       (Coordinates.keyToSquareIndex NUM_ROWS k) = k).
Proof.
  intros HR HN. split.
  - intros i Hi. now apply (index_to_key_to_index NUM_ROWS NUM_SQUARES).
  - intros k Hk. now apply (key_to_index_to_key NUM_ROWS NUM_SQUARES).
Qed.

Lemma coordinate_bijection_small_board_witness :
  (0 < 8 <= 8) /\ (64 <= 9 * 8) /\
  Coordinates.keyToSquareIndex 8 (Coordinates.squareIndexToKey 8 (Int 12)) = Int 12 /\
  Coordinates.squareIndexToKey 8 (Coordinates.keyToSquareIndex 8 "e2") = "e2".
Proof.
  assert (H8 : 0 < 8 <= 8) by lia.
  assert (H64 : 64 <= 9 * 8) by lia.
  split; [exact H8 | split; [exact H64 |]].
  destruct (coordinate_bijection_small_board 8 64 H8 H64) as [Hi Hk].
  split.
  - apply Hi. unfold Coordinates.valid_index. lia.
  - apply Hk. exists 4, 2. repeat split; try lia.
Defined.

(** C3, as stated, fails: the board shape is a parameter of the arithmetic
    only. On a board of nine columns the ninth file has no letter, so index 8
    is written ["1"] and read back as [NaN]; on a board of ten ranks index 72
    is written ["a10"] and read back as 0. *)
Lemma coordinate_bijection_general_shape_fails :
  ~ (forall NUM_ROWS NUM_SQUARES i,
       0 < NUM_ROWS -> Coordinates.valid_index NUM_SQUARES i ->
       Coordinates.keyToSquareIndex NUM_ROWS
         (Coordinates.squareIndexToKey NUM_ROWS (Int i)) = Int i).
Proof.
  intros H. specialize (H 9 81 8).
  assert (Coordinates.keyToSquareIndex 9 (Coordinates.squareIndexToKey 9 (Int 8)) = NaN)
    as E by reflexivity.
  rewrite E in H. discriminate H; unfold Coordinates.valid_index; lia.
Qed.

Example ten_ranks_read_back_wrong :
  Coordinates.squareIndexToKey 8 (Int 72) = "a10" /\
  Coordinates.keyToSquareIndex 8 "a10" = Int 0.
Proof. split; reflexivity. Qed.

(** ** More on the coordinate functions *)

Section CoordinateRanges.

Import Coordinates.

Variable NUM_ROWS : Z.

Lemma written_key_of (i : Z) :
  0 < NUM_ROWS <= 8 ->
  written_key (i mod NUM_ROWS) (i / NUM_ROWS) = key_of (i mod NUM_ROWS) (i / NUM_ROWS + 1).
Proof.
  intros HR. pose proof (Z.mod_pos_bound i NUM_ROWS ltac:(lia)).
  rewrite key_of_written by lia. f_equal. lia.
Qed.

Lemma squareIndexToKey_valid (NUM_SQUARES i : Z) :
  0 < NUM_ROWS <= 8 -> valid_index NUM_SQUARES i ->
  valid_key NUM_ROWS NUM_SQUARES (squareIndexToKey NUM_ROWS (Int i)).
Proof.
  intros HR Hi. unfold valid_index in Hi.
  rewrite squareIndexToKey_written, written_key_of by lia.
  pose proof (Z.mod_pos_bound i NUM_ROWS ltac:(lia)).
  assert (0 <= i / NUM_ROWS) by (apply Z.div_pos; lia).
  exists (i mod NUM_ROWS), (i / NUM_ROWS + 1).
  split; [lia|]. split; [lia|]. split; [lia|]. split; [|reflexivity].
  replace (i / NUM_ROWS + 1 - 1) with (i / NUM_ROWS) by lia.
  rewrite (Z.div_mod i NUM_ROWS) in Hi by lia. lia.
Qed.

Lemma keyToSquareIndex_valid (NUM_SQUARES : Z) (k : string) :
  0 < NUM_ROWS <= 8 -> NUM_SQUARES <= 9 * NUM_ROWS ->
  valid_key NUM_ROWS NUM_SQUARES k ->
  exists i, keyToSquareIndex NUM_ROWS k = Int i /\ valid_index NUM_SQUARES i.
Proof.
  intros HR HN (c & r & Hc & _ & Hr & Hlt & ->).
  assert (0 <= r - 1 < 9) as Hr' by nia.
  rewrite key_of_written, keyToSquareIndex_written by lia.
  eexists. split; [reflexivity|]. unfold valid_index. nia.
Qed.

Lemma squareIndexToKey_inj (NUM_SQUARES i j : Z) :
  0 < NUM_ROWS <= 8 -> NUM_SQUARES <= 9 * NUM_ROWS ->
  valid_index NUM_SQUARES i -> valid_index NUM_SQUARES j ->
  squareIndexToKey NUM_ROWS (Int i) = squareIndexToKey NUM_ROWS (Int j) -> i = j.
Proof.
  intros HR HN Hi Hj Heq.
  pose proof (index_to_key_to_index NUM_ROWS NUM_SQUARES i HR HN Hi) as Ei.
  pose proof (index_to_key_to_index NUM_ROWS NUM_SQUARES j HR HN Hj) as Ej.
  rewrite Heq, Ej in Ei. by injection Ei.
Qed.

End CoordinateRanges.

(** X10. On a board of at most eight columns and nine ranks the two
    functions stay on the board: the key of a valid index is a valid key
    (a file letter among the first [NUM_ROWS] and a rank of the board), and
    the index of a valid key is a valid index. *)
Theorem coordinates_stay_on_the_board (NUM_ROWS NUM_SQUARES : Z) :
  0 < NUM_ROWS <= 8 -> NUM_SQUARES <= 9 * NUM_ROWS ->
  (forall i, Coordinates.valid_index NUM_SQUARES i ->
     Coordinates.valid_key NUM_ROWS NUM_SQUARES
       (Coordinates.squareIndexToKey NUM_ROWS (Int i))) /\
  (forall k, Coordinates.valid_key NUM_ROWS NUM_SQUARES k ->
     exists i, Coordinates.keyToSquareIndex NUM_ROWS k = Int i /\
               Coordinates.valid_index NUM_SQUARES i).
Proof.
  intros HR HN. split.
  - intros i Hi. by apply squareIndexToKey_valid.
  - intros k Hk. by apply keyToSquareIndex_valid.
Qed.

Lemma coordinates_stay_on_the_board_witness :
  Coordinates.valid_key 8 64 (Coordinates.squareIndexToKey 8 (Int 63)) /\
  (exists i, Coordinates.keyToSquareIndex 8 "h8" = Int i /\
             Coordinates.valid_index 64 i).
Proof.
  assert (H8 : 0 < 8 <= 8) by lia.
  assert (H64 : 64 <= 9 * 8) by lia.
  destruct (coordinates_stay_on_the_board 8 64 H8 H64) as [Hi Hk].
  split.
  - apply Hi. unfold Coordinates.valid_index. lia.
  - apply Hk. exists 7, 8. repeat split; lia.
Defined.

(** X11. [keyToSquareIndex] reads the first two characters of the key and
    nothing else: on a board of at most eight columns and nine ranks, a
    valid key followed by anything at all is read as the valid key (["e2x"]
    and ["e24"] are read as ["e2"]), so no such string is told apart from
    the key. *)
Theorem keyToSquareIndex_ignores_what_follows (NUM_ROWS NUM_SQUARES : Z)
    (k rest : string) :
  0 < NUM_ROWS <= 8 -> NUM_SQUARES <= 9 * NUM_ROWS ->
  Coordinates.valid_key NUM_ROWS NUM_SQUARES k ->
  Coordinates.keyToSquareIndex NUM_ROWS (String.append k rest)
  = Coordinates.keyToSquareIndex NUM_ROWS k.
Proof.
  intros HR HN (c & r & Hc & _ & Hr & Hlt & ->).
  assert (0 <= r - 1 < 9) as Hr' by nia.
  assert (0 <= c < 8) as Hc' by lia.
  replace r with (r - 1 + 1) by lia.
  destruct (small_cases c 8 Hc' ltac:(lia)) as [-> | [-> | [-> | [-> | [-> | [-> | [-> | [-> | ->]]]]]]]];
    try lia;
    destruct (small_cases (r - 1) 9 Hr' ltac:(lia)) as [-> | [-> | [-> | [-> | [-> | [-> | [-> | [-> | ->]]]]]]]];
    reflexivity.
Qed.

Lemma keyToSquareIndex_ignores_what_follows_witness :
  Coordinates.keyToSquareIndex 8 (String.append "e2" "4")
  = Coordinates.keyToSquareIndex 8 "e2".
Proof.
  apply (keyToSquareIndex_ignores_what_follows 8 64 "e2" "4"); [lia|lia|].
  exists 4, 2. repeat split; lia.
Defined.

(** X12. [squareIndexToCoordinates] splits an index into a column between 1
    and [NUM_ROWS] and a row, both counted from 1, from which the index is
    found again as [(row - 1) * NUM_ROWS + (column - 1)]; the row of an index
    that is not negative is at least 1. This is for the integers a double
    holds exactly, where the arithmetic of the code is that of integers. *)
Theorem squareIndexToCoordinates_splits (NUM_ROWS i : Z) :
  0 < NUM_ROWS -> Coordinates.safe_integer NUM_ROWS -> Coordinates.safe_integer i ->
  exists x y,
    Coordinates.squareIndexToCoordinates NUM_ROWS (Int i) = (Int x, Int y) /\
    1 <= x <= NUM_ROWS /\
    (y - 1) * NUM_ROWS + (x - 1) = i /\
    (0 <= i -> 1 <= y) /\
    Coordinates.safe_integer (x - 1) /\ Coordinates.safe_integer (y - 1).
Proof.
  intros HR HsR Hsi. exists (i - i / NUM_ROWS * NUM_ROWS + 1), (i / NUM_ROWS + 1).
  split; [reflexivity|].
  pose proof (Z.mod_pos_bound i NUM_ROWS ltac:(lia)) as Hm.
  rewrite Z.mod_eq in Hm by lia.
  assert (0 <= i -> 0 <= i / NUM_ROWS) as Hpos by (intros; apply Z.div_pos; lia).
  assert (- 2 ^ 52 < i / NUM_ROWS < 2 ^ 52) as Hq.
  { unfold Coordinates.safe_integer in *. split.
    - apply Z.lt_le_trans with (- 2 ^ 52 + 1); [lia|].
      apply Z.div_le_lower_bound; [lia|]. nia.
    - apply Z.div_lt_upper_bound; [lia|]. nia. }
  unfold Coordinates.safe_integer in *.
  split; [lia|]. split; [lia|]. split; [lia|]. split; lia.
Qed.

Lemma squareIndexToCoordinates_splits_witness :
  exists x y,
    Coordinates.squareIndexToCoordinates 8 (Int 12) = (Int x, Int y) /\
    1 <= x <= 8 /\ (y - 1) * 8 + (x - 1) = 12 /\ (0 <= 12 -> 1 <= y) /\
    Coordinates.safe_integer (x - 1) /\ Coordinates.safe_integer (y - 1).
Proof.
  apply (squareIndexToCoordinates_splits 8 12);
    unfold Coordinates.safe_integer; lia.
Defined.

(** ** What the coordinate functions do off the board *)

Section OffTheBoard.

Import Coordinates.

Lemma num_toString_Int_inj (a b : Z) :
  num_toString (Int a) = num_toString (Int b) -> a = b.
Proof.
  unfold num_toString. intros H. apply DecimalZ.to_int_inj.
  assert (forall z, Z.to_int z <> Decimal.Pos Decimal.Nil /\
                    Z.to_int z <> Decimal.Neg Decimal.Nil) as Hnil.
  { intros [|p|p]; cbn; split; try discriminate;
      intros [= Hp]; by apply DecimalPos.Unsigned.to_uint_nonnil in Hp. }
  destruct (Hnil a) as [Ha1 Ha2]. destruct (Hnil b) as [Hb1 Hb2].
  pose proof (NilZero.isi _ Ha1 Ha2) as Ea.
  pose proof (NilZero.isi _ Hb1 Hb2) as Eb.
  rewrite H, Eb in Ea. by injection Ea.
Qed.

Lemma file_letter_inj (c c' : Z) :
  0 <= c < 26 -> 0 <= c' < 26 -> file_letter c = file_letter c' -> c = c'.
Proof.
  intros Hc Hc' H. unfold file_letter in H.
  apply (f_equal nat_of_ascii) in H.
  rewrite !nat_ascii_embedding in H by lia. lia.
Qed.

Lemma key_of_inj (c c' r r' : Z) :
  0 <= c < 26 -> 0 <= c' < 26 -> key_of c r = key_of c' r' -> c = c' /\ r = r'.
Proof.
  intros Hc Hc'. unfold key_of. intros [= Hl Hr].
  split; [by apply file_letter_inj | by apply num_toString_Int_inj].
Qed.

Variables NUM_ROWS NUM_SQUARES : Z.

(** An index off the board is written as a key that is none of the board. *)
Lemma squareIndexToKey_off_the_board (i : Z) :
  0 < NUM_ROWS <= 8 -> ~ valid_index NUM_SQUARES i ->
  ~ valid_key NUM_ROWS NUM_SQUARES (squareIndexToKey NUM_ROWS (Int i)).
Proof.
  intros HR Hi (c & r & Hc & Hc26 & Hr & Hlt & Hk). apply Hi.
  rewrite squareIndexToKey_written, written_key_of in Hk by lia.
  pose proof (Z.mod_pos_bound i NUM_ROWS ltac:(lia)) as Hm.
  apply key_of_inj in Hk as [Ec Er]; [|lia|lia].
  unfold valid_index.
  rewrite (Z.div_mod i NUM_ROWS) by lia.
  assert (i / NUM_ROWS = r - 1) as Ed by lia. rewrite Ed, Ec. nia.
Qed.

Lemma x_of_firstChar_unknown (c : ascii) :
  (nat_of_ascii c < 97 \/ 104 < nat_of_ascii c)%nat ->
  x_of_firstChar (Some c) = 0.
Proof.
  intros Hc.
  destruct c as [[] [] [] [] [] [] [] []]; try reflexivity;
    vm_compute in Hc; exfalso; lia.
Qed.

End OffTheBoard.

(** C4, as the code has it. Neither function checks a range or signals an
    [InvalidCoordinate] error. On a board of at most eight columns, an index
    off the board (any integer of magnitude below [2 ^ 52], which a double
    holds exactly) is written as a key
    that is no key of the board; a string that is no key of the board is
    read as a number all the same: [NaN], an index off the board, or the
    index of a square that has another key. A first character that is none
    of [a] to [h] is read as file [a], and a key whose second character is
    missing or is no digit gives [NaN]. The one exception is the [TypeError]
    of JavaScript on a key that is [undefined] or [null]. *)
Theorem coordinates_off_the_board (NUM_ROWS NUM_SQUARES : Z) :
  0 < NUM_ROWS <= 8 ->
  (forall i, Coordinates.safe_integer i -> ~ Coordinates.valid_index NUM_SQUARES i ->
     exists k,
       Coordinates.call_squareIndexToKey NUM_ROWS (Int i) = Coordinates.Return k /\
       ~ Coordinates.valid_key NUM_ROWS NUM_SQUARES k) /\
  (forall key, ~ Coordinates.valid_key NUM_ROWS NUM_SQUARES key ->
     exists n,
       Coordinates.call_keyToSquareIndex NUM_ROWS (Some key) = Coordinates.Return n /\
       (n = NaN \/
        exists j, n = Int j /\
          (~ Coordinates.valid_index NUM_SQUARES j \/
           Coordinates.squareIndexToKey NUM_ROWS (Int j) <> key))) /\
  (forall c rest, (nat_of_ascii c < 97 \/ 104 < nat_of_ascii c)%nat ->
     Coordinates.call_keyToSquareIndex NUM_ROWS (Some (String c rest))
     = Coordinates.call_keyToSquareIndex NUM_ROWS (Some (String "a" rest))) /\
  (forall key, (forall d, String.get 1 key = Some d -> digit_value d = None) ->
     Coordinates.call_keyToSquareIndex NUM_ROWS (Some key) = Coordinates.Return NaN) /\
  Coordinates.call_keyToSquareIndex NUM_ROWS None
  = Coordinates.Throw Coordinates.TypeError.
Proof.
  intros HR. split; [|split; [|split; [|split]]].
  - intros i _ Hi. eexists. split; [reflexivity|].
    by apply squareIndexToKey_off_the_board.
  - intros key Hkey. eexists. split; [reflexivity|].
    destruct (Coordinates.keyToSquareIndex NUM_ROWS key) as [|j] eqn:Ej; [by left|].
    right. exists j. split; [reflexivity|].
    destruct (decide (0 <= j < NUM_SQUARES)) as [Hj|Hj]; [right|by left].
    intros Heq. apply Hkey. rewrite <- Heq.
    by apply squareIndexToKey_valid.
  - intros c rest Hc. cbn [Coordinates.call_keyToSquareIndex]. f_equal.
    unfold Coordinates.keyToSquareIndex.
    change (String.get 0 (String c rest)) with (Some c).
    change (String.get 0 (String "a" rest)) with (Some "a"%char).
    change (String.get 1 (String c rest)) with (String.get 0 rest).
    change (String.get 1 (String "a" rest)) with (String.get 0 rest).
    by rewrite (x_of_firstChar_unknown c Hc).
  - intros key Hd. cbn [Coordinates.call_keyToSquareIndex]. f_equal.
    unfold Coordinates.keyToSquareIndex, parseInt_char.
    destruct (String.get 1 key) as [d|] eqn:Ed; [|reflexivity].
    by rewrite (Hd d eq_refl).
  - reflexivity.
Qed.

Lemma coordinates_off_the_board_witness :
  (exists k,
     Coordinates.call_squareIndexToKey 8 (Int 64) = Coordinates.Return k /\
     ~ Coordinates.valid_key 8 64 k) /\
  (exists n,
     Coordinates.call_keyToSquareIndex 8 (Some "a9") = Coordinates.Return n /\
     (n = NaN \/
      exists j, n = Int j /\
        (~ Coordinates.valid_index 64 j \/
         Coordinates.squareIndexToKey 8 (Int j) <> "a9"))).
Proof.
  assert (H8 : 0 < 8 <= 8) by lia.
  destruct (coordinates_off_the_board 8 64 H8) as (Hi & Hk & _).
  split.
  - apply Hi; unfold Coordinates.safe_integer, Coordinates.valid_index; lia.
  - apply Hk. intros (c & r & Hc & _ & Hr & Hlt & Hkey).
    change "a9" with (Coordinates.key_of 0 9) in Hkey.
    apply key_of_inj in Hkey as [<- <-]; lia.
Defined.

(** C4, as stated, fails: index 64 and key ["i1"] are outside the 8 x 8
    board, and both calls return, the first the key ["a9"] and the second
    the index of ["a1"], instead of signalling [InvalidCoordinate]. *)
Lemma out_of_range_not_signalled :
  ~ Coordinates.valid_index 64 64 /\
  Coordinates.call_squareIndexToKey 8 (Int 64)
  <> Coordinates.Throw Coordinates.InvalidCoordinate /\
  Coordinates.call_squareIndexToKey 8 (Int 64) = Coordinates.Return "a9" /\
  ~ Coordinates.valid_key 8 64 "i1" /\
  Coordinates.call_keyToSquareIndex 8 (Some "i1")
  <> Coordinates.Throw Coordinates.InvalidCoordinate /\
  Coordinates.call_keyToSquareIndex 8 (Some "i1") = Coordinates.Return (Int 0).
Proof.
  split; [unfold Coordinates.valid_index; lia|].
  split; [discriminate|]. split; [reflexivity|].
  split; [|split; [discriminate|reflexivity]].
  intros (c & r & Hc & _ & Hr & Hlt & Hkey).
  change "i1" with (Coordinates.key_of 8 1) in Hkey.
  apply key_of_inj in Hkey as [<- <-]; lia.
Qed.

(** ** The threats of a list of moves *)

Section ThreatFacts.

Import ChessBoard.

Lemma getThreats_from (acc : list Threat) (moves : list Move) :
  fold_left
    (fun threats move =>
       let threats := push threats {| orig := to move; dest := None; brush := "yellow" |} in
       let threats :=
         match captured move with
         | Some _ =>
             push threats {| orig := from move; dest := Some (to move); brush := "red" |}
         | None => threats
         end in
       if includes (san move) "+"
       then push threats {| orig := from move; dest := Some (to move); brush := "blue" |}
       else threats)
    moves acc
  = acc ++ getThreats moves.
Proof.
  unfold getThreats. revert acc.
  induction moves as [|m moves IH]; intros acc; cbn [fold_left].
  - by rewrite app_nil_r.
  - rewrite IH. symmetry. rewrite IH. unfold push.
    destruct (captured m), (includes (san m) "+"); cbn;
      by rewrite <- ?app_assoc.
Qed.

Lemma getThreats_cons (m : Move) (moves : list Move) :
  getThreats (m :: moves) = getThreats [m] ++ getThreats moves.
Proof. unfold getThreats at 1. cbn [fold_left]. by rewrite getThreats_from. Qed.

Lemma getThreats_one (m : Move) :
  exists tail,
    getThreats [m] = {| orig := to m; dest := None; brush := "yellow" |} :: tail /\
    (length tail <= 2)%nat /\
    (forall t, t ∈ tail ->
       orig t = from m /\ dest t = Some (to m) /\
       (brush t = "red" /\ captured m <> None \/
        brush t = "blue" /\ includes (san m) "+" = true)) /\
    (captured m <> None ->
     {| orig := from m; dest := Some (to m); brush := "red" |} ∈ tail) /\
    (includes (san m) "+" = true ->
     {| orig := from m; dest := Some (to m); brush := "blue" |} ∈ tail).
Proof.
  unfold getThreats, push. cbn [fold_left app].
  destruct (captured m) eqn:Ec, (includes (san m) "+") eqn:Ei; cbn [app];
    eexists; (split; [reflexivity|]); (split; [cbn; lia|]);
    (split; [|split]); try (intros; congruence);
    try (intros _; apply elem_of_cons; by left);
    try (intros _; apply elem_of_cons; right; apply elem_of_cons; by left).
  all: intros t Ht; repeat (apply elem_of_cons in Ht as [->|Ht]);
    try (by apply elem_of_nil in Ht); cbn; split_and!; try done;
    first [left; by split | right; by split].
Qed.

End ThreatFacts.

(** X13. [getThreats] works move by move: the threats of two lists of moves
    put end to end are the threats of the first followed by those of the
    second, and a list of [n] moves gives at least [n] and at most [3 * n]
    threats. *)
Theorem getThreats_move_by_move (moves1 moves2 : list ChessBoard.Move) :
  ChessBoard.getThreats (moves1 ++ moves2)
  = ChessBoard.getThreats moves1 ++ ChessBoard.getThreats moves2 /\
  (length moves1 <= length (ChessBoard.getThreats moves1) <= 3 * length moves1)%nat.
Proof.
  split.
  - induction moves1 as [|m moves1 IH]; [reflexivity|].
    cbn [app]. rewrite getThreats_cons, IH, (getThreats_cons m moves1).
    by rewrite app_assoc.
  - induction moves1 as [|m moves1 IH]; [cbn; lia|].
    rewrite getThreats_cons, length_app. cbn [length].
    destruct (getThreats_one m) as (tail & -> & Hlen & _). cbn [length]. lia.
Qed.

(** X14. What [getThreats] marks: every move has its yellow mark on the
    destination, a red arrow if it captures and a blue arrow if its notation
    has a [+]; and every threat returned is one of these three marks of one
    of the moves. *)
Theorem getThreats_marks (moves : list ChessBoard.Move) :
  (forall m, m ∈ moves ->
     {| ChessBoard.orig := ChessBoard.to m; ChessBoard.dest := None;
        ChessBoard.brush := "yellow" |} ∈ ChessBoard.getThreats moves /\
     (ChessBoard.captured m <> None ->
      {| ChessBoard.orig := ChessBoard.from m;
         ChessBoard.dest := Some (ChessBoard.to m);
         ChessBoard.brush := "red" |} ∈ ChessBoard.getThreats moves) /\
     (ChessBoard.includes (ChessBoard.san m) "+" = true ->
      {| ChessBoard.orig := ChessBoard.from m;
         ChessBoard.dest := Some (ChessBoard.to m);
         ChessBoard.brush := "blue" |} ∈ ChessBoard.getThreats moves)) /\
  (forall t, t ∈ ChessBoard.getThreats moves ->
     exists m, m ∈ moves /\
       (t = {| ChessBoard.orig := ChessBoard.to m; ChessBoard.dest := None;
               ChessBoard.brush := "yellow" |} \/
        t = {| ChessBoard.orig := ChessBoard.from m;
               ChessBoard.dest := Some (ChessBoard.to m);
               ChessBoard.brush := "red" |} /\ ChessBoard.captured m <> None \/
        t = {| ChessBoard.orig := ChessBoard.from m;
               ChessBoard.dest := Some (ChessBoard.to m);
               ChessBoard.brush := "blue" |} /\
        ChessBoard.includes (ChessBoard.san m) "+" = true)).
Proof.
  induction moves as [|m0 moves [IH1 IH2]].
  - split; [intros m Hm; by apply elem_of_nil in Hm|].
    intros t Ht. by apply elem_of_nil in Ht.
  - rewrite getThreats_cons.
    destruct (getThreats_one m0) as (tail & -> & _ & Htail & Hred & Hblue).
    split.
    + intros m Hm. apply elem_of_cons in Hm as [->|Hm].
      * split_and!.
        -- apply elem_of_app. left. apply elem_of_cons. by left.
        -- intros Hc. apply elem_of_app. left. apply elem_of_cons. right. auto.
        -- intros Hc. apply elem_of_app. left. apply elem_of_cons. right. auto.
      * destruct (IH1 m Hm) as (Hy & Hr & Hb).
        split_and!; intros; apply elem_of_app; right; auto.
    + intros t Ht. apply elem_of_app in Ht as [Ht|Ht].
      * exists m0. split; [apply elem_of_cons; by left|].
        apply elem_of_cons in Ht as [->|Ht]; [by left|].
        destruct (Htail t Ht) as (Ho & Hd & Hbr). right.
        destruct t as [o d br]. cbn in *. subst o d.
        destruct Hbr as [[-> ?]|[-> ?]]; [left|right]; by split.
      * destruct (IH2 t Ht) as (m & Hm & Hcase).
        exists m. split; [apply elem_of_cons; by right|done].
Qed.

(** ** The configuration functions *)

Section ConfigFacts.

Import Js Config ConfigSpec.

(** *** The store only grows *)

Definition in_heap (h : heap) (v : value) : Prop :=
  match v with VRef l => (l < length h)%nat | _ => True end.

(** Cells from [lo] on are kept. *)
Definition keeps_from (lo : nat) (h h' : heap) : Prop :=
  forall l c, (lo <= l)%nat -> h !! l = Some c -> h' !! l = Some c.

Lemma prefix_keeps_from lo (h h' : heap) : h `prefix_of` h' -> keeps_from lo h h'.
Proof. intros Hp l c _ Hl. eapply prefix_lookup_Some; eauto. Qed.

Lemma keeps_from_trans lo (h1 h2 h3 : heap) :
  keeps_from lo h1 h2 -> keeps_from lo h2 h3 -> keeps_from lo h1 h3.
Proof. intros H1 H2 l c Hl Hc. eauto. Qed.

Lemma keeps_from_weaken lo lo' (h h' : heap) :
  (lo <= lo')%nat -> keeps_from lo h h' -> keeps_from lo' h h'.
Proof. intros Hle H l c Hl Hc. apply H; [lia | done]. Qed.

Lemma in_heap_prefix (h h' : heap) v :
  h `prefix_of` h' -> in_heap h v -> in_heap h' v.
Proof.
  intros Hp. destruct v; cbn; try done.
  apply prefix_length in Hp. lia.
Qed.

Lemma lookup_prefix (h h' : heap) (l : nat) :
  h `prefix_of` h' -> (l < length h)%nat -> h' !! l = h !! l.
Proof.
  intros [k ->] Hl. by rewrite lookup_app_l.
Qed.

Lemma own_props_prefix (h h' : heap) v :
  h `prefix_of` h' -> in_heap h v -> own_props h' v = own_props h v.
Proof.
  intros Hp Hv. destruct v; cbn in *; try done.
  by rewrite (lookup_prefix h h').
Qed.

Lemma isObject_prefix (h h' : heap) v :
  h `prefix_of` h' -> in_heap h v -> isObject h' v = isObject h v.
Proof.
  intros Hp Hv. destruct v; cbn in *; try done.
  by rewrite (lookup_prefix h h').
Qed.

Lemma is_plain_prefix (h h' : heap) v :
  h `prefix_of` h' -> in_heap h v -> is_plain h' v = is_plain h v.
Proof.
  intros Hp Hv. destruct v; cbn in *; try done.
  by rewrite (lookup_prefix h h').
Qed.

Lemma get_prefix (h h' : heap) v key :
  h `prefix_of` h' -> in_heap h v -> get h' v key = get h v key.
Proof. intros Hp Hv. unfold get. by rewrite (own_props_prefix h h'). Qed.

Lemma store_prop_prefix (hb h : heap) (r : nat) key v :
  hb `prefix_of` h -> (length hb <= r)%nat -> hb `prefix_of` store_prop h r key v.
Proof.
  intros [k ->] Hr. unfold store_prop, loc.
  destruct ((hb ++ k) !! r) as [[props| | |]|]; try by eexists.
  rewrite insert_app_r_alt by done. by eexists.
Qed.

Lemma store_prop_keeps (h : heap) (r : nat) key v :
  keeps_from (S r) h (store_prop h r key v).
Proof.
  intros l c Hl Hc. unfold store_prop, loc.
  destruct (h !! r) as [[props| | |]|]; try done.
  rewrite list_lookup_insert_ne by lia. done.
Qed.

Lemma store_prop_length (h : heap) (r : nat) key v :
  length (store_prop h r key v) = length h.
Proof.
  unfold store_prop, loc. destruct (h !! r) as [[props| | |]|]; try done.
  by rewrite length_insert.
Qed.

Lemma store_prop_lookup (h : heap) (r : nat) key v props :
  h !! r = Some (CObj props) ->
  store_prop h r key v !! r = Some (CObj (set_prop key v props)).
Proof.
  intros Hr. unfold store_prop, loc. rewrite Hr.
  apply list_lookup_insert_eq. by eapply lookup_lt_Some.
Qed.

Lemma map_entries_prefix f :
  (forall h v h' v', f h v = Some (h', v') -> h `prefix_of` h') ->
  forall es h h' es', map_entries f h es = Some (h', es') -> h `prefix_of` h'.
Proof.
  intros Hf es. induction es as [|[k v] es IH]; intros h h' es' H; cbn in H.
  - by injection H as <- <-.
  - destruct (f h v) as [[h1 v1]|] eqn:E1; cbn in H; [|done].
    destruct (map_entries f h1 es) as [[h2 es2]|] eqn:E2; cbn in H; [|done].
    injection H as <- <-. etrans; [by eapply Hf | by eapply IH].
Qed.

Lemma deepCopy_prefix fuel h v h' v' :
  deepCopy fuel h v = Some (h', v') -> h `prefix_of` h'.
Proof.
  revert h v h' v'. induction fuel as [|fuel IH]; intros h v h' v' H; cbn in H; [done|].
  destruct (isObject h v).
  - destruct (map_entries (deepCopy fuel) h (own_props h v)) as [[h1 copied]|] eqn:E;
      cbn in H; [|done].
    injection H as <- <-.
    etrans; [eapply map_entries_prefix; [apply IH | apply E]|].
    by eexists.
  - by injection H as <- <-.
Qed.

Lemma assign_each_prefix body r (hb : heap) :
  (forall h key h1 v, body h key = Some (h1, v) -> h `prefix_of` h1) ->
  (length hb <= r)%nat ->
  forall keys h h', hb `prefix_of` h -> assign_each body r keys h = Some h' ->
                    hb `prefix_of` h'.
Proof.
  intros Hbody Hr keys. induction keys as [|key keys IH]; intros h h' Hp H; cbn in H.
  - by injection H as <-.
  - destruct (body h key) as [[h1 v]|] eqn:E; cbn in H; [|done].
    eapply IH; [|exact H]. apply store_prop_prefix; [|done].
    etrans; [exact Hp | by eapply Hbody].
Qed.

Lemma deepMergeConfig_prefix fuel h target source h' r :
  deepMergeConfig fuel h target source = Some (h', r) -> h `prefix_of` h'.
Proof.
  revert h target source h' r.
  induction fuel as [|fuel IH]; intros h target source h' r H; cbn in H; [done|].
  match type of H with
  | (assign_each ?b ?r ?ks ?h0) ≫= _ = _ =>
      destruct (assign_each b r ks h0) as [h1|] eqn:E; cbn in H; [|done]
  end.
  injection H as <- <-.
  eapply assign_each_prefix in E; [exact E | | done | by eexists].
  intros h2 key h3 v Hb. cbn in Hb.
  destruct (_ && _); [by eapply IH | by eapply deepCopy_prefix].
Qed.

Lemma diff_each_prefix sub oldConfig newConfig d (hb : heap) :
  (forall h a b h1 v, sub h a b = Some (h1, v) -> h `prefix_of` h1) ->
  (length hb <= d)%nat ->
  forall keys h h', hb `prefix_of` h ->
    diff_each sub oldConfig newConfig d keys h = Some h' -> hb `prefix_of` h'.
Proof.
  intros Hsub Hd keys. induction keys as [|key keys IH]; intros h h' Hp H; cbn in H.
  - by injection H as <-.
  - destruct (_ && _).
    + destruct (sub h _ _) as [[h1 subDiff]|] eqn:E; cbn in H; [|done].
      assert (hb `prefix_of` h1) by (etrans; [exact Hp | by eapply Hsub]).
      destruct (bool_decide _); eapply IH; try exact H; try done.
      by apply store_prop_prefix.
    + destruct (negb _); eapply IH; try exact H; try done.
      by apply store_prop_prefix.
Qed.

Lemma deepDiffConfig_prefix fuel h oldConfig newConfig h' p :
  deepDiffConfig fuel h oldConfig newConfig = Some (h', p) -> h `prefix_of` h'.
Proof.
  revert h oldConfig newConfig h' p.
  induction fuel as [|fuel IH]; intros h a b h' p H; cbn in H; [done|].
  match type of H with
  | (diff_each ?s ?a ?b ?d ?ks ?h0) ≫= _ = _ =>
      destruct (diff_each s a b d ks h0) as [h1|] eqn:E; cbn in H; [|done]
  end.
  injection H as <- <-.
  eapply diff_each_prefix in E; [exact E | | done | by eexists].
  intros. by eapply IH.
Qed.

(** *** Well-formed trees *)

Lemma Forall2_impl_Forall {A B} (P : A -> Prop) (R R' : A -> B -> Prop) l k :
  Forall P l -> Forall2 R l k -> (forall x y, P x -> R x y -> R' x y) ->
  Forall2 R' l k.
Proof.
  intros HP HR Himp. induction HR; [constructor|].
  inversion HP; subst. constructor; auto.
Qed.

Lemma wf_tree_ref d h (l : nat) :
  wf_tree d h (VRef l)
  = match h !! l with
    | Some (CObj props) =>
        match d with
        | O => false
        | S d' => bool_decide (NoDup props.*1)
                  && forallb (fun kv => wf_tree d' h kv.2) props
        end
    | Some (CMap _) | None => false
    | Some _ => true
    end.
Proof. by destruct d. Qed.

Lemma wf_in_heap d h v : wf_tree d h v = true -> in_heap h v.
Proof.
  destruct v as [| | | | |l]; try done; unfold loc in *. rewrite wf_tree_ref. cbn.
  destruct (h !! l) as [c|] eqn:E; [|done].
  intros _. exact (lookup_lt_Some _ _ _ E).
Qed.

Lemma wf_plain_inv d h (l : nat) props :
  wf_tree d h (VRef l) = true -> h !! l = Some (CObj props) ->
  exists d', d = S d' /\ NoDup props.*1 /\
             Forall (fun kv => wf_tree d' h kv.2 = true) props.
Proof.
  rewrite wf_tree_ref. intros Hwf Hl. rewrite Hl in Hwf.
  destruct d as [|d]; [done|].
  apply andb_true_iff in Hwf as [Hnd Hall].
  exists d. split; [done|]. split; [by apply bool_decide_eq_true in Hnd|].
  apply Forall_forall. intros kv Hin.
  rewrite forallb_forall in Hall. apply Hall. by apply list_elem_of_In.
Qed.

Lemma isObject_ref h (l : nat) :
  isObject h (VRef l)
  = match h !! l with Some (CObj _) | Some (CMap _) => true | _ => false end.
Proof. done. Qed.

Lemma is_plain_ref h (l : nat) :
  is_plain h (VRef l) = match h !! l with Some (CObj _) => true | _ => false end.
Proof. done. Qed.

Lemma own_props_ref h (l : nat) :
  own_props h (VRef l)
  = match h !! l with
    | Some (CObj props) => props
    | Some (CArr elems) => imap (fun i e => (index_name i, e)) elems
    | _ => []
    end.
Proof. done. Qed.

Lemma wf_isObject_plain d h v :
  wf_tree d h v = true -> isObject h v = true ->
  exists (l : nat) props, v = VRef l /\ h !! l = Some (CObj props).
Proof.
  destruct v as [| | | | |l]; try done; unfold loc in *. rewrite wf_tree_ref, isObject_ref.
  destruct (h !! l) as [[props| | |]|] eqn:E; try done.
  intros _ _. by exists l, props.
Qed.

Lemma is_plain_isObject h v : is_plain h v = true -> isObject h v = true.
Proof.
  destruct v as [| | | | |l]; try done; unfold loc in *. rewrite is_plain_ref, isObject_ref.
  by destruct (h !! l) as [[]|].
Qed.

Lemma is_plain_inv h v :
  is_plain h v = true -> exists (l : nat) props, v = VRef l /\ h !! l = Some (CObj props).
Proof.
  destruct v as [| | | | |l]; try done; unfold loc in *. rewrite is_plain_ref.
  destruct (h !! l) as [[props| | |]|] eqn:E; try done.
  intros _. by exists l, props.
Qed.

Lemma wf_isObject_is_plain d h v :
  wf_tree d h v = true -> isObject h v = true -> is_plain h v = true.
Proof.
  intros Hwf Hobj. destruct (wf_isObject_plain _ _ _ Hwf Hobj) as (l & props & -> & Hl).
  by rewrite is_plain_ref, Hl.
Qed.

Lemma wf_prefix d (h h' : heap) v :
  h `prefix_of` h' -> wf_tree d h v = true -> wf_tree d h' v = true.
Proof.
  intros Hp. revert v. induction d as [|d IH]; intros v Hwf;
    pose proof (wf_in_heap _ _ _ Hwf) as Hin;
    destruct v as [| | | | |l]; try done; unfold loc in *; cbn in Hin;
    rewrite wf_tree_ref in *; rewrite (lookup_prefix h h') by done;
    destruct (h !! l) as [[props| | |]|]; try done.
  apply andb_true_iff in Hwf as [Hnd Hall]. apply andb_true_iff. split; [done|].
  rewrite forallb_forall in Hall |- *. intros kv Hkv. apply IH. by apply Hall.
Qed.

Lemma get_ref h (l : nat) props key :
  h !! l = Some (CObj props) ->
  get h (VRef l) key = default VUndefined (lookup_prop key props).
Proof. intros Hl. unfold get. by rewrite own_props_ref, Hl. Qed.

Lemma wf_lookup_prop d h props key v :
  Forall (fun kv => wf_tree d h kv.2 = true) props ->
  lookup_prop key props = Some v -> wf_tree d h v = true.
Proof.
  induction 1 as [|[k w] ps Hv _ IH]; cbn; [done|].
  case_decide; [by intros [= <-] | apply IH].
Qed.

Lemma wf_get d h (l : nat) props key :
  wf_tree (S d) h (VRef l) = true -> h !! l = Some (CObj props) ->
  wf_tree d h (get h (VRef l) key) = true.
Proof.
  intros Hwf Hl. destruct (wf_plain_inv _ _ _ _ Hwf Hl) as (d' & [= <-] & _ & Hall).
  rewrite (get_ref _ _ _ _ Hl).
  destruct (lookup_prop key props) as [v|] eqn:E; cbn; [|by destruct d].
  by eapply wf_lookup_prop.
Qed.

(** *** Copies *)

Lemma is_copy_ref d lo h (l : nat) v' :
  is_copy d lo h (VRef l) v'
  = match h !! l with
    | Some (CObj props) =>
        match d with
        | O => False
        | S d' =>
            exists (l' : nat) props',
              v' = VRef l' /\ (lo <= l')%nat /\ h !! l' = Some (CObj props') /\
              Forall2 (fun kv kv' => kv.1 = kv'.1 /\ is_copy d' lo h kv.2 kv'.2)
                props props'
        end
    | _ => v' = VRef l
    end.
Proof. by destruct d. Qed.

Lemma is_copy_leaf d lo h v v' :
  isObject h v = false -> wf_tree d h v = true -> is_copy d lo h v v' <-> v' = v.
Proof.
  destruct v as [| | | | |l]; try (by destruct d); unfold loc in *.
  rewrite isObject_ref, wf_tree_ref, is_copy_ref.
  by destruct (h !! l) as [[]|].
Qed.

Lemma is_copy_weaken d lo lo' h v v' :
  (lo' <= lo)%nat -> is_copy d lo h v v' -> is_copy d lo' h v v'.
Proof.
  intros Hle. revert v v'. induction d as [|d IH]; intros v v';
    destruct v as [| | | | |l]; try done; unfold loc in *;
    rewrite !is_copy_ref; destruct (h !! l) as [[props| | |]|]; try done.
  intros (l' & props' & -> & Hlo & Hl' & Hall).
  exists l', props'. repeat split; [lia | done |].
  eapply Forall2_impl; [exact Hall|]. intros a b [? ?]. split; [done | by apply IH].
Qed.

Lemma is_copy_keeps d lo (hb h1 h2 : heap) v v' :
  wf_tree d hb v = true -> hb `prefix_of` h1 -> hb `prefix_of` h2 ->
  keeps_from lo h1 h2 ->
  is_copy d lo h1 v v' -> is_copy d lo h2 v v'.
Proof.
  intros Hwf Hp1 Hp2 Hk. revert v v' Hwf.
  induction d as [|d IH]; intros v v' Hwf;
    pose proof (wf_in_heap _ _ _ Hwf) as Hin;
    destruct v as [| | | | |l]; try done; unfold loc in *; cbn in Hin;
    rewrite !is_copy_ref;
    rewrite (lookup_prefix hb h1), (lookup_prefix hb h2) by done;
    destruct (hb !! l) as [[props| | |]|] eqn:El; try done.
  destruct (wf_plain_inv _ _ _ _ Hwf El) as (d' & [= <-] & _ & Hall).
  intros (l' & props' & -> & Hlo & Hl' & H2).
  exists l', props'. repeat split; [done | by apply Hk |].
  eapply Forall2_impl_Forall; [exact Hall | exact H2 |].
  cbn. intros a b Ha [? ?]. split; [done | by apply IH].
Qed.

(** *** deepCopy *)

Lemma map_entries_spec f (Q : value -> Prop) (R : heap -> value -> value -> Prop)
    (hb : heap) :
  (forall h v, hb `prefix_of` h -> Q v ->
     exists h' v', f h v = Some (h', v') /\ h `prefix_of` h' /\ R h' v v') ->
  (forall h h' v v', hb `prefix_of` h -> h `prefix_of` h' -> Q v ->
     R h v v' -> R h' v v') ->
  forall es h, hb `prefix_of` h -> Forall (fun kv => Q kv.2) es ->
    exists h' es', map_entries f h es = Some (h', es') /\ h `prefix_of` h' /\
                   Forall2 (fun a b => a.1 = b.1 /\ R h' a.2 b.2) es es'.
Proof.
  intros Hf Hmono es. induction es as [|[k v] es IH]; intros h Hp Hall.
  - exists h, []. cbn. repeat split; [done | constructor].
  - inversion Hall as [|? ? Hv Hrest]; subst. cbn in Hv.
    destruct (Hf h v Hp Hv) as (h1 & v1 & E1 & Hp1 & HR1).
    assert (hb `prefix_of` h1) as Hb1 by (by etrans).
    destruct (IH h1 Hb1 Hrest) as (h2 & es2 & E2 & Hp2 & HR2).
    exists h2, ((k, v1) :: es2). cbn. rewrite E1. cbn. rewrite E2. cbn.
    repeat split; [by etrans|].
    constructor; [|done]. cbn. split; [done|]. by eapply Hmono.
Qed.

Lemma deepCopy_leaf fuel h v :
  isObject h v = false -> deepCopy (S fuel) h v = Some (h, v).
Proof. intros H. cbn. by rewrite H. Qed.

Lemma deepCopy_spec d :
  forall fuel h v, wf_tree d h v = true -> (d < fuel)%nat ->
    exists h' v', deepCopy fuel h v = Some (h', v') /\ h `prefix_of` h' /\
                  is_copy d (length h) h' v v'.
Proof.
  induction d as [|d IH]; intros fuel h v Hwf Hfuel;
    (destruct fuel as [|fuel]; [lia|]);
    destruct (isObject h v) eqn:Hobj;
    try (exists h, v; rewrite deepCopy_leaf by done;
         repeat split; [done | by apply is_copy_leaf]).
  - destruct (wf_isObject_plain _ _ _ Hwf Hobj) as (l & props & -> & Hl).
    by destruct (wf_plain_inv _ _ _ _ Hwf Hl) as (d' & [=] & _).
  - destruct (wf_isObject_plain _ _ _ Hwf Hobj) as (l & props & -> & Hl).
    destruct (wf_plain_inv _ _ _ _ Hwf Hl) as (d' & [= <-] & Hnd & Hall).
    cbn [deepCopy]. rewrite Hobj, own_props_ref, Hl.
    destruct (map_entries_spec (deepCopy fuel)
                (fun v => wf_tree d h v = true)
                (fun h' v v' => is_copy d (length h) h' v v') h) with
      (es := props) (h := h) as (h1 & copied & E & Hp1 & HR); try done.
    + intros h0 v Hp0 Hv.
      destruct (IH fuel h0 v) as (h' & v' & E' & Hp' & Hc');
        [by eapply wf_prefix | lia |].
      exists h', v'. repeat split; try done.
      eapply is_copy_weaken; [|exact Hc']. by apply prefix_length.
    + intros h0 h' v v' Hp0 Hp' Hv Hc.
      apply (is_copy_keeps d (length h) h h0); try done; [by etrans|].
      by apply prefix_keeps_from.
    + rewrite E. cbn [mbind option_bind alloc].
      assert (h1 `prefix_of` h1 ++ [CObj copied]) as Hp2 by (by eexists).
      assert (h `prefix_of` h1 ++ [CObj copied]) as Hp3 by (by etrans).
      eexists _, _. split; [done|]. split; [done|].
      rewrite is_copy_ref.
      rewrite (lookup_prefix h (h1 ++ [CObj copied]))
        by (done || by eapply lookup_lt_Some).
      rewrite Hl.
      exists (length h1), copied. repeat split.
      * by apply prefix_length.
      * by rewrite lookup_app_r, Nat.sub_diag.
      * eapply Forall2_impl_Forall; [exact Hall | exact HR |].
        cbn. intros a b Ha [? Hc]. split; [done|].
        apply (is_copy_keeps d (length h) h h1); try done.
        by apply prefix_keeps_from.
Qed.

(** *** Property lists *)

Lemma lookup_prop_None key props :
  lookup_prop key props = None <-> key ∉ props.*1.
Proof.
  induction props as [|[k v] ps IH]; cbn.
  - split; [intros _; apply not_elem_of_nil | done].
  - rewrite not_elem_of_cons. case_decide; subst.
    + split; [done | intros [? _]; done].
    + rewrite IH. split; [intros ?; split; congruence | intros [_ ?]; done].
Qed.

Lemma lookup_prop_Some_elem key v props :
  lookup_prop key props = Some v -> (key, v) ∈ props.
Proof.
  induction props as [|[k w] ps IH]; cbn; [done|].
  case_decide; subst.
  - intros [= ->]. apply list_elem_of_here.
  - intros H'. apply list_elem_of_further. by apply IH.
Qed.

Lemma lookup_prop_elem key v props :
  NoDup props.*1 -> (key, v) ∈ props -> lookup_prop key props = Some v.
Proof.
  induction props as [|[k w] ps IH]; cbn; intros Hnd Hin.
  - by apply elem_of_nil in Hin.
  - apply NoDup_cons in Hnd as [Hk Hnd].
    apply elem_of_cons in Hin as [[= -> ->]|Hin].
    + by rewrite decide_True.
    + rewrite decide_False; [by apply IH|].
      intros ->. apply Hk. apply list_elem_of_fmap. by exists (key, v).
Qed.

Lemma lookup_prop_app_notin key done rest :
  key ∉ done.*1 -> lookup_prop key (done ++ rest) = lookup_prop key rest.
Proof.
  induction done as [|[k v] ps IH]; cbn; [done|].
  rewrite not_elem_of_cons. intros [Hne Hnot].
  rewrite decide_False by congruence. by apply IH.
Qed.

Lemma set_prop_app_notin key v done rest :
  key ∉ done.*1 -> set_prop key v (done ++ rest) = done ++ set_prop key v rest.
Proof.
  induction done as [|[k w] ps IH]; cbn; [done|].
  rewrite not_elem_of_cons. intros [Hne Hnot].
  rewrite decide_False by congruence. by rewrite IH.
Qed.

Lemma set_prop_absent key v props :
  key ∉ props.*1 -> set_prop key v props = props ++ [(key, v)].
Proof.
  intros H'. rewrite <- (app_nil_r props) at 1.
  by rewrite set_prop_app_notin.
Qed.

Lemma lookup_prop_set_prop key key' v props :
  lookup_prop key' (set_prop key v props)
  = if decide (key = key') then Some v else lookup_prop key' props.
Proof.
  induction props as [|[k w] ps IH]; cbn.
  - by repeat case_decide.
  - destruct (decide (k = key)) as [->|Hne]; cbn.
    + by repeat case_decide; subst.
    + rewrite IH. by repeat case_decide; subst.
Qed.

Lemma set_prop_keys key v props :
  (set_prop key v props).*1
  = if decide (key ∈ props.*1) then props.*1 else props.*1 ++ [key].
Proof.
  induction props as [|[k w] ps IH]; cbn.
  - rewrite decide_False; [done | apply not_elem_of_nil].
  - destruct (decide (k = key)) as [->|Hne]; cbn.
    + rewrite decide_True; [done | apply list_elem_of_here].
    + rewrite IH. destruct (decide (key ∈ ps.*1)) as [Hin|Hnot].
      * rewrite decide_True; [done | by apply list_elem_of_further].
      * rewrite decide_False; [done|].
        rewrite not_elem_of_cons. split; [congruence | done].
Qed.

Lemma set_prop_NoDup key v props :
  NoDup props.*1 -> NoDup (set_prop key v props).*1.
Proof.
  intros Hnd. rewrite set_prop_keys. case_decide; [done|].
  apply NoDup_app. repeat split; [done | | apply NoDup_singleton].
  intros x Hx Hx'. apply list_elem_of_singleton in Hx'. by subst.
Qed.

Lemma spread2_NoDup tprops sprops :
  NoDup tprops.*1 -> NoDup (spread2 tprops sprops).*1.
Proof.
  unfold spread2. revert tprops.
  induction sprops as [|[k v] ss IH]; intros tprops Hnd; cbn; [done|].
  apply IH. by apply set_prop_NoDup.
Qed.

Lemma lookup_prop_spread2 key tprops sprops :
  NoDup sprops.*1 ->
  lookup_prop key (spread2 tprops sprops)
  = match lookup_prop key sprops with
    | Some v => Some v
    | None => lookup_prop key tprops
    end.
Proof.
  unfold spread2. revert tprops.
  induction sprops as [|[k v] ss IH]; intros tprops Hnd; cbn; [done|].
  apply NoDup_cons in Hnd as [Hk Hnd].
  rewrite IH by done. rewrite lookup_prop_set_prop.
  destruct (decide (k = key)) as [->|Hne]; [|done].
  apply lookup_prop_None in Hk. cbn in Hk. by rewrite Hk.
Qed.

Lemma spread2_nil tprops : spread2 tprops [] = tprops.
Proof. done. Qed.

(** *** The loop of deepMergeConfig *)

Section AssignEach.

Variable body : heap -> string -> option (heap * value).
Variable hb : heap.
Variable Post : heap -> string -> value -> value -> Prop.
Variable all : list (string * value).

Let r := length hb.

Hypothesis body_spec :
  forall h key v, hb `prefix_of` h -> (r < length h)%nat -> (key, v) ∈ all ->
    get h (VRef r) key = v ->
    exists h1 w, body h key = Some (h1, w) /\ h `prefix_of` h1 /\ Post h1 key v w.

Hypothesis Post_keeps :
  forall h h' key v w, hb `prefix_of` h -> hb `prefix_of` h' ->
    keeps_from (S r) h h' -> (key, v) ∈ all ->
    Post h key v w -> Post h' key v w.

Lemma assign_each_spec rest :
  forall done h,
    hb `prefix_of` h -> h !! r = Some (CObj (done ++ rest)) ->
    NoDup (done ++ rest).*1 -> rest ⊆ all ->
    exists h' rest',
      assign_each body r rest.*1 h = Some h' /\ hb `prefix_of` h' /\
      keeps_from (S r) h h' /\ h' !! r = Some (CObj (done ++ rest')) /\
      Forall2 (fun a b => a.1 = b.1 /\ Post h' a.1 a.2 b.2) rest rest'.
Proof.
  induction rest as [|[k v] rest IH]; intros done h Hp Hr Hnd Hsub.
  - exists h, []. cbn.
    split; [done|]. split; [done|]. split; [by intros l c _ Hc|].
    split; [done | constructor].
  - cbn [fmap list_fmap assign_each fst].
    assert (k ∉ done.*1) as Hk.
    { rewrite fmap_app in Hnd. apply NoDup_app in Hnd as (_ & Hdis & _).
      intros Hin. apply (Hdis k Hin). cbn. apply list_elem_of_here. }
    assert (r < length h)%nat as Hlen by (by eapply lookup_lt_Some).
    destruct (body_spec h k v Hp Hlen) as (h1 & w & E & Hp1 & HP).
    { apply Hsub, list_elem_of_here. }
    { rewrite (get_ref _ _ _ _ Hr), lookup_prop_app_notin by done.
      cbn. by rewrite decide_True. }
    rewrite E. cbn.
    assert (h1 !! r = Some (CObj (done ++ (k, v) :: rest))) as Hr1
        by (by eapply prefix_lookup_Some).
    assert (hb `prefix_of` h1) as Hb1 by (by etrans).
    set (h2 := store_prop h1 r k w).
    assert (hb `prefix_of` h2) as Hb2 by (by apply store_prop_prefix).
    assert (h2 !! r = Some (CObj ((done ++ [(k, w)]) ++ rest))) as Hr2.
    { unfold h2. rewrite (store_prop_lookup _ _ _ _ _ Hr1).
      rewrite set_prop_app_notin by done. cbn. rewrite decide_True by done.
      by rewrite <- app_assoc. }
    destruct (IH (done ++ [(k, w)]) h2 Hb2 Hr2) as (h' & rest' & E' & Hb' & Hk' & Hr' & HF).
    { rewrite <- app_assoc. cbn. rewrite !fmap_app in *. done. }
    { intros x Hx. apply Hsub. by apply list_elem_of_further. }
    exists h', ((k, w) :: rest').
    split; [done|]. split; [done|]. split; [|split].
    + eapply keeps_from_trans; [by apply prefix_keeps_from|].
      eapply keeps_from_trans; [apply store_prop_keeps | exact Hk'].
    + by rewrite <- app_assoc in Hr'.
    + constructor; [|done]. cbn. split; [done|].
      eapply Post_keeps; [exact Hb1 | done | | apply Hsub, list_elem_of_here | exact HP].
      eapply keeps_from_trans; [apply store_prop_keeps | exact Hk'].
Qed.

End AssignEach.


(** *** deepMergeConfig with nothing to merge *)

Lemma get_undefined_of_no_props h v key :
  own_props h v = [] -> get h v key = VUndefined.
Proof. intros H. unfold get. by rewrite H. Qed.

Lemma deepMergeConfig_empty_spec d fuel h T (e : nat) :
  is_plain h T = true -> wf_tree d h T = true ->
  h !! e = Some (CObj []) -> (d < fuel)%nat ->
  exists h' R,
    deepMergeConfig fuel h T (VRef e) = Some (h', R) /\
    h `prefix_of` h' /\ is_copy d (length h) h' T R.
Proof.
  intros Hplain Hwf He Hfuel.
  destruct (is_plain_inv _ _ Hplain) as (t & tprops & -> & Ht).
  destruct (wf_plain_inv _ _ _ _ Hwf Ht) as (d' & -> & Hnd & Hall).
  destruct fuel as [|fuel]; [lia|].
  cbn [deepMergeConfig].
  rewrite (own_props_ref h t), Ht, (own_props_ref h e), He, spread2_nil.
  match goal with |- context [assign_each ?b _ _ _] => set (body := b) end.
  destruct (assign_each_spec body h
              (fun h1 key v w => is_copy d' (S (length h)) h1 v w) tprops)
    with (rest := tprops) (done := @nil (string * value)) (h := h ++ [CObj tprops])
    as (h' & rest' & E & Hp' & Hk' & Hr' & HF).
  - intros h0 key v Hp0 Hlen Hin Hget. unfold body.
    rewrite (get_prefix h h0 (VRef e)) by (done || by eapply lookup_lt_Some).
    rewrite (get_undefined_of_no_props h (VRef e))
      by (by rewrite own_props_ref, He).
    rewrite andb_false_r, Hget.
    assert (wf_tree d' h v = true) as Hv.
    { rewrite Forall_forall in Hall. by apply (Hall (key, v)). }
    destruct (deepCopy_spec d' fuel h0 v) as (h1 & w & E1 & Hp1 & Hc1);
      [by eapply wf_prefix | lia |].
    exists h1, w. split; [done|]. split; [done|].
    eapply is_copy_weaken; [|exact Hc1]. lia.
  - intros h1 h2 key v w Hp1 Hp2 Hk Hin Hc.
    apply (is_copy_keeps d' _ h h1); try done.
    rewrite Forall_forall in Hall. by apply (Hall (key, v)).
  - by eexists.
  - by rewrite lookup_app_r, Nat.sub_diag.
  - done.
  - done.
  - change (map fst tprops) with (tprops.*1). rewrite E. cbn [mbind option_bind].
    exists h', (VRef (length h)). split; [done|]. split; [done|].
    rewrite is_copy_ref.
    rewrite (lookup_prefix h h') by (done || by eapply lookup_lt_Some).
    rewrite Ht. exists (length h), rest'.
    split; [done|]. split; [done|]. split; [done|].
    eapply Forall2_impl; [exact HF|]. cbn. intros a b [? Hc]. split; [done|].
    eapply is_copy_weaken; [|exact Hc]. lia.
Qed.


(** *** deepMergeConfig *)

Lemma is_merge_weaken d lo lo' h t s r :
  (lo' <= lo)%nat -> is_merge d lo h t s r -> is_merge d lo' h t s r.
Proof.
  intros Hle. revert t s r. induction d as [|d IH]; intros t s r; [done|].
  intros (lr & rp & -> & Hlo & Hlr & Hkeys & Hall).
  exists lr, rp. split; [done|]. split; [lia|]. split; [done|]. split; [done|].
  eapply Forall_impl; [exact Hall|]. cbn. intros [k v]. cbn.
  destruct (_ && _); [apply IH | by apply is_copy_weaken].
Qed.

Lemma wf_get_plain d h v key :
  is_plain h v = true -> wf_tree (S d) h v = true ->
  wf_tree d h (get h v key) = true.
Proof.
  intros Hp Hwf. destruct (is_plain_inv _ _ Hp) as (l & props & -> & Hl).
  by eapply wf_get.
Qed.

Lemma wf_plain_depth d h v :
  is_plain h v = true -> wf_tree d h v = true -> exists d', d = S d'.
Proof.
  intros Hp Hwf. destruct (is_plain_inv _ _ Hp) as (l & props & -> & Hl).
  destruct (wf_plain_inv _ _ _ _ Hwf Hl) as (d' & -> & _). by exists d'.
Qed.

Lemma wf_default_lookup d h v props key :
  wf_tree d h v = true -> Forall (fun kv => wf_tree d h kv.2 = true) props ->
  wf_tree d h (default v (lookup_prop key props)) = true.
Proof.
  intros Hv Hall. destruct (lookup_prop key props) as [w|] eqn:E; [|done].
  cbn. by eapply wf_lookup_prop.
Qed.

Lemma wf_own_props d h v :
  is_plain h v = true -> wf_tree (S d) h v = true ->
  NoDup (own_props h v).*1 /\
  Forall (fun kv => wf_tree d h kv.2 = true) (own_props h v).
Proof.
  intros Hp Hwf. destruct (is_plain_inv _ _ Hp) as (l & props & -> & Hl).
  destruct (wf_plain_inv _ _ _ _ Hwf Hl) as (d' & [= <-] & Hnd & Hall).
  by rewrite own_props_ref, Hl.
Qed.

Lemma is_merge_keeps d lo (hb h1 h2 : heap) t s r :
  wf_tree d hb t = true -> wf_tree d hb s = true ->
  is_plain hb t = true -> is_plain hb s = true ->
  hb `prefix_of` h1 -> hb `prefix_of` h2 -> keeps_from lo h1 h2 ->
  is_merge d lo h1 t s r -> is_merge d lo h2 t s r.
Proof.
  intros Hwt Hws Hpt Hps Hp1 Hp2 Hk. revert t s r Hwt Hws Hpt Hps.
  induction d as [|d IH]; intros t s r Hwt Hws Hpt Hps; [done|].
  intros (lr & rp & -> & Hlo & Hlr & Hkeys & Hall).
  pose proof (wf_in_heap _ _ _ Hwt) as Hit.
  pose proof (wf_in_heap _ _ _ Hws) as His.
  destruct (wf_own_props _ _ _ Hps Hws) as [_ Hsall].
  rewrite (own_props_prefix hb h1) in Hkeys by done.
  rewrite (own_props_prefix hb h1) in Hkeys by done.
  exists lr, rp. split; [done|]. split; [done|]. split; [by apply Hk|].
  split; [by rewrite !(own_props_prefix hb h2)|].
  eapply Forall_impl; [exact Hall|]. cbn. intros [k v]. cbn.
  rewrite !(get_prefix hb h1), !(get_prefix hb h2) by done.
  rewrite (own_props_prefix hb h1), (own_props_prefix hb h2) by done.
  assert (wf_tree d hb (get hb t k) = true) as Hwtk by (by apply wf_get_plain).
  assert (wf_tree d hb (get hb s k) = true) as Hwsk by (by apply wf_get_plain).
  rewrite !(isObject_prefix hb h1), !(isObject_prefix hb h2)
    by (done || by eapply wf_in_heap).
  destruct (isObject hb (get hb t k)) eqn:Eo1, (isObject hb (get hb s k)) eqn:Eo2; cbn;
    try (apply (is_copy_keeps d lo hb h1 h2); try done;
         by apply wf_default_lookup).
  apply IH; try done; by eapply wf_isObject_is_plain.
Qed.

Lemma set_prop_Forall (P : value -> Prop) key v props :
  P v -> Forall (fun kv => P kv.2) props -> Forall (fun kv => P kv.2) (set_prop key v props).
Proof.
  intros Hv. induction 1 as [|[k w] ps Hw Hps IH]; cbn.
  - by constructor.
  - case_decide; constructor; done.
Qed.

Lemma spread2_Forall (P : value -> Prop) tprops sprops :
  Forall (fun kv => P kv.2) tprops -> Forall (fun kv => P kv.2) sprops ->
  Forall (fun kv => P kv.2) (spread2 tprops sprops).
Proof.
  unfold spread2. intros Ht Hs. revert tprops Ht.
  induction Hs as [|[k v] ss Hv _ IH]; intros tprops Ht; cbn; [done|].
  apply IH. by apply set_prop_Forall.
Qed.

Lemma lookup_prop_is_Some key props :
  key ∈ props.*1 -> exists v, lookup_prop key props = Some v.
Proof.
  intros Hin. destruct (lookup_prop key props) as [v|] eqn:E; [by exists v|].
  by apply lookup_prop_None in E.
Qed.

Lemma spread2_value tprops sprops key v :
  NoDup tprops.*1 -> NoDup sprops.*1 ->
  (key, v) ∈ spread2 tprops sprops ->
  v = default (default VUndefined (lookup_prop key tprops)) (lookup_prop key sprops).
Proof.
  intros Hnt Hns Hin.
  apply lookup_prop_elem in Hin; [|by apply spread2_NoDup].
  rewrite lookup_prop_spread2 in Hin by done.
  destruct (lookup_prop key sprops) as [x|]; cbn; [congruence|].
  by rewrite Hin.
Qed.

Lemma deepMergeConfig_spec d :
  forall fuel h t s,
    wf_tree d h t = true -> wf_tree d h s = true ->
    is_plain h t = true -> is_plain h s = true -> (d < fuel)%nat ->
    exists h' r,
      deepMergeConfig fuel h t s = Some (h', r) /\ h `prefix_of` h' /\
      is_merge d (length h) h' t s r.
Proof.
  induction d as [|d IH]; intros fuel h t s Hwt Hws Hpt Hps Hfuel.
  { by destruct (wf_plain_depth _ _ _ Hpt Hwt). }
  destruct fuel as [|fuel]; [lia|].
  destruct (wf_own_props _ _ _ Hpt Hwt) as [Hnt Hallt].
  destruct (wf_own_props _ _ _ Hps Hws) as [Hns Halls].
  pose proof (wf_in_heap _ _ _ Hwt) as Hit.
  pose proof (wf_in_heap _ _ _ Hws) as His.
  cbn [deepMergeConfig].
  set (props := spread2 (own_props h t) (own_props h s)).
  assert (NoDup props.*1) as Hnp by (by apply spread2_NoDup).
  assert (Forall (fun kv => wf_tree d h kv.2 = true) props) as Hallp
      by (by apply (spread2_Forall (fun v => wf_tree d h v = true))).
  match goal with |- context [assign_each ?b _ _ _] => set (body := b) end.
  set (Post := fun (h1 : heap) (key : string) (v w : value) =>
                 if isObject h (get h t key) && isObject h (get h s key)
                 then is_merge d (S (length h)) h1 (get h t key) (get h s key) w
                 else is_copy d (S (length h)) h1 v w).
  assert (forall key, wf_tree d h (get h t key) = true) as Hwtk
      by (intros; by apply wf_get_plain).
  assert (forall key, wf_tree d h (get h s key) = true) as Hwsk
      by (intros; by apply wf_get_plain).
  destruct (assign_each_spec body h Post props)
    with (rest := props) (done := @nil (string * value)) (h := h ++ [CObj props])
    as (h' & rest' & E & Hp' & Hk' & Hr' & HF).
  - intros h0 key v Hp0 Hlen Hin Hget. unfold body, Post.
    rewrite !(get_prefix h h0) by done.
    rewrite !(isObject_prefix h h0) by (done || by eapply wf_in_heap).
    destruct (isObject h (get h t key) && isObject h (get h s key)) eqn:Eo.
    + apply andb_true_iff in Eo as [Eo1 Eo2].
      destruct (IH fuel h0 (get h t key) (get h s key))
        as (h1 & w & E1 & Hp1 & Hm1);
        try (by eapply wf_prefix); try lia.
      * rewrite (is_plain_prefix h h0) by (done || by eapply wf_in_heap).
        by eapply wf_isObject_is_plain.
      * rewrite (is_plain_prefix h h0) by (done || by eapply wf_in_heap).
        by eapply wf_isObject_is_plain.
      * exists h1, w. split; [done|]. split; [done|].
        eapply is_merge_weaken; [|exact Hm1]. lia.
    + rewrite Hget.
      assert (wf_tree d h v = true) as Hv.
      { rewrite Forall_forall in Hallp. by apply (Hallp (key, v)). }
      destruct (deepCopy_spec d fuel h0 v) as (h1 & w & E1 & Hp1 & Hc1);
        [by eapply wf_prefix | lia |].
      exists h1, w. split; [done|]. split; [done|].
      eapply is_copy_weaken; [|exact Hc1]. lia.
  - intros h1 h2 key v w Hp1 Hp2 Hk Hin. unfold Post.
    destruct (isObject h (get h t key) && isObject h (get h s key)) eqn:Eo.
    + apply andb_true_iff in Eo as [Eo1 Eo2].
      apply (is_merge_keeps d _ h h1 h2); try done;
        by eapply wf_isObject_is_plain.
    + apply (is_copy_keeps d _ h h1 h2); try done.
      rewrite Forall_forall in Hallp. by apply (Hallp (key, v)).
  - by eexists.
  - by rewrite lookup_app_r, Nat.sub_diag.
  - done.
  - done.
  - change (map fst props) with (props.*1). rewrite E. cbn [mbind option_bind].
    exists h', (VRef (length h)). split; [done|]. split; [done|].
    cbn [is_merge]. exists (length h), rest'.
    split; [done|]. split; [done|]. split; [done|].
    rewrite !(own_props_prefix h h') by done. fold props.
    assert (rest'.*1 = props.*1) as Hkeys.
    { clear -HF. induction HF as [|a b l k [Hab _] _ IHF]; [done|].
      cbn. by rewrite Hab, IHF. }
    split; [done|].
    eapply Forall2_Forall_r; [exact HF|].
    apply Forall_forall. intros [k v] Hin [k' w] [Hk Hpost]. cbn in Hk, Hpost |- *.
    subst k'. unfold Post in Hpost.
    rewrite !(get_prefix h h') by done.
    rewrite !(isObject_prefix h h') by (done || by eapply wf_in_heap).
    destruct (isObject h (get h t k) && isObject h (get h s k)).
    + eapply is_merge_weaken; [|exact Hpost]. lia.
    + replace (default (get h t k) (lookup_prop k (own_props h s))) with v
        by exact (spread2_value _ _ _ _ Hnt Hns Hin).
      eapply is_copy_weaken; [|exact Hpost]. lia.
Qed.

(** *** deepDiffConfig *)

Lemma is_diff_inv d lo h a b p :
  is_diff d lo h a b p ->
  exists d' (lp : nat) pp,
    d = S d' /\ p = VRef lp /\ (lo <= lp)%nat /\ h !! lp = Some (CObj pp) /\
    diff_list (is_diff d' lo h) h a (own_props h b) pp.
Proof.
  destruct d as [|d']; [done|]. intros (lp & pp & -> & Hlo & Hlp & Hdl).
  by exists d', lp, pp.
Qed.

Lemma is_diff_own_props_keeps d lo (h h' : heap) a b p :
  keeps_from lo h h' -> is_diff d lo h a b p -> own_props h' p = own_props h p.
Proof.
  intros Hk Hd. destruct (is_diff_inv _ _ _ _ _ _ Hd) as (d' & lp & pp & -> & -> & Hlo & Hlp & _).
  rewrite !own_props_ref, Hlp. by rewrite (Hk _ _ Hlo Hlp).
Qed.

Lemma diff_list_transport (sub sub' : value -> value -> value -> Prop)
    (h h' : heap) a bprops pp :
  (forall key, get h' a key = get h a key) ->
  (forall key bv, (key, bv) ∈ bprops ->
     isObject h' (get h a key) = isObject h (get h a key) /\
     isObject h' bv = isObject h bv) ->
  (forall key bv pv, (key, bv) ∈ bprops ->
     isObject h (get h a key) = true -> isObject h bv = true ->
     sub (get h a key) bv pv ->
     sub' (get h a key) bv pv /\ own_props h' pv = own_props h pv) ->
  diff_list sub h a bprops pp -> diff_list sub' h' a bprops pp.
Proof.
  intros Hget Hobj Hsub Hdl.
  induction Hdl as [|key bv rest pp pv Ho1 Ho2 Hs Hne Hrest IH
                    |key bv rest pp pv Ho1 Ho2 Hs He Hrest IH
                    |key bv rest pp Ho Hse Hrest IH
                    |key bv rest pp Ho Hse Hrest IH].
  - constructor.
  - destruct (Hobj key bv) as [E1 E2]; [apply list_elem_of_here|].
    destruct (Hsub key bv pv) as [Hs' Hp]; [apply list_elem_of_here | done..|].
    apply diff_nested; rewrite ?Hget; try congruence.
    apply IH; intros; [apply Hobj | eapply Hsub]; try done;
      by apply list_elem_of_further.
  - destruct (Hobj key bv) as [E1 E2]; [apply list_elem_of_here|].
    destruct (Hsub key bv pv) as [Hs' Hp]; [apply list_elem_of_here | done..|].
    apply (diff_nested_empty _ _ _ _ _ _ _ pv); rewrite ?Hget; try congruence.
    apply IH; intros; [apply Hobj | eapply Hsub]; try done;
      by apply list_elem_of_further.
  - destruct (Hobj key bv) as [E1 E2]; [apply list_elem_of_here|].
    apply diff_changed; rewrite ?Hget; try congruence.
    apply IH; intros; [apply Hobj | eapply Hsub]; try done;
      by apply list_elem_of_further.
  - destruct (Hobj key bv) as [E1 E2]; [apply list_elem_of_here|].
    apply diff_same; rewrite ?Hget; try congruence.
    apply IH; intros; [apply Hobj | eapply Hsub]; try done;
      by apply list_elem_of_further.
Qed.

Lemma is_diff_weaken d lo lo' h a b p :
  (lo' <= lo)%nat -> is_diff d lo h a b p -> is_diff d lo' h a b p.
Proof.
  intros Hle. revert a b p. induction d as [|d IH]; intros a b p; [done|].
  intros (lp & pp & -> & Hlo & Hlp & Hdl).
  exists lp, pp. split; [done|]. split; [lia|]. split; [done|].
  eapply diff_list_transport; [done | done | | exact Hdl].
  intros key bv pv _ _ _ Hs. split; [by apply IH | done].
Qed.

Lemma is_diff_keeps d lo (hb h1 h2 : heap) a b p :
  wf_tree d hb a = true -> wf_tree d hb b = true ->
  is_plain hb a = true -> is_plain hb b = true ->
  hb `prefix_of` h1 -> hb `prefix_of` h2 -> keeps_from lo h1 h2 ->
  is_diff d lo h1 a b p -> is_diff d lo h2 a b p.
Proof.
  intros Hwa Hwb Hpa Hpb Hp1 Hp2 Hk. revert a b p Hwa Hwb Hpa Hpb.
  induction d as [|d IH]; intros a b p Hwa Hwb Hpa Hpb; [done|].
  intros (lp & pp & -> & Hlo & Hlp & Hdl).
  pose proof (wf_in_heap _ _ _ Hwa) as Hia.
  pose proof (wf_in_heap _ _ _ Hwb) as Hib.
  destruct (wf_own_props _ _ _ Hpb Hwb) as [_ Hballs].
  exists lp, pp. split; [done|]. split; [done|]. split; [by apply Hk|].
  rewrite (own_props_prefix hb h2) by done.
  rewrite (own_props_prefix hb h1) in Hdl by done.
  assert (forall key, wf_tree d hb (get hb a key) = true) as Hwak
      by (intros; by apply wf_get_plain).
  eapply diff_list_transport; [ | | | exact Hdl].
  - intros key. by rewrite (get_prefix hb h1), (get_prefix hb h2).
  - intros key bv Hin. rewrite (get_prefix hb h1) by done.
    assert (wf_tree d hb bv = true) as Hbv.
    { rewrite Forall_forall in Hballs. by apply (Hballs (key, bv)). }
    rewrite !(isObject_prefix hb h1), !(isObject_prefix hb h2)
      by (done || by eapply wf_in_heap). done.
  - intros key bv pv Hin. rewrite (get_prefix hb h1) by done. intros Ho1 Ho2 Hs.
    assert (wf_tree d hb bv = true) as Hbv.
    { rewrite Forall_forall in Hballs. by apply (Hballs (key, bv)). }
    rewrite (isObject_prefix hb h1) in Ho1, Ho2 by (done || by eapply wf_in_heap).
    split; [|by eapply is_diff_own_props_keeps].
    apply IH; try done; by eapply wf_isObject_is_plain.
Qed.

Section DiffEach.

Variable sub : heap -> value -> value -> option (heap * value).
Variable d : nat.
Variable hb : heap.
Variables a b : value.

Let dl := length hb.

Hypothesis wf_a : wf_tree (S d) hb a = true.
Hypothesis wf_b : wf_tree (S d) hb b = true.
Hypothesis plain_a : is_plain hb a = true.
Hypothesis plain_b : is_plain hb b = true.

Hypothesis sub_spec :
  forall h0 av bv, hb `prefix_of` h0 -> (dl < length h0)%nat ->
    wf_tree d hb av = true -> wf_tree d hb bv = true ->
    is_plain hb av = true -> is_plain hb bv = true ->
    exists h1 pv, sub h0 av bv = Some (h1, pv) /\ h0 `prefix_of` h1 /\
                  is_diff d (S dl) h1 av bv pv.

Lemma diff_each_spec rest :
  forall done h,
    hb `prefix_of` h -> h !! dl = Some (CObj done) ->
    rest ⊆ own_props hb b -> NoDup rest.*1 ->
    (forall k, k ∈ done.*1 -> k ∉ rest.*1) ->
    exists h' pp,
      diff_each sub a b dl rest.*1 h = Some h' /\ hb `prefix_of` h' /\
      keeps_from (S dl) h h' /\ h' !! dl = Some (CObj (done ++ pp)) /\
      diff_list (is_diff d (S dl) h') h' a rest pp.
Proof.
  pose proof (wf_in_heap _ _ _ wf_a) as Hia.
  pose proof (wf_in_heap _ _ _ wf_b) as Hib.
  destruct (wf_own_props _ _ _ plain_b wf_b) as [Hnb Hballs].
  induction rest as [|[key bv] rest IH]; intros done h Hp Hdl Hsub Hnd Hdis.
  { exists h, []. cbn. split; [done|]. split; [done|].
    split; [by intros l c _ Hc|]. split; [by rewrite app_nil_r | constructor]. }
  cbn [fmap list_fmap fst diff_each].
  apply NoDup_cons in Hnd as [Hkey Hnd].
  assert ((key, bv) ∈ own_props hb b) as Hin by (apply Hsub, list_elem_of_here).
  assert (rest ⊆ own_props hb b) as Hsub'.
  { intros x Hx. apply Hsub. by apply list_elem_of_further. }
  assert (wf_tree d hb bv = true) as Hwbv.
  { rewrite Forall_forall in Hballs. by apply (Hballs (key, bv)). }
  assert (wf_tree d hb (get hb a key) = true) as Hwav by (by apply wf_get_plain).
  assert (key ∉ done.*1) as Hnotdone.
  { intros Hk. apply (Hdis key Hk). apply list_elem_of_here. }
  assert (get hb b key = bv) as Hgetb.
  { unfold get. by rewrite (lookup_prop_elem key bv). }
  rewrite !(get_prefix hb h) by done. rewrite Hgetb.
  rewrite !(isObject_prefix hb h) by (done || by eapply wf_in_heap).
  assert (dl < length h)%nat as Hlen by (by eapply lookup_lt_Some).
  destruct (isObject hb (get hb a key) && isObject hb bv) eqn:Eo.
  - apply andb_true_iff in Eo as [Eo1 Eo2].
    destruct (sub_spec h (get hb a key) bv) as (h1 & pv & E1 & Hp1 & Hd1);
      try done; try (by eapply wf_isObject_is_plain).
    rewrite E1. cbn [mbind option_bind].
    assert (hb `prefix_of` h1) as Hb1 by (by etrans).
    assert (h1 !! dl = Some (CObj done)) as Hdl1 by (by eapply prefix_lookup_Some).
    destruct (bool_decide (own_props h1 pv = [])) eqn:Eempty.
    + apply bool_decide_eq_true in Eempty.
      destruct (IH done h1) as (h' & pp & E' & Hb' & Hk' & Hdl' & Hlist); try done.
      { intros k Hk Hk'. apply (Hdis k Hk). by apply list_elem_of_further. }
      exists h', pp. split; [done|]. split; [done|].
      split; [eapply keeps_from_trans; [by apply prefix_keeps_from | done]|].
      split; [done|].
      apply (diff_nested_empty _ _ _ _ _ _ _ pv); try done.
      * rewrite (get_prefix hb h'), (isObject_prefix hb h')
          by (done || by eapply wf_in_heap). done.
      * by rewrite (isObject_prefix hb h') by (done || by eapply wf_in_heap).
      * rewrite (get_prefix hb h') by done.
        apply (is_diff_keeps d _ hb h1 h'); try done;
          by eapply wf_isObject_is_plain.
      * by rewrite (is_diff_own_props_keeps _ _ _ _ _ _ _ Hk' Hd1).
    + apply bool_decide_eq_false in Eempty.
      set (h2 := store_prop h1 dl key pv).
      assert (hb `prefix_of` h2) as Hb2 by (by apply store_prop_prefix).
      assert (h2 !! dl = Some (CObj (done ++ [(key, pv)]))) as Hdl2.
      { unfold h2. rewrite (store_prop_lookup _ _ _ _ _ Hdl1).
        by rewrite set_prop_absent. }
      destruct (IH (done ++ [(key, pv)]) h2) as (h' & pp & E' & Hb' & Hk' & Hdl' & Hlist);
        try done.
      { intros k. rewrite fmap_app. cbn. rewrite elem_of_app, list_elem_of_singleton.
        intros [Hk | ->]; [|done].
        intros Hk'. apply (Hdis k Hk). by apply list_elem_of_further. }
      assert (keeps_from (S dl) h1 h') as Hk1.
      { eapply keeps_from_trans; [apply store_prop_keeps | exact Hk']. }
      exists h', ((key, pv) :: pp). split; [done|]. split; [done|].
      split; [eapply keeps_from_trans; [by apply prefix_keeps_from | done]|].
      split; [by rewrite <- app_assoc in Hdl'|].
      apply diff_nested; try done.
      * rewrite (get_prefix hb h'), (isObject_prefix hb h')
          by (done || by eapply wf_in_heap). done.
      * by rewrite (isObject_prefix hb h') by (done || by eapply wf_in_heap).
      * rewrite (get_prefix hb h') by done.
        apply (is_diff_keeps d _ hb h1 h'); try done;
          by eapply wf_isObject_is_plain.
      * by rewrite (is_diff_own_props_keeps _ _ _ _ _ _ _ Hk1 Hd1).
  - destruct (strict_eq (get hb a key) bv) eqn:Ese; cbn [negb].
    + destruct (IH done h) as (h' & pp & E' & Hb' & Hk' & Hdl' & Hlist); try done.
      { intros k Hk Hk'. apply (Hdis k Hk). by apply list_elem_of_further. }
      exists h', pp. split; [done|]. split; [done|]. split; [done|]. split; [done|].
      apply diff_same; try done;
        rewrite (get_prefix hb h') by done; [|done].
      by rewrite !(isObject_prefix hb h') by (done || by eapply wf_in_heap).
    + set (h2 := store_prop h dl key bv).
      assert (hb `prefix_of` h2) as Hb2 by (by apply store_prop_prefix).
      assert (h2 !! dl = Some (CObj (done ++ [(key, bv)]))) as Hdl2.
      { unfold h2. rewrite (store_prop_lookup _ _ _ _ _ Hdl).
        by rewrite set_prop_absent. }
      destruct (IH (done ++ [(key, bv)]) h2) as (h' & pp & E' & Hb' & Hk' & Hdl' & Hlist);
        try done.
      { intros k. rewrite fmap_app. cbn. rewrite elem_of_app, list_elem_of_singleton.
        intros [Hk | ->]; [|done].
        intros Hk'. apply (Hdis k Hk). by apply list_elem_of_further. }
      exists h', ((key, bv) :: pp). split; [done|]. split; [done|].
      split; [eapply keeps_from_trans; [apply store_prop_keeps | done]|].
      split; [by rewrite <- app_assoc in Hdl'|].
      apply diff_changed; try done;
        rewrite (get_prefix hb h') by done; [|done].
      by rewrite !(isObject_prefix hb h') by (done || by eapply wf_in_heap).
Qed.

End DiffEach.

Lemma deepDiffConfig_spec d :
  forall fuel h a b,
    wf_tree d h a = true -> wf_tree d h b = true ->
    is_plain h a = true -> is_plain h b = true -> (d < fuel)%nat ->
    exists h' p,
      deepDiffConfig fuel h a b = Some (h', p) /\ h `prefix_of` h' /\
      is_diff d (length h) h' a b p.
Proof.
  induction d as [|d IH]; intros fuel h a b Hwa Hwb Hpa Hpb Hfuel.
  { by destruct (wf_plain_depth _ _ _ Hpa Hwa). }
  destruct fuel as [|fuel]; [lia|].
  destruct (wf_own_props _ _ _ Hpb Hwb) as [Hnb Hballs].
  pose proof (wf_in_heap _ _ _ Hwb) as Hib.
  cbn [deepDiffConfig].
  destruct (diff_each_spec (deepDiffConfig fuel) d h a b Hwa Hwb Hpa Hpb)
    with (rest := own_props h b) (done := @nil (string * value)) (h := h ++ [CObj []])
    as (h' & pp & E & Hp' & Hk' & Hdl' & Hlist).
  - intros h0 av bv Hp0 Hlen Hwav Hwbv Hpav Hpbv.
    destruct (IH fuel h0 av bv) as (h1 & pv & E1 & Hp1 & Hd1);
      try (by eapply wf_prefix); try lia.
    + by rewrite (is_plain_prefix h h0) by (done || by eapply wf_in_heap).
    + by rewrite (is_plain_prefix h h0) by (done || by eapply wf_in_heap).
    + exists h1, pv. split; [done|]. split; [done|].
      eapply is_diff_weaken; [|exact Hd1]. lia.
  - by eexists.
  - by rewrite lookup_app_r, Nat.sub_diag.
  - done.
  - done.
  - intros k Hk. by apply elem_of_nil in Hk.
  - change (map fst (own_props h b)) with ((own_props h b).*1).
    rewrite E. cbn [mbind option_bind].
    exists h', (VRef (length h)). split; [done|]. split; [done|].
    exists (length h), pp. split; [done|]. split; [done|]. split; [done|].
    rewrite (own_props_prefix h h') by done.
    eapply diff_list_transport; [done | done | | exact Hlist].
    intros key bv pv _ _ _ Hs. split; [|done].
    eapply is_diff_weaken; [|exact Hs]. lia.
Qed.

(** *** What a difference looks like *)

Lemma diff_list_keys sub h a bprops pp :
  diff_list sub h a bprops pp -> pp.*1 `sublist_of` bprops.*1.
Proof.
  induction 1; cbn; try constructor; try done; by apply sublist_cons.
Qed.

Lemma diff_list_NoDup sub h a bprops pp :
  NoDup bprops.*1 -> diff_list sub h a bprops pp -> NoDup pp.*1.
Proof.
  intros Hnd Hdl. apply diff_list_keys in Hdl. eauto using sublist_NoDup.
Qed.

Lemma diff_list_lookup_None sub h a bprops pp key :
  diff_list sub h a bprops pp -> key ∉ bprops.*1 -> lookup_prop key pp = None.
Proof.
  intros Hdl Hk. apply lookup_prop_None. intros Hin. apply Hk.
  eapply elem_of_sublist; [done | by eapply diff_list_keys].
Qed.

(** The entry of the difference for a property of the new configuration. *)
Definition diff_entry (sub : value -> value -> value -> Prop) (h : heap)
    (a : value) (pp : list (string * value)) (key : string) (bv : value) : Prop :=
  (isObject h (get h a key) = true /\ isObject h bv = true /\
   exists pv, sub (get h a key) bv pv /\
              ((own_props h pv <> [] /\ lookup_prop key pp = Some pv) \/
               (own_props h pv = [] /\ lookup_prop key pp = None)))
  \/ (isObject h (get h a key) && isObject h bv = false /\
      ((strict_eq (get h a key) bv = false /\ lookup_prop key pp = Some bv) \/
       (strict_eq (get h a key) bv = true /\ lookup_prop key pp = None))).

Lemma diff_list_entry sub h a bprops pp key bv :
  NoDup bprops.*1 -> diff_list sub h a bprops pp -> (key, bv) ∈ bprops ->
  diff_entry sub h a pp key bv.
Proof.
  intros Hnd Hdl. revert Hnd.
  induction Hdl as [|k v rest pp pv Ho1 Ho2 Hs Hne Hrest IH
                    |k v rest pp pv Ho1 Ho2 Hs He Hrest IH
                    |k v rest pp Ho Hse Hrest IH
                    |k v rest pp Ho Hse Hrest IH];
    intros Hnd Hin; [by apply elem_of_nil in Hin | ..];
    cbn in Hnd; apply NoDup_cons in Hnd as [Hk Hnd];
    apply elem_of_cons in Hin as [[= -> ->]|Hin].
  - left. split; [done|]. split; [done|]. exists pv. split; [done|]. left.
    split; [done|]. cbn. by rewrite decide_True.
  - assert (k <> key) as Hne'.
    { intros ->. apply Hk. apply list_elem_of_fmap. by exists (key, bv). }
    specialize (IH Hnd Hin). unfold diff_entry in *. cbn.
    by rewrite decide_False.
  - left. split; [done|]. split; [done|]. exists pv. split; [done|]. right.
    split; [done|]. by eapply diff_list_lookup_None.
  - by apply IH.
  - right. split; [done|]. left. split; [done|]. cbn. by rewrite decide_True.
  - assert (k <> key) as Hne'.
    { intros ->. apply Hk. apply list_elem_of_fmap. by exists (key, bv). }
    specialize (IH Hnd Hin). unfold diff_entry in *. cbn.
    by rewrite decide_False.
  - right. split; [done|]. right. split; [done|]. by eapply diff_list_lookup_None.
  - by apply IH.
Qed.

Lemma diff_list_values (P : value -> Prop) sub h a bprops pp :
  Forall (fun kv => P kv.2) bprops ->
  (forall key bv pv, (key, bv) ∈ bprops ->
     isObject h (get h a key) = true -> isObject h bv = true ->
     sub (get h a key) bv pv -> P pv) ->
  diff_list sub h a bprops pp -> Forall (fun kv => P kv.2) pp.
Proof.
  intros Hall Hsub Hdl. revert Hall Hsub.
  induction Hdl; intros Hall Hsub; try constructor;
    inversion Hall; subst; cbn in *;
    try (apply IHHdl; [done | intros; eapply Hsub; try done; by apply list_elem_of_further]);
    try done.
  eapply Hsub; try done. apply list_elem_of_here.
Qed.

Lemma is_diff_wf d lo h a b p :
  wf_tree d h a = true -> wf_tree d h b = true ->
  is_plain h a = true -> is_plain h b = true ->
  is_diff d lo h a b p -> wf_tree d h p = true /\ is_plain h p = true.
Proof.
  revert a b p. induction d as [|d IH]; intros a b p Hwa Hwb Hpa Hpb; [done|].
  intros Hd.
  destruct (is_diff_inv _ _ _ _ _ _ Hd) as (d' & lp & pp & [= <-] & -> & Hlo & Hlp & Hdl).
  destruct (wf_own_props _ _ _ Hpb Hwb) as [Hnb Hballs].
  split; [|by rewrite is_plain_ref, Hlp].
  rewrite wf_tree_ref, Hlp. apply andb_true_iff. split.
  - apply bool_decide_eq_true. by eapply diff_list_NoDup.
  - apply forallb_forall. intros kv Hkv. apply list_elem_of_In in Hkv.
    assert (Forall (fun kv => wf_tree d h kv.2 = true) pp) as Hpp.
    { eapply (diff_list_values (fun v => wf_tree d h v = true)); [exact Hballs | | exact Hdl].
      intros key bv pv Hin Ho1 Ho2 Hs.
      assert (wf_tree d h bv = true) as Hbv.
      { rewrite Forall_forall in Hballs. by apply (Hballs (key, bv)). }
      apply (IH (get h a key) bv pv); try done.
      - by apply wf_get_plain.
      - eapply wf_isObject_is_plain; [by apply wf_get_plain | done].
      - by eapply wf_isObject_is_plain. }
    rewrite Forall_forall in Hpp. by apply Hpp.
Qed.

(** *** Reading a copy, reading a merge *)

Lemma same_value_refl v : same_value v v = true.
Proof.
  unfold same_value. destruct v as [| |b|n|s|l]; cbn; try done.
  - by destruct b.
  - destruct n as [|x|q]; cbn; [done|by destruct x|].
    rewrite orb_false_r. apply Qeq_bool_iff. reflexivity.
  - rewrite orb_false_r. by apply bool_decide_eq_true.
  - rewrite orb_false_r. by apply bool_decide_eq_true.
Qed.

Lemma strict_eq_same_value a b : strict_eq a b = true -> same_value a b = true.
Proof. intros H. unfold same_value. by rewrite H. Qed.

Lemma strict_eq_ref_r v (l : nat) : strict_eq v (VRef l) = true -> v = VRef l.
Proof.
  destruct v as [| | |[]| |]; cbn; try done. intros H. apply bool_decide_eq_true in H. by subst.
Qed.

Lemma strict_eq_ref_l v (l : nat) : strict_eq (VRef l) v = true -> v = VRef l.
Proof.
  destruct v; cbn; try done. intros H. apply bool_decide_eq_true in H. by subst.
Qed.

Lemma strict_eq_isObject h a b : strict_eq a b = true -> isObject h a = isObject h b.
Proof.
  intros H. destruct b as [| | | | |l].
  1-5: by destruct a.
  unfold loc in *. by rewrite (strict_eq_ref_r _ _ H).
Qed.

Lemma reproduces_ref d lo h r (l : nat) :
  reproduces d lo h r (VRef l)
  = match h !! l with
    | Some (CObj props) =>
        match d with
        | O => False
        | S d' =>
            exists (l' : nat) props',
              r = VRef l' /\ (lo <= l')%nat /\ h !! l' = Some (CObj props') /\
              Forall (fun kv =>
                        reproduces d' lo h
                          (default VUndefined (lookup_prop kv.1 props')) kv.2)
                props
        end
    | _ => r = VRef l
    end.
Proof. by destruct d. Qed.

Lemma same_value_ref_r v (l : nat) : same_value v (VRef l) = true -> v = VRef l.
Proof.
  unfold same_value. intros H. apply orb_true_iff in H as [H|H].
  - by apply strict_eq_ref_r.
  - by destruct v as [| | |[]| |].
Qed.

Lemma reproduces_same_value d lo h r n :
  isObject h n = false -> wf_tree d h n = true -> same_value r n = true ->
  reproduces d lo h r n.
Proof.
  intros Ho Hwf Hse. destruct n as [| | | | |l]; try (by destruct d).
  unfold loc in *. rewrite reproduces_ref.
  rewrite isObject_ref in Ho. rewrite wf_tree_ref in Hwf.
  destruct (h !! l) as [[]|]; try done; by apply same_value_ref_r.
Qed.

Lemma reproduces_strict_eq d lo h r n :
  isObject h n = false -> wf_tree d h n = true -> strict_eq r n = true ->
  reproduces d lo h r n.
Proof.
  intros Ho Hwf Hse. apply reproduces_same_value; try done.
  by apply strict_eq_same_value.
Qed.

Lemma Forall2_lookup_prop (R : value -> value -> Prop) props props' key :
  Forall2 (fun a b => a.1 = b.1 /\ R a.2 b.2) props props' ->
  match lookup_prop key props with
  | Some v => exists c, lookup_prop key props' = Some c /\ R v c
  | None => lookup_prop key props' = None
  end.
Proof.
  induction 1 as [|[k v] [k' c] ps ps' [Hk HR] _ IH]; cbn in *; [done|].
  subst k'. case_decide; [by exists c | done].
Qed.

Lemma copy_reproduces d lo h v c :
  wf_tree d h v = true -> is_copy d lo h v c -> reproduces d lo h c v.
Proof.
  revert v c. induction d as [|d IH]; intros v c Hwf Hc.
  - destruct (isObject h v) eqn:Ho.
    + destruct (wf_isObject_plain _ _ _ Hwf Ho) as (l & props & -> & Hl).
      by destruct (wf_plain_inv _ _ _ _ Hwf Hl) as (d' & [=] & _).
    + apply is_copy_leaf in Hc; [|done..]. subst c.
      apply reproduces_same_value; [done | done | apply same_value_refl].
  - destruct (isObject h v) eqn:Ho.
    + destruct (wf_isObject_plain _ _ _ Hwf Ho) as (l & props & -> & Hl).
      destruct (wf_plain_inv _ _ _ _ Hwf Hl) as (d' & [= <-] & Hnd & Hall).
      rewrite is_copy_ref, Hl in Hc. rewrite reproduces_ref, Hl.
      destruct Hc as (l' & props' & -> & Hlo & Hl' & HF).
      exists l', props'. split; [done|]. split; [done|]. split; [done|].
      apply Forall_forall. intros [k w] Hin. cbn.
      pose proof (Forall2_lookup_prop _ _ _ k HF) as Hlk. cbn in Hlk.
      rewrite (lookup_prop_elem k w) in Hlk by done.
      destruct Hlk as (c & -> & Hcw). cbn. apply IH; [|done].
      rewrite Forall_forall in Hall. by apply (Hall (k, w)).
    + apply is_copy_leaf in Hc; [|done..]. subst c.
      apply reproduces_same_value; [done | done | apply same_value_refl].
Qed.

Lemma unchanged_copy_reproduces d lo h a b c :
  wf_tree d h a = true -> wf_tree d h b = true ->
  is_plain h a = true -> is_plain h b = true ->
  unchanged d h a b = true -> is_copy d lo h a c -> reproduces d lo h c b.
Proof.
  revert a b c. induction d as [|d IH]; intros a b c Hwa Hwb Hpa Hpb Hun Hc; [done|].
  destruct (is_plain_inv _ _ Hpa) as (la & ap & -> & Hla).
  destruct (is_plain_inv _ _ Hpb) as (lb & bp & -> & Hlb).
  destruct (wf_plain_inv _ _ _ _ Hwa Hla) as (? & [= <-] & Hna & Halla).
  destruct (wf_plain_inv _ _ _ _ Hwb Hlb) as (? & [= <-] & Hnb & Hallb).
  rewrite is_copy_ref, Hla in Hc. destruct Hc as (lc & cp & -> & Hlo & Hlc & HF).
  rewrite reproduces_ref, Hlb.
  exists lc, cp. split; [done|]. split; [done|]. split; [done|].
  cbn [unchanged] in Hun. rewrite own_props_ref, Hlb in Hun.
  rewrite forallb_forall in Hun.
  apply Forall_forall. intros [k bv] Hin. cbn.
  specialize (Hun (k, bv) ltac:(by apply list_elem_of_In)). cbn [fst snd] in Hun.
  assert (wf_tree d h bv = true) as Hwbv.
  { rewrite Forall_forall in Hallb. by apply (Hallb (k, bv)). }
  assert (wf_tree d h (get h (VRef la) k) = true) as Hwav by (by eapply wf_get).
  pose proof (Forall2_lookup_prop _ _ _ k HF) as Hlk. cbn in Hlk.
  rewrite (get_ref _ _ _ _ Hla) in Hun, Hwav.
  destruct (lookup_prop k ap) as [av|] eqn:Eav; cbn in Hun, Hwav.
  - destruct Hlk as (ck & -> & Hck). cbn.
    destruct (isObject h av && isObject h bv) eqn:Eo.
    + apply andb_true_iff in Eo as [Eo1 Eo2].
      apply (IH av bv ck); try done; by eapply wf_isObject_is_plain.
    + assert (isObject h av = false) as Eo1.
      { rewrite <- (strict_eq_isObject h av bv Hun) in Eo. by destruct (isObject h av). }
      apply is_copy_leaf in Hck; [|done..]. subst ck.
      apply reproduces_strict_eq; try done.
      by rewrite <- (strict_eq_isObject h av bv Hun).
  - rewrite Hlk. cbn. cbn in Hun.
    apply reproduces_strict_eq; try done.
    by rewrite <- (strict_eq_isObject h VUndefined bv Hun).
Qed.

Lemma is_diff_empty_unchanged d lo h a b p :
  is_diff d lo h a b p -> own_props h p = [] -> unchanged d h a b = true.
Proof.
  revert a b p. induction d as [|d IH]; intros a b p Hd He; [done|].
  destruct (is_diff_inv _ _ _ _ _ _ Hd) as (d' & lp & pp & [= <-] & -> & Hlo & Hlp & Hdl).
  rewrite own_props_ref, Hlp in He.
  cbn [unchanged]. clear Hd Hlp. revert He.
  induction Hdl as [|k v rest pp pv Ho1 Ho2 Hs Hne Hrest IHl
                    |k v rest pp pv Ho1 Ho2 Hs He Hrest IHl
                    |k v rest pp Ho Hse Hrest IHl
                    |k v rest pp Ho Hse Hrest IHl]; intros Epp; try done; cbn.
  - rewrite Ho1, Ho2. cbn. rewrite (IH _ _ _ Hs He). by apply IHl.
  - rewrite Ho, Hse. by apply IHl.
Qed.

Lemma is_diff_unchanged_empty d lo h a b p :
  is_diff d lo h a b p -> unchanged d h a b = true -> own_props h p = [].
Proof.
  revert a b p. induction d as [|d IH]; intros a b p Hd Hun; [done|].
  destruct (is_diff_inv _ _ _ _ _ _ Hd) as (d' & lp & pp & [= <-] & -> & Hlo & Hlp & Hdl).
  rewrite own_props_ref, Hlp.
  cbn [unchanged] in Hun.
  induction Hdl as [|k v rest pp pv Ho1 Ho2 Hs Hne Hrest IHl
                    |k v rest pp pv Ho1 Ho2 Hs He Hrest IHl
                    |k v rest pp Ho Hse Hrest IHl
                    |k v rest pp Ho Hse Hrest IHl];
    try done; cbn in Hun; apply andb_true_iff in Hun as [Hk Hun].
  - rewrite Ho1, Ho2 in Hk. cbn in Hk. by rewrite (IH _ _ _ Hs Hk) in Hne.
  - by apply IHl.
  - rewrite Ho in Hk. congruence.
  - by apply IHl.
Qed.

Lemma is_merge_inv d lo h t s r :
  is_merge d lo h t s r ->
  exists d' (lr : nat) rp,
    d = S d' /\ r = VRef lr /\ (lo <= lr)%nat /\ h !! lr = Some (CObj rp) /\
    rp.*1 = (spread2 (own_props h t) (own_props h s)).*1 /\
    Forall
      (fun kv =>
         if isObject h (get h t kv.1) && isObject h (get h s kv.1)
         then is_merge d' lo h (get h t kv.1) (get h s kv.1) kv.2
         else is_copy d' lo h
                (default (get h t kv.1) (lookup_prop kv.1 (own_props h s))) kv.2)
      rp.
Proof.
  destruct d as [|d']; [done|]. intros (lr & rp & -> & Hlo & Hlr & Hkeys & Hall).
  by exists d', lr, rp.
Qed.

Lemma lookup_prop_keys_eq key props props' :
  props.*1 = props'.*1 ->
  lookup_prop key props = None <-> lookup_prop key props' = None.
Proof. intros H. by rewrite !lookup_prop_None, H. Qed.

(** Merging the difference of [a] and [b] onto [a] reads as [b]. *)
Lemma merge_of_diff_reproduces d lo lo' h a b p r :
  wf_tree d h a = true -> wf_tree d h b = true ->
  is_plain h a = true -> is_plain h b = true ->
  is_diff d lo' h a b p -> is_merge d lo h a p r ->
  reproduces d lo h r b.
Proof.
  revert a b p r. induction d as [|d IH]; intros a b p r Hwa Hwb Hpa Hpb Hd Hm; [done|].
  destruct (is_diff_inv _ _ _ _ _ _ Hd) as (? & lp & pp & [= <-] & -> & Hlo' & Hlp & Hdl).
  destruct (is_merge_inv _ _ _ _ _ _ Hm) as (? & lr & rp & [= <-] & -> & Hlo & Hlr & Hkeys & Hall).
  destruct (is_plain_inv _ _ Hpb) as (lb & bp & -> & Hlb).
  destruct (wf_plain_inv _ _ _ _ Hwb Hlb) as (? & [= <-] & Hnb & Hallb).
  destruct (wf_own_props _ _ _ Hpa Hwa) as [Hna Halla].
  rewrite (own_props_ref h lp), Hlp in Hkeys.
  rewrite (own_props_ref h lb), Hlb in Hdl.
  assert (NoDup pp.*1) as Hnp by exact (diff_list_NoDup _ _ _ _ _ Hnb Hdl).
  rewrite reproduces_ref, Hlb.
  exists lr, rp. split; [done|]. split; [done|]. split; [done|].
  apply Forall_forall. intros [k bv] Hin. cbn [fst snd].
  assert (wf_tree d h bv = true) as Hwbv.
  { rewrite Forall_forall in Hallb. by apply (Hallb (k, bv)). }
  assert (wf_tree d h (get h a k) = true) as Hwav by (by apply wf_get_plain).
  pose proof (diff_list_entry _ _ _ _ _ k bv Hnb Hdl Hin) as Hentry.
  destruct (lookup_prop k rp) as [w|] eqn:Ew; cbn [from_option id].
  - apply lookup_prop_Some_elem in Ew.
    rewrite Forall_forall in Hall. specialize (Hall (k, w) Ew). cbn [fst snd] in Hall.
    rewrite (get_ref _ _ _ _ Hlp), (own_props_ref h lp), Hlp in Hall.
    destruct Hentry as [(Ho1 & Ho2 & pv & Hs & [[Hne Hlk] | [He Hlk]])
                       |(Ho & [[Hse Hlk] | [Hse Hlk]])];
      rewrite Hlk in Hall; cbn [from_option id] in Hall.
    + destruct (is_diff_inv _ _ _ _ _ _ Hs) as (? & lq & qq & -> & -> & _ & Hlq & _).
      rewrite Ho1, (isObject_ref h lq), Hlq in Hall. cbn in Hall.
      apply (IH (get h a k) bv (VRef lq) w); try done;
        by eapply wf_isObject_is_plain.
    + rewrite andb_false_r in Hall.
      apply (unchanged_copy_reproduces d lo h (get h a k) bv w); try done;
        try (by eapply wf_isObject_is_plain).
      by eapply is_diff_empty_unchanged.
    + rewrite Ho in Hall. by apply copy_reproduces.
    + rewrite andb_false_r in Hall.
      assert (isObject h (get h a k) = false) as Eo1.
      { rewrite <- (strict_eq_isObject h _ _ Hse) in Ho.
        by destruct (isObject h (get h a k)). }
      apply is_copy_leaf in Hall; [|done..]. subst w.
      apply reproduces_strict_eq; try done.
      by rewrite <- (strict_eq_isObject h _ _ Hse).
  - apply (lookup_prop_keys_eq k _ _ Hkeys) in Ew.
    rewrite lookup_prop_spread2 in Ew by done.
    destruct (lookup_prop k pp) as [x|] eqn:Ex; [done|].
    assert (get h a k = VUndefined) as Ega by (unfold get; by rewrite Ew).
    unfold diff_entry in Hentry. rewrite Ega in Hentry.
    destruct Hentry as [(Ho1 & _) | (Ho & [[Hse Hlk] | [Hse Hlk]])];
      try done; try congruence.
    apply reproduces_strict_eq; try done.
    by rewrite <- (strict_eq_isObject h _ _ Hse).
Qed.

(** *** The two round trips *)

Lemma diff_then_merge_spec d fuel h A B :
  wf_tree d h A = true -> wf_tree d h B = true ->
  is_plain h A = true -> is_plain h B = true -> (d < fuel)%nat ->
  exists h1 P h2 R,
    deepDiffConfig fuel h A B = Some (h1, P) /\
    deepMergeConfig fuel h1 A P = Some (h2, R) /\
    h `prefix_of` h2 /\
    is_diff d (length h) h2 A B P /\
    reproduces d (length h) h2 R B.
Proof.
  intros Hwa Hwb Hpa Hpb Hfuel.
  destruct (deepDiffConfig_spec d fuel h A B) as (h1 & P & E1 & Hp1 & Hd); try done.
  pose proof (wf_in_heap _ _ _ Hwa) as Hia.
  pose proof (wf_in_heap _ _ _ Hwb) as Hib.
  assert (wf_tree d h1 A = true) as Hwa1 by (by eapply wf_prefix).
  assert (wf_tree d h1 B = true) as Hwb1 by (by eapply wf_prefix).
  assert (is_plain h1 A = true) as Hpa1 by (by rewrite (is_plain_prefix h h1)).
  assert (is_plain h1 B = true) as Hpb1 by (by rewrite (is_plain_prefix h h1)).
  destruct (is_diff_wf _ _ _ _ _ _ Hwa1 Hwb1 Hpa1 Hpb1 Hd) as [HwP HpP].
  destruct (deepMergeConfig_spec d fuel h1 A P) as (h2 & R & E2 & Hp2 & Hm); try done.
  exists h1, P, h2, R. split; [done|]. split; [done|].
  split; [by etrans|].
  assert (is_diff d (length h) h2 A B P) as Hd2.
  { apply (is_diff_keeps d _ h1 h1 h2); try done. by apply prefix_keeps_from. }
  split; [done|].
  eapply (merge_of_diff_reproduces d _ _ h2 A B P R); try done.
  - by eapply wf_prefix.
  - by eapply wf_prefix.
  - by rewrite (is_plain_prefix h h2) by (done || by etrans).
  - by rewrite (is_plain_prefix h h2) by (done || by etrans).
  - eapply is_merge_weaken; [|exact Hm]. by apply prefix_length.
Qed.


(** *** The difference of two configurations that differ in two places *)

Lemma forallb_ext_elem {A} (f g : A -> bool) (l : list A) :
  (forall x, x ∈ l -> f x = g x) -> forallb f l = forallb g l.
Proof.
  induction l as [|x l IH]; intros H; cbn; [done|].
  rewrite H by apply list_elem_of_here. rewrite IH; [done|].
  intros y Hy. apply H. by apply list_elem_of_further.
Qed.

Lemma unchanged_prefix d (h h' : heap) a b :
  h `prefix_of` h' -> wf_tree d h a = true -> wf_tree d h b = true ->
  is_plain h a = true -> is_plain h b = true ->
  unchanged d h' a b = unchanged d h a b.
Proof.
  intros Hp. revert a b. induction d as [|d IH]; intros a b Hwa Hwb Hpa Hpb; [done|].
  pose proof (wf_in_heap _ _ _ Hwa) as Hia.
  pose proof (wf_in_heap _ _ _ Hwb) as Hib.
  destruct (wf_own_props _ _ _ Hpb Hwb) as [_ Hallb].
  cbn [unchanged]. rewrite (own_props_prefix h h') by done.
  rewrite Forall_forall in Hallb.
  apply forallb_ext_elem. intros [k bv] Hin. cbn [fst snd].
  assert (wf_tree d h bv = true) as Hwbv by (by apply (Hallb (k, bv))).
  assert (wf_tree d h (get h a k) = true) as Hwav by (by apply wf_get_plain).
  rewrite (get_prefix h h') by done.
  rewrite !(isObject_prefix h h') by (done || by eapply wf_in_heap).
  destruct (isObject h (get h a k) && isObject h bv) eqn:Eo; [|done].
  apply andb_true_iff in Eo as [Eo1 Eo2].
  apply IH; try done; by eapply wf_isObject_is_plain.
Qed.

Lemma lookup_prop_elem_iff key v props :
  NoDup props.*1 -> (key, v) ∈ props <-> lookup_prop key props = Some v.
Proof.
  intros Hnd. split; [by apply lookup_prop_elem | apply lookup_prop_Some_elem].
Qed.

Lemma NoDup_keys_NoDup (props : list (string * value)) :
  NoDup props.*1 -> NoDup props.
Proof. apply NoDup_fmap_1. Qed.

Lemma props_of_lookups (pp qq : list (string * value)) :
  NoDup pp.*1 -> NoDup qq.*1 ->
  (forall key, lookup_prop key pp = lookup_prop key qq) -> pp ≡ₚ qq.
Proof.
  intros Hp Hq Hlk. apply NoDup_Permutation; try by apply NoDup_keys_NoDup.
  intros [k v]. by rewrite !lookup_prop_elem_iff, Hlk.
Qed.

Lemma has_key_elem h v key :
  has_key h v key = true -> (key, get h v key) ∈ own_props h v.
Proof.
  unfold has_key, get. intros H. apply bool_decide_eq_true in H as [x Hx].
  rewrite Hx. cbn. by apply lookup_prop_Some_elem.
Qed.

(** An entry for a property that did not change: none. *)
Lemma diff_entry_unchanged d lo h a pp key bv :
  diff_entry (is_diff d lo h) h a pp key bv ->
  (if isObject h (get h a key) && isObject h bv
   then unchanged d h (get h a key) bv
   else strict_eq (get h a key) bv) = true ->
  lookup_prop key pp = None.
Proof.
  intros [(Ho1 & Ho2 & pv & Hs & [[Hne Hlk] | [He Hlk]])
         |(Ho & [[Hse Hlk] | [Hse Hlk]])] Hun; try done.
  - rewrite Ho1, Ho2 in Hun. cbn in Hun.
    by rewrite (is_diff_unchanged_empty _ _ _ _ _ _ Hs Hun) in Hne.
  - rewrite Ho in Hun. congruence.
Qed.

(** An entry for a leaf that changed: the new leaf. *)
Lemma diff_entry_leaf_changed sub h a pp key bv :
  diff_entry sub h a pp key bv ->
  isObject h (get h a key) && isObject h bv = false ->
  strict_eq (get h a key) bv = false ->
  lookup_prop key pp = Some bv.
Proof.
  intros [(Ho1 & Ho2 & _) | (Ho & [[Hse Hlk] | [Hse Hlk]])] Hno Hse'; try done.
  - by rewrite Ho1, Ho2 in Hno.
  - congruence.
Qed.

Lemma unchanged_but_entry d h keys a b key bv :
  unchanged_but d h keys a b = true -> (key, bv) ∈ own_props h b -> key ∉ keys ->
  (if isObject h (get h a key) && isObject h bv
   then unchanged d h (get h a key) bv
   else strict_eq (get h a key) bv) = true.
Proof.
  unfold unchanged_but. rewrite forallb_forall. intros Hall Hin Hk.
  specialize (Hall (key, bv) ltac:(by apply list_elem_of_In)). cbn [fst snd] in Hall.
  by rewrite bool_decide_eq_false_2 in Hall.
Qed.

Lemma leaf_changed_inv h key a b :
  leaf_changed h key a b = true ->
  (key, get h b key) ∈ own_props h b /\
  isObject h (get h a key) && isObject h (get h b key) = false /\
  strict_eq (get h a key) (get h b key) = false.
Proof.
  unfold leaf_changed. intros H.
  apply andb_true_iff in H as [H H3]. apply andb_true_iff in H as [H1 H2].
  split; [by apply has_key_elem|]. split; [by apply negb_true_iff | by apply negb_true_iff].
Qed.

Section DiffLookups.

Variables (d lo : nat) (h h' : heap) (a b : value) (pp : list (string * value)).

Hypothesis Hp : h `prefix_of` h'.
Hypothesis wf_a : wf_tree (S d) h a = true.
Hypothesis wf_b : wf_tree (S d) h b = true.
Hypothesis plain_a : is_plain h a = true.
Hypothesis plain_b : is_plain h b = true.
Hypothesis Hdl : diff_list (is_diff d lo h') h' a (own_props h b) pp.

Lemma diff_entry_in_old_store key bv :
  (key, bv) ∈ own_props h b ->
  wf_tree d h bv = true /\ wf_tree d h (get h a key) = true /\
  get h' a key = get h a key /\
  isObject h' (get h a key) = isObject h (get h a key) /\
  isObject h' bv = isObject h bv /\
  diff_entry (is_diff d lo h') h' a pp key bv.
Proof.
  intros Hin.
  destruct (wf_own_props _ _ _ plain_b wf_b) as [Hnb Hallb].
  assert (wf_tree d h bv = true) as Hwbv.
  { rewrite Forall_forall in Hallb. by apply (Hallb (key, bv)). }
  assert (wf_tree d h (get h a key) = true) as Hwav by (by apply wf_get_plain).
  split; [done|]. split; [done|].
  split; [apply get_prefix; [done | by eapply wf_in_heap]|].
  split; [apply isObject_prefix; [done | by eapply wf_in_heap]|].
  split; [apply isObject_prefix; [done | by eapply wf_in_heap]|].
  by eapply diff_list_entry.
Qed.

Lemma is_diff_lookup_unchanged keys key :
  unchanged_but d h keys a b = true -> key ∉ keys -> lookup_prop key pp = None.
Proof.
  intros Hun Hk.
  destruct (decide (key ∈ (own_props h b).*1)) as [Hin|Hnot];
    [|by eapply diff_list_lookup_None].
  apply lookup_prop_is_Some in Hin as [bv Hbv]. apply lookup_prop_Some_elem in Hbv.
  destruct (diff_entry_in_old_store key bv Hbv) as (Hwbv & Hwav & Hg & Ho1 & Ho2 & Hentry).
  eapply diff_entry_unchanged; [exact Hentry|].
  pose proof (unchanged_but_entry _ _ _ _ _ _ _ Hun Hbv Hk) as Hcond.
  rewrite Hg, Ho1, Ho2.
  destruct (isObject h (get h a key) && isObject h bv) eqn:Eo; [|done].
  apply andb_true_iff in Eo as [Eo1 Eo2].
  rewrite (unchanged_prefix d h h'); try done; by eapply wf_isObject_is_plain.
Qed.

Lemma is_diff_lookup_leaf_changed key :
  leaf_changed h key a b = true -> lookup_prop key pp = Some (get h b key).
Proof.
  intros (Hin & Hno & Hse)%leaf_changed_inv.
  destruct (diff_entry_in_old_store key _ Hin) as (Hwbv & Hwav & Hg & Ho1 & Ho2 & Hentry).
  eapply diff_entry_leaf_changed; [exact Hentry | |]; rewrite Hg; [|done].
  by rewrite Ho1, Ho2.
Qed.

Lemma is_diff_lookup_nested key :
  has_key h b key = true ->
  isObject h (get h a key) = true -> isObject h (get h b key) = true ->
  exists pv, is_diff d lo h' (get h a key) (get h b key) pv /\
             lookup_prop key pp = (if bool_decide (own_props h' pv = []) then None
                                   else Some pv).
Proof.
  intros Hin%has_key_elem Eo1 Eo2.
  destruct (diff_entry_in_old_store key _ Hin) as (Hwbv & Hwav & Hg & Ho1 & Ho2 & Hentry).
  unfold diff_entry in Hentry. rewrite Hg, Ho1, Ho2, Eo1, Eo2 in Hentry.
  destruct Hentry as [(_ & _ & pv & Hs & [[Hne Hlk] | [He Hlk]]) | (? & _)]; [| |done];
    exists pv; (split; [done|]); rewrite Hlk.
  - by rewrite bool_decide_eq_false_2.
  - by rewrite bool_decide_eq_true_2.
Qed.

End DiffLookups.

Lemma differ_in_viewOnly_and_duration_inv d h A B :
  differ_in_viewOnly_and_duration d h A B = true ->
  leaf_changed h "viewOnly" A B = true /\
  has_key h B "animation" = true /\
  isObject h (get h A "animation") = true /\
  isObject h (get h B "animation") = true /\
  leaf_changed h "duration" (get h A "animation") (get h B "animation") = true /\
  unchanged_but (S d) h ["viewOnly"; "animation"] A B = true /\
  unchanged_but d h ["duration"] (get h A "animation") (get h B "animation") = true.
Proof.
  unfold differ_in_viewOnly_and_duration. intros H.
  do 6 (apply andb_true_iff in H as [H ?]).
  repeat match goal with |- _ /\ _ => split end; assumption.
Qed.

Lemma deepDiffConfig_two_places d fuel h A B :
  wf_tree (S (S d)) h A = true -> wf_tree (S (S d)) h B = true ->
  is_plain h A = true -> is_plain h B = true -> (S (S d) < fuel)%nat ->
  differ_in_viewOnly_and_duration d h A B = true ->
  exists h' P (la : nat),
    deepDiffConfig fuel h A B = Some (h', P) /\ h `prefix_of` h' /\
    own_props h' P ≡ₚ [("viewOnly", get h B "viewOnly"); ("animation", VRef la)] /\
    h' !! la = Some (CObj [("duration", get h (get h B "animation") "duration")]).
Proof.
  intros Hwa Hwb Hpa Hpb Hfuel
    (Hvo & Hka & Eo1 & Eo2 & Hdur & Hun1 & Hun2)%differ_in_viewOnly_and_duration_inv.
  destruct (deepDiffConfig_spec (S (S d)) fuel h A B) as (h' & P & E & Hp & Hd);
    try done.
  destruct (is_diff_inv _ _ _ _ _ _ Hd) as (? & lp & pp & [= <-] & -> & Hlo & Hlp & Hdl).
  pose proof (wf_in_heap _ _ _ Hwb) as Hib.
  rewrite (own_props_prefix h h') in Hdl by done.
  destruct (wf_own_props _ _ _ Hpb Hwb) as [Hnb Hallb].
  assert (NoDup pp.*1) as Hnp by exact (diff_list_NoDup _ _ _ _ _ Hnb Hdl).
  (* the nested difference *)
  set (a2 := get h A "animation") in *. set (b2 := get h B "animation") in *.
  assert (wf_tree (S d) h a2 = true) as Hwa2 by (by apply wf_get_plain).
  assert (wf_tree (S d) h b2 = true) as Hwb2 by (by apply wf_get_plain).
  assert (is_plain h a2 = true) as Hpa2 by (by eapply wf_isObject_is_plain).
  assert (is_plain h b2 = true) as Hpb2 by (by eapply wf_isObject_is_plain).
  destruct (is_diff_lookup_nested _ _ h h' A B pp Hp Hwa Hwb Hpa Hpb Hdl "animation")
    as (pv & Hs & Hlka); try done. fold a2 b2 in Hs.
  destruct (is_diff_inv _ _ _ _ _ _ Hs) as (? & la & qq & [= <-] & -> & Hlo2 & Hla & Hdl2).
  pose proof (wf_in_heap _ _ _ Hwb2) as Hib2.
  rewrite (own_props_prefix h h') in Hdl2 by done.
  destruct (wf_own_props _ _ _ Hpb2 Hwb2) as [Hnb2 _].
  assert (NoDup qq.*1) as Hnq by exact (diff_list_NoDup _ _ _ _ _ Hnb2 Hdl2).
  assert (qq = [("duration", get h b2 "duration")]) as ->.
  { apply Permutation_singleton_r.
    apply props_of_lookups; [done | apply NoDup_singleton|].
    intros key. cbn [lookup_prop]. case_decide as Hkey.
    - subst key. by eapply (is_diff_lookup_leaf_changed d _ h h' a2 b2).
    - eapply (is_diff_lookup_unchanged d _ h h' a2 b2); try done.
      by rewrite list_elem_of_singleton. }
  rewrite (own_props_ref h' la), Hla in Hlka. cbn in Hlka.
  exists h', (VRef lp), la. split; [done|]. split; [done|]. split; [|done].
  rewrite own_props_ref, Hlp.
  apply props_of_lookups; [done | |].
  { cbn. apply NoDup_cons. split; [|apply NoDup_singleton].
    rewrite list_elem_of_singleton. done. }
  intros key. cbn [lookup_prop].
  destruct (decide ("viewOnly" = key)) as [<-|Hk1].
  { by eapply (is_diff_lookup_leaf_changed (S d) _ h h' A B). }
  destruct (decide ("animation" = key)) as [<-|Hk2]; [done|].
  eapply (is_diff_lookup_unchanged (S d) _ h h' A B); try done.
  rewrite !elem_of_cons, elem_of_nil. intros [?|[?|[]]]; congruence.
Qed.

End ConfigFacts.

Import Js Config ConfigSpec.

(** X1. [deepCopy] of a well-formed tree ends (with fuel above the depth of
    the tree) and returns a copy: every plain object of the tree is copied
    into a new object with the same property names in the same order, the
    leaves (primitives, functions, arrays) are the same values, and no cell
    that was in the store is changed. *)
Theorem deepCopy_copies (d fuel : nat) (h : heap) (v : value) :
  wf_tree d h v = true -> (d < fuel)%nat ->
  exists h' v',
    deepCopy fuel h v = Some (h', v') /\ h `prefix_of` h' /\
    is_copy d (length h) h' v v'.
Proof. apply deepCopy_spec. Qed.

Lemma deepCopy_copies_witness :
  exists h' v',
    deepCopy 3 Examples.store Examples.config_A = Some (h', v') /\
    Examples.store `prefix_of` h' /\
    is_copy 2 (length Examples.store) h' Examples.config_A v'.
Proof. apply (deepCopy_copies 2 3); [reflexivity | lia]. Defined.

(** X2. None of the three functions writes into an object it was given:
    whatever the arguments, a result comes with a store that extends the
    store of the call, cell for cell. *)
Theorem config_functions_only_allocate (fuel : nat) (h : heap) (v w : value) :
  match deepCopy fuel h v with
  | Some (h', _) => h `prefix_of` h'
  | None => True
  end /\
  match deepMergeConfig fuel h v w with
  | Some (h', _) => h `prefix_of` h'
  | None => True
  end /\
  match deepDiffConfig fuel h v w with
  | Some (h', _) => h `prefix_of` h'
  | None => True
  end.
Proof.
  split; [|split].
  - destruct (deepCopy fuel h v) as [[h' v']|] eqn:E; [|done].
    by eapply deepCopy_prefix.
  - destruct (deepMergeConfig fuel h v w) as [[h' r]|] eqn:E; [|done].
    by eapply deepMergeConfig_prefix.
  - destruct (deepDiffConfig fuel h v w) as [[h' p]|] eqn:E; [|done].
    by eapply deepDiffConfig_prefix.
Qed.

(** X3. [deepMergeConfig(T, {})] of a well-formed configuration [T] is a
    copy of [T]: a new object for every plain object of [T], with the same
    property names in the same order and the same leaves, in a store where
    [T] and [{}] are as they were. *)
Theorem deepMergeConfig_empty_source_copies (d fuel : nat) (h : heap) (T : value)
    (e : nat) :
  is_plain h T = true -> wf_tree d h T = true ->
  h !! e = Some (CObj []) -> (d < fuel)%nat ->
  exists h' R,
    deepMergeConfig fuel h T (VRef e) = Some (h', R) /\
    h `prefix_of` h' /\ is_copy d (length h) h' T R.
Proof. apply deepMergeConfig_empty_spec. Qed.

Lemma deepMergeConfig_empty_source_copies_witness :
  exists h' R,
    deepMergeConfig 3 Examples.store Examples.config_A (VRef 10%nat) = Some (h', R) /\
    Examples.store `prefix_of` h' /\
    is_copy 2 (length Examples.store) h' Examples.config_A R.
Proof.
  apply (deepMergeConfig_empty_source_copies 2 3);
    [reflexivity | reflexivity | reflexivity | lia].
Defined.

(** X4. [deepMergeConfig(t, s)] of two well-formed configurations ends and
    returns a new object with the property names of [t] followed by those
    only [s] has; under a name where both have a plain object it has their
    merge, under any other name a copy of the value of [s] if [s] has the
    name (also when that value is [undefined]) and of the value of [t]
    otherwise. This is for configurations whose property names are
    configuration names: with an array index among them JavaScript would
    put it before the other names. *)
Theorem deepMergeConfig_merges (d fuel : nat) (h : heap) (t s : value) :
  wf_tree d h t = true -> wf_tree d h s = true ->
  is_plain h t = true -> is_plain h s = true ->
  config_names d h t = true -> config_names d h s = true -> (d < fuel)%nat ->
  exists h' r,
    deepMergeConfig fuel h t s = Some (h', r) /\ h `prefix_of` h' /\
    is_merge d (length h) h' t s r.
Proof. intros Hwt Hws Hpt Hps _ _ Hfuel. by apply deepMergeConfig_spec. Qed.

Lemma deepMergeConfig_merges_witness :
  exists h' r,
    deepMergeConfig 3 Examples.store Examples.config_A Examples.config_B = Some (h', r) /\
    Examples.store `prefix_of` h' /\
    is_merge 2 (length Examples.store) h' Examples.config_A Examples.config_B r.
Proof.
  apply (deepMergeConfig_merges 2 3);
    [reflexivity | reflexivity | reflexivity | reflexivity
     | reflexivity | reflexivity | lia].
Defined.

(** X5. [deepDiffConfig(a, b)] of two well-formed configurations ends and
    returns a new object that has, in the order of [b], a property for each
    leaf of [b] that [a] has not ([!==]), with that leaf, and for each plain
    object of [b] where [a] has a plain object too and their difference is
    not empty, with that difference; it has nothing else. This is for a [b]
    whose property names are configuration names: under a name of
    [Object.prototype] that [a] has not, JavaScript would read the inherited
    property of [a]. *)
Theorem deepDiffConfig_differences (d fuel : nat) (h : heap) (a b : value) :
  wf_tree d h a = true -> wf_tree d h b = true ->
  is_plain h a = true -> is_plain h b = true ->
  config_names d h b = true -> (d < fuel)%nat ->
  exists h' p,
    deepDiffConfig fuel h a b = Some (h', p) /\ h `prefix_of` h' /\
    is_diff d (length h) h' a b p.
Proof. intros Hwa Hwb Hpa Hpb _ Hfuel. by apply deepDiffConfig_spec. Qed.

Lemma deepDiffConfig_differences_witness :
  exists h' p,
    deepDiffConfig 3 Examples.store Examples.config_A Examples.config_B = Some (h', p) /\
    Examples.store `prefix_of` h' /\
    is_diff 2 (length Examples.store) h' Examples.config_A Examples.config_B p.
Proof.
  apply (deepDiffConfig_differences 2 3);
    [reflexivity | reflexivity | reflexivity | reflexivity | reflexivity | lia].
Defined.

(** X6. Merging the difference back: for well-formed configurations [A] and
    [B] whose property names are configuration names,
    [deepMergeConfig(A, deepDiffConfig(A, B))] ends and reads as [B] under
    every property of [B], at every depth: a plain object where [B] has a
    plain object, and where [B] has a leaf the same value ([===], or [NaN]
    where [B] has [NaN]); [A] and [B] are not changed. *)
Theorem diff_then_merge_reads_as_new (d fuel : nat) (h : heap) (A B : value) :
  wf_tree d h A = true -> wf_tree d h B = true ->
  is_plain h A = true -> is_plain h B = true ->
  config_names d h A = true -> config_names d h B = true -> (d < fuel)%nat ->
  exists h1 P h2 R,
    deepDiffConfig fuel h A B = Some (h1, P) /\
    deepMergeConfig fuel h1 A P = Some (h2, R) /\
    h `prefix_of` h2 /\
    reproduces d (length h) h2 R B.
Proof.
  intros Hwa Hwb Hpa Hpb _ _ Hfuel.
  destruct (diff_then_merge_spec d fuel h A B) as (h1 & P & h2 & R & E1 & E2 & Hp & _ & Hr);
    try done.
  by exists h1, P, h2, R.
Qed.

Lemma diff_then_merge_reads_as_new_witness :
  exists h1 P h2 R,
    deepDiffConfig 3 Examples.store Examples.config_A Examples.config_B = Some (h1, P) /\
    deepMergeConfig 3 h1 Examples.config_A P = Some (h2, R) /\
    Examples.store `prefix_of` h2 /\
    reproduces 2 (length Examples.store) h2 R Examples.config_B.
Proof.
  apply (diff_then_merge_reads_as_new 2 3);
    [reflexivity | reflexivity | reflexivity | reflexivity
     | reflexivity | reflexivity | lia].
Defined.

(** X7. When [A] and [B] differ only in [viewOnly] and in
    [animation.duration], and the property names of [B] are configuration
    names, [deepDiffConfig(A, B)] is
    [{ viewOnly: B.viewOnly, animation: { duration: B.animation.duration } }]
    and nothing more (the two properties come in the order [B] has them). *)
Theorem deepDiffConfig_two_changes (d fuel : nat) (h : heap) (A B : value) :
  wf_tree (S (S d)) h A = true -> wf_tree (S (S d)) h B = true ->
  is_plain h A = true -> is_plain h B = true ->
  config_names (S (S d)) h B = true -> (S (S d) < fuel)%nat ->
  differ_in_viewOnly_and_duration d h A B = true ->
  exists h' P (la : nat),
    deepDiffConfig fuel h A B = Some (h', P) /\ h `prefix_of` h' /\
    own_props h' P ≡ₚ [("viewOnly", get h B "viewOnly"); ("animation", VRef la)] /\
    h' !! la = Some (CObj [("duration", get h (get h B "animation") "duration")]).
Proof. intros Hwa Hwb Hpa Hpb _ Hfuel. by apply deepDiffConfig_two_places. Qed.

Lemma deepDiffConfig_two_changes_witness :
  exists h' P (la : nat),
    deepDiffConfig 3 Examples.store Examples.config_A Examples.config_B = Some (h', P) /\
    Examples.store `prefix_of` h' /\
    own_props h' P
    ≡ₚ [("viewOnly", get Examples.store Examples.config_B "viewOnly");
        ("animation", VRef la)] /\
    h' !! la
    = Some (CObj [("duration",
                   get Examples.store (get Examples.store Examples.config_B "animation")
                     "duration")]).
Proof.
  apply (deepDiffConfig_two_changes 0 3);
    [reflexivity | reflexivity | reflexivity | reflexivity | reflexivity
     | lia | reflexivity].
Defined.

(** X8. For a [b] whose property names are configuration names,
    [deepDiffConfig(a, b)] is [{}] exactly when [a] has, under every
    property of [b] and at every depth, the leaf [b] has ([===]) or a plain
    object where [b] has one. *)
Theorem deepDiffConfig_empty_iff_unchanged (d fuel : nat) (h : heap) (a b : value) :
  wf_tree d h a = true -> wf_tree d h b = true ->
  is_plain h a = true -> is_plain h b = true ->
  config_names d h b = true -> (d < fuel)%nat ->
  exists h' p,
    deepDiffConfig fuel h a b = Some (h', p) /\
    (own_props h' p = [] <-> unchanged d h a b = true).
Proof.
  intros Hwa Hwb Hpa Hpb _ Hfuel.
  destruct (deepDiffConfig_spec d fuel h a b) as (h' & p & E & Hp & Hd); try done.
  exists h', p. split; [done|].
  rewrite <- (unchanged_prefix d h h') by done.
  split; [by eapply is_diff_empty_unchanged | by eapply is_diff_unchanged_empty].
Qed.

Lemma deepDiffConfig_empty_iff_unchanged_witness :
  exists h' p,
    deepDiffConfig 3 Examples.store Examples.config_A Examples.config_A = Some (h', p) /\
    (own_props h' p = [] <-> unchanged 2 Examples.store Examples.config_A Examples.config_A = true).
Proof.
  apply (deepDiffConfig_empty_iff_unchanged 2 3);
    [reflexivity | reflexivity | reflexivity | reflexivity | reflexivity | lia].
Defined.

(** X9. A [Map] is taken for a plain object ([isObject] is true of it), and
    it has no property of its own: [deepCopy] of a [Map] is a new object
    [{}], the entries are not carried over. The default configuration has
    one, [movable.dests]. *)
Theorem deepCopy_of_Map_is_empty_object (fuel : nat) (h : heap) (m : nat)
    (entries : list (string * list string)) :
  h !! m = Some (CMap entries) ->
  isObject h (VRef m) = true /\
  deepCopy (S fuel) h (VRef m) = Some (h ++ [CObj []], VRef (length h)).
Proof.
  intros Hm. rewrite isObject_ref, Hm. split; [done|].
  cbn [deepCopy]. rewrite isObject_ref, own_props_ref, Hm. done.
Qed.

Lemma deepCopy_of_Map_is_empty_object_witness :
  get DefaultConfig.initial_heap
    (get DefaultConfig.initial_heap DefaultConfig.defaultBoardConfig "movable") "dests"
  = VRef 2%nat /\
  isObject DefaultConfig.initial_heap (VRef 2%nat) = true /\
  deepCopy 1 DefaultConfig.initial_heap (VRef 2%nat)
  = Some (DefaultConfig.initial_heap ++ [CObj []],
          VRef (length DefaultConfig.initial_heap)).
Proof.
  split; [reflexivity|].
  apply (deepCopy_of_Map_is_empty_object 0 DefaultConfig.initial_heap 2
           DefaultConfig.possibleMovesWhite).
  reflexivity.
Defined.

(** ** What the copies and merges share with their arguments *)

Section FreshFacts.

Import Js Config StoreSpec.

(** [closed], cell by cell. *)
Definition below (n : nat) (v : value) : Prop :=
  match v with VRef l => (l < n)%nat | _ => True end.

Definition cell_ok (n : nat) (c : cell) : Prop :=
  match c with
  | CObj props => Forall (fun kv => below n kv.2) props
  | CArr elems => Forall (below n) elems
  | _ => True
  end.

Definition closedP (h : heap) : Prop :=
  forall (l : nat) c, h !! l = Some c -> cell_ok (length h) c.

Lemma points_below_spec n v : points_below n v = true -> below n v.
Proof. destruct v; cbn; try done. apply bool_decide_eq_true. Qed.

Lemma cell_closed_spec n c : cell_closed n c = true -> cell_ok n c.
Proof.
  destruct c as [props|elems| |]; cbn; try done.
  - intros H. apply Forall_forall. intros kv Hin. apply points_below_spec.
    rewrite forallb_forall in H. apply H. by apply list_elem_of_In.
  - intros H. apply Forall_forall. intros e Hin. apply points_below_spec.
    rewrite forallb_forall in H. apply H. by apply list_elem_of_In.
Qed.

Lemma closed_closedP h : closed h = true -> closedP h.
Proof.
  unfold closed. intros H l c Hl. apply cell_closed_spec.
  rewrite forallb_forall in H. apply H. apply list_elem_of_In.
  by eapply list_elem_of_lookup_2.
Qed.

Lemma below_mono n m v : (n <= m)%nat -> below n v -> below m v.
Proof. intros Hle. destruct v; cbn; try done. lia. Qed.

Lemma cell_ok_mono n m c : (n <= m)%nat -> cell_ok n c -> cell_ok m c.
Proof.
  intros Hle. destruct c as [props|elems| |]; cbn; try done.
  - intros H. eapply Forall_impl; [exact H|]. intros kv. by apply below_mono.
  - intros H. eapply Forall_impl; [exact H|]. intros e. by apply below_mono.
Qed.

Lemma closedP_alloc h c : closedP h -> cell_ok (length h) c -> closedP (h ++ [c]).
Proof.
  intros Hc Hok l c' Hl. rewrite length_app. cbn [length].
  apply lookup_app_Some in Hl as [Hl|[Hlen Hl]].
  - eapply cell_ok_mono; [|by eapply Hc]. lia.
  - apply list_lookup_singleton_Some in Hl as [_ <-].
    eapply cell_ok_mono; [|exact Hok]. lia.
Qed.

Lemma closedP_store h (r : nat) key v :
  closedP h -> below (length h) v -> closedP (store_prop h r key v).
Proof.
  intros Hc Hv l c Hl. rewrite store_prop_length.
  unfold store_prop, loc in Hl.
  destruct (h !! r) as [[props| | |]|] eqn:Hr; try by eapply Hc.
  destruct (decide (l = r)) as [->|Hne].
  - rewrite list_lookup_insert_eq in Hl by (by eapply lookup_lt_Some).
    injection Hl as <-. cbn. apply set_prop_Forall; [done|]. exact (Hc r _ Hr).
  - rewrite list_lookup_insert_ne in Hl by done. by eapply Hc.
Qed.

Lemma closedP_own_props h v :
  closedP h -> Forall (fun kv => below (length h) kv.2) (own_props h v).
Proof.
  intros Hc. destruct v as [| | | |s|l]; try (cbn; by constructor).
  - cbn. apply Forall_forall. intros kv Hin.
    apply elem_of_lookup_imap in Hin as (i & c & -> & _). done.
  - unfold loc in l. rewrite own_props_ref.
    destruct (h !! l) as [[props|elems| |]|] eqn:Hl; try by constructor.
    + exact (Hc l _ Hl).
    + pose proof (Hc l _ Hl) as Hok. cbn in Hok.
      apply Forall_forall. intros kv Hin.
      apply elem_of_lookup_imap in Hin as (i & e & -> & Hi). cbn.
      rewrite Forall_forall in Hok. apply Hok. by eapply list_elem_of_lookup_2.
Qed.

Lemma closedP_lookup_prop h (l : nat) props key w :
  closedP h -> h !! l = Some (CObj props) -> lookup_prop key props = Some w ->
  below (length h) w.
Proof.
  intros Hc Hl Hw. pose proof (Hc l _ Hl) as Hok. cbn in Hok.
  rewrite Forall_forall in Hok. apply lookup_prop_Some_elem in Hw.
  exact (Hok _ Hw).
Qed.

Lemma closedP_get h v key : closedP h -> below (length h) (get h v key).
Proof.
  intros Hc. unfold get.
  destruct (lookup_prop key (own_props h v)) as [w|] eqn:E; cbn; [|done].
  apply lookup_prop_Some_elem in E.
  pose proof (closedP_own_props h v Hc) as HF.
  rewrite Forall_forall in HF. exact (HF _ E).
Qed.

(** The store grows: no cell is lost, the cells from [lo] on are kept, and
    what is an object stays one. *)
Definition grows (lo : nat) (h h' : heap) : Prop :=
  (length h <= length h')%nat /\ keeps_from lo h h' /\
  forall l : nat, (l < length h)%nat -> isObject h' (VRef l) = isObject h (VRef l).

Lemma grows_prefix lo (h h' : heap) : h `prefix_of` h' -> grows lo h h'.
Proof.
  intros Hp. split; [by apply prefix_length|].
  split; [by apply prefix_keeps_from|].
  intros l Hl. by apply isObject_prefix.
Qed.

Lemma grows_store (h : heap) (r : nat) key v : grows (S r) h (store_prop h r key v).
Proof.
  split; [by rewrite store_prop_length|]. split; [apply store_prop_keeps|].
  intros l Hl. rewrite !isObject_ref. unfold store_prop, loc.
  destruct (h !! r) as [[props| | |]|] eqn:Hr; try done.
  destruct (decide (l = r)) as [->|Hne].
  - rewrite list_lookup_insert_eq by (by eapply lookup_lt_Some). by rewrite Hr.
  - by rewrite list_lookup_insert_ne.
Qed.

Lemma fresh_weaken d lo lo' h v :
  (lo' <= lo)%nat -> fresh d lo h v -> fresh d lo' h v.
Proof.
  intros Hle. revert v. induction d as [|d IH]; intros v; cbn; [done|].
  intros Hf Hobj. destruct (Hf Hobj) as (l & props & -> & Hl & Hc & Hch).
  exists l, props. split_and!; try done; [lia|].
  intros key w Hw. apply IH. by eapply Hch.
Qed.

Lemma fresh_grows d lo h h' v :
  closedP h -> below (length h) v -> grows lo h h' ->
  fresh d lo h v -> fresh d lo h' v.
Proof.
  intros Hc Hv (Hlen & Hk & Ho). revert v Hv.
  induction d as [|d IH]; intros v Hv; cbn [fresh]; [done|].
  intros Hf Hobj.
  destruct v as [| | | | |l]; try done. cbn in Hv.
  rewrite (Ho l Hv) in Hobj.
  destruct (Hf Hobj) as (l' & props & [= <-] & Hl & Hcell & Hch).
  exists l, props. split_and!; try done; [by apply Hk|].
  intros key w Hw. apply IH; [|by eapply Hch].
  by eapply closedP_lookup_prop.
Qed.

(** *** deepCopy *)

Lemma map_entries_fresh d f :
  (forall h v h' v', closedP h -> below (length h) v -> f h v = Some (h', v') ->
     h `prefix_of` h' /\ closedP h' /\ below (length h') v' /\
     fresh d (length h) h' v') ->
  forall es h h' es', closedP h -> Forall (fun kv => below (length h) kv.2) es ->
    map_entries f h es = Some (h', es') ->
    h `prefix_of` h' /\ closedP h' /\
    Forall (fun kv => below (length h') kv.2 /\ fresh d (length h) h' kv.2) es'.
Proof.
  intros Hf es. induction es as [|[k v] es IH]; intros h h' es' Hc Hall H; cbn in H.
  - injection H as <- <-. split; [done|]. split; [done|constructor].
  - destruct (f h v) as [[h1 v1]|] eqn:E1; cbn in H; [|done].
    destruct (map_entries f h1 es) as [[h2 es2]|] eqn:E2; cbn in H; [|done].
    injection H as <- <-.
    apply Forall_cons in Hall as [Hv Hrest]. cbn in Hv.
    destruct (Hf _ _ _ _ Hc Hv E1) as (Hp1 & Hc1 & Hb1 & Hf1).
    destruct (IH h1 h2 es2 Hc1) as (Hp2 & Hc2 & HF2); [|done|].
    { eapply Forall_impl; [exact Hrest|]. intros kv Hkv.
      eapply below_mono; [|exact Hkv]. by apply prefix_length. }
    split; [by etrans|]. split; [done|]. constructor; cbn.
    + split; [eapply below_mono; [|exact Hb1]; by apply prefix_length|].
      eapply fresh_grows; [exact Hc1|exact Hb1|by apply grows_prefix|exact Hf1].
    + eapply Forall_impl; [exact HF2|]. intros kv [? Hfr]. split; [done|].
      eapply fresh_weaken; [|exact Hfr]. by apply prefix_length.
Qed.

Lemma deepCopy_fresh fuel :
  forall d h v h' v',
    closedP h -> below (length h) v -> deepCopy fuel h v = Some (h', v') ->
    h `prefix_of` h' /\ closedP h' /\ below (length h') v' /\
    fresh d (length h) h' v'.
Proof.
  induction fuel as [|fuel IH]; intros d h v h' v' Hc Hv H; cbn in H; [done|].
  destruct (isObject h v) eqn:Hobj.
  - destruct (map_entries (deepCopy fuel) h (own_props h v)) as [[h1 copied]|] eqn:E;
      cbn in H; [|done].
    injection H as <- <-.
    destruct (map_entries_fresh (pred d) (deepCopy fuel) (IH (pred d)) _ _ _ _ Hc
                (closedP_own_props h v Hc) E) as (Hp1 & Hc1 & HF).
    assert (h1 `prefix_of` h1 ++ [CObj copied]) as Hp2 by (by eexists).
    split; [by etrans|]. split; [|split].
    + apply closedP_alloc; [done|]. cbn. eapply Forall_impl; [exact HF|].
      by intros kv [? _].
    + cbn. rewrite length_app. cbn. lia.
    + destruct d as [|d]; [done|]. cbn [fresh pred] in *. intros _.
      exists (length h1), copied.
      split_and!; [done|by apply prefix_length|by rewrite lookup_app_r, Nat.sub_diag|].
      intros key w Hw. apply lookup_prop_Some_elem in Hw.
      rewrite Forall_forall in HF. destruct (HF _ Hw) as [Hb Hfr]. cbn in *.
      eapply fresh_grows; [exact Hc1|exact Hb|by apply grows_prefix|exact Hfr].
  - injection H as <- <-. split; [done|]. split; [done|]. split; [done|].
    destruct d; [done|]. cbn [fresh]. intros Ho. congruence.
Qed.

(** *** The loop of deepMergeConfig *)

Section AssignFresh.

Variable body : heap -> string -> option (heap * value).
Variables r d : nat.

Hypothesis body_fresh :
  forall h key h1 v, closedP h -> (r < length h)%nat -> body h key = Some (h1, v) ->
    h `prefix_of` h1 /\ closedP h1 /\ below (length h1) v /\ fresh d (S r) h1 v.

Lemma assign_each_fresh keys :
  forall (done : list string) h h' cur,
    closedP h -> h !! r = Some (CObj cur) ->
    (forall key w, lookup_prop key cur = Some w ->
       key ∈ done /\ fresh d (S r) h w \/ key ∈ keys) ->
    assign_each body r keys h = Some h' ->
    closedP h' /\ (length h <= length h')%nat /\
    exists cur', h' !! r = Some (CObj cur') /\
      forall key w, lookup_prop key cur' = Some w -> fresh d (S r) h' w.
Proof.
  induction keys as [|k keys IH]; intros done h h' cur Hc Hr Hinv H; cbn in H.
  - injection H as <-. split; [done|]. split; [done|]. exists cur. split; [done|].
    intros key w Hw.
    destruct (Hinv key w Hw) as [[_ ?]|Hin]; [done|by apply elem_of_nil in Hin].
  - destruct (body h k) as [[h1 v]|] eqn:E; cbn in H; [|done].
    assert (r < length h)%nat as Hlt by (by eapply lookup_lt_Some).
    destruct (body_fresh _ _ _ _ Hc Hlt E) as (Hp1 & Hc1 & Hb1 & Hf1).
    assert (h1 !! r = Some (CObj cur)) as Hr1 by (by eapply prefix_lookup_Some).
    destruct (IH (k :: done) (store_prop h1 r k v) h' (set_prop k v cur))
      as (Hc' & Hlen' & cur' & Hr' & Hall'); try done.
    + by apply closedP_store.
    + by apply store_prop_lookup.
    + intros key w Hw. rewrite lookup_prop_set_prop in Hw.
      destruct (decide (k = key)) as [<-|Hne].
      * injection Hw as <-. left. split; [apply elem_of_cons; by left|].
        eapply fresh_grows; [exact Hc1|exact Hb1|apply grows_store|exact Hf1].
      * destruct (Hinv key w Hw) as [[Hd Hfr]|Hin].
        -- left. split; [apply elem_of_cons; by right|].
           eapply fresh_grows; [exact Hc1| |apply grows_store|].
           ++ by eapply closedP_lookup_prop.
           ++ eapply fresh_grows; [exact Hc| |by apply grows_prefix|exact Hfr].
              by eapply closedP_lookup_prop.
        -- right. by apply elem_of_cons in Hin as [->|Hin].
    + split; [done|]. split; [|by exists cur'].
      rewrite store_prop_length in Hlen'. apply prefix_length in Hp1. lia.
Qed.

End AssignFresh.

Lemma deepMergeConfig_fresh fuel :
  forall d h t s h' r,
    closedP h -> deepMergeConfig fuel h t s = Some (h', r) ->
    h `prefix_of` h' /\ closedP h' /\ below (length h') r /\
    fresh d (length h) h' r.
Proof.
  induction fuel as [|fuel IH]; intros d h t s h' r Hc H; [done|].
  pose proof (deepMergeConfig_prefix _ _ _ _ _ _ H) as Hp.
  cbn [deepMergeConfig] in H. cbv zeta in H.
  set (props0 := spread2 (own_props h t) (own_props h s)) in *.
  match type of H with
  | context [assign_each ?b _ _ _] => set (body := b) in *
  end.
  destruct (assign_each body (length h) (map fst props0) (h ++ [CObj props0]))
    as [h1|] eqn:E; cbn in H; [|done].
  injection H as <- <-.
  destruct (assign_each_fresh body (length h) (pred d)) with
    (keys := map fst props0) (done := @nil string) (h := h ++ [CObj props0])
    (h' := h1) (cur := props0) as (Hc1 & Hlen1 & cur' & Hr1 & Hch); try done.
  - intros hc key h2 v Hhc Hlt Hb. unfold body in Hb.
    destruct (isObject hc (get hc t key) && isObject hc (get hc s key)).
    + destruct (IH (pred d) _ _ _ _ _ Hhc Hb) as (Hp2 & Hc2 & Hb2 & Hf2).
      split_and!; try done. eapply fresh_weaken; [|exact Hf2]. lia.
    + destruct (deepCopy_fresh fuel (pred d) _ _ _ _ Hhc (closedP_get _ _ _ Hhc) Hb)
        as (Hp2 & Hc2 & Hb2 & Hf2).
      split_and!; try done. eapply fresh_weaken; [|exact Hf2]. lia.
  - apply closedP_alloc; [done|]. cbn.
    apply (spread2_Forall (below (length h))); by apply closedP_own_props.
  - by rewrite lookup_app_r, Nat.sub_diag.
  - intros key w Hw. right. apply lookup_prop_Some_elem in Hw.
    change (map fst props0) with (props0.*1).
    by apply (list_elem_of_fmap_2 fst _ (key, w)).
  - split; [done|]. split; [done|]. split.
    + cbn. by eapply lookup_lt_Some.
    + destruct d as [|d]; [done|]. cbn [fresh pred] in *. intros _.
      exists (length h), cur'. split_and!; try done.
      intros key w Hw. eapply fresh_weaken; [|by eapply Hch]. lia.
Qed.

(** *** Properties of what is no object *)

Lemma index_name_no_letter (i : nat) (c : ascii) (rest : string) :
  (c = "a" \/ c = "e" \/ c = "m")%char -> index_name i <> String c rest.
Proof.
  intros Hc. unfold index_name, num_toString.
  destruct (Z.of_nat i) as [|p|p]; cbn.
  - destruct Hc as [-> | [-> | ->]]; discriminate.
  - destruct (Pos.to_uint p); cbn; destruct Hc as [-> | [-> | ->]]; discriminate.
  - destruct Hc as [-> | [-> | ->]]; discriminate.
Qed.

Lemma lookup_prop_imap {A} (g : nat -> string) (f : nat -> A -> value)
    (l : list A) key :
  (forall i, g i <> key) ->
  lookup_prop key (imap (fun i x => (g i, f i x)) l) = None.
Proof.
  revert g f. induction l as [|x l IH]; intros g f Hg; cbn; [done|].
  rewrite decide_False by apply Hg.
  apply (IH (g ∘ S) (f ∘ S)). intros i. apply Hg.
Qed.

Lemma own_props_not_object h v key :
  isObject h v = false -> (forall i, index_name i <> key) ->
  lookup_prop key (own_props h v) = None.
Proof.
  intros Hobj Hkey. destruct v as [| | | |s|l]; try (cbn; done).
  - cbn. by apply (lookup_prop_imap index_name (fun _ c => VStr (String c EmptyString))).
  - unfold loc in l. rewrite isObject_ref in Hobj. rewrite own_props_ref.
    destruct (h !! l) as [[props|elems| |]|]; try done.
    by apply (lookup_prop_imap index_name (fun _ e => e)).
Qed.

Lemma get_not_object h v (c : ascii) (rest : string) :
  isObject h v = false -> (c = "a" \/ c = "e" \/ c = "m")%char ->
  get h v (String c rest) = VUndefined.
Proof.
  intros Hobj Hc. unfold get. rewrite own_props_not_object; [done|done|].
  intros i. by apply index_name_no_letter.
Qed.

Lemma fresh_get d lo h v key (l : nat) :
  fresh (S d) lo h v -> isObject h v = true -> get h v key = VRef l ->
  fresh d lo h (VRef l).
Proof.
  intros Hf Hobj Hget. destruct (Hf Hobj) as (lv & props & -> & _ & Hcell & Hch).
  rewrite (get_ref _ _ _ _ Hcell) in Hget.
  destruct (lookup_prop key props) as [w|] eqn:Hw; cbn in Hget; [|done].
  subst w. by eapply Hch.
Qed.

(** The object [merged.movable.events] of a merge, if it has the name
    [after], was allocated by the merge. *)
Lemma merged_events_fresh lo h merged (l : nat) :
  fresh 3 lo h merged ->
  get h (get h merged "movable") "events" = VRef l ->
  has_key h (VRef l) "after" = true ->
  (lo <= l)%nat.
Proof.
  intros Hf Hev Hkey.
  assert (isObject h (VRef l) = true) as Ho_ev.
  { destruct (isObject h (VRef l)) eqn:Ho; [done|].
    unfold has_key in Hkey. rewrite own_props_not_object in Hkey; [| done |].
    - apply bool_decide_eq_true in Hkey. by destruct Hkey.
    - intros i. apply index_name_no_letter. by left. }
  assert (isObject h (get h merged "movable") = true) as Ho_mv.
  { destruct (isObject h (get h merged "movable")) eqn:Ho; [done|].
    rewrite get_not_object in Hev; [done|done|]. right. by left. }
  assert (isObject h merged = true) as Ho_m.
  { destruct (isObject h merged) eqn:Ho; [done|].
    rewrite (get_not_object h merged) in Ho_mv; [done|done|]. right. by right. }
  destruct (get h merged "movable") as [| | | | |lm] eqn:Hmv; try done.
  pose proof (fresh_get 2 lo h merged "movable" lm Hf Ho_m Hmv) as Hf_mv.
  pose proof (fresh_get 1 lo h (VRef lm) "events" l Hf_mv Ho_mv Hev) as Hf_ev.
  destruct (Hf_ev Ho_ev) as (l' & props & [= <-] & Hle & _). exact Hle.
Qed.

End FreshFacts.

(** X25. In a store without dangling references, the plain objects that
    make up what [deepMergeConfig] returns are all new: the result, the
    objects it has as properties, theirs, and so on are plain objects
    allocated during the call, none is an object of the arguments. Nothing
    is asked of the arguments, so this holds for a configuration with a
    [Map] in it, as the default configuration. Arrays and functions are
    left out: the result has those of the arguments, as they are. The same
    holds of [deepCopy]. *)
Theorem merge_and_copy_allocate_their_objects (fuel d : nat) (h : Js.heap) :
  StoreSpec.closed h = true ->
  (forall t s h' r,
     Config.deepMergeConfig fuel h t s = Some (h', r) ->
     StoreSpec.fresh d (length h) h' r) /\
  (forall v h' v',
     StoreSpec.points_below (length h) v = true ->
     Config.deepCopy fuel h v = Some (h', v') ->
     StoreSpec.fresh d (length h) h' v').
Proof.
  intros Hcl%closed_closedP. split.
  - intros t s h' r H. by destruct (deepMergeConfig_fresh fuel d h t s h' r Hcl H) as (_ & _ & _ & ?).
  - intros v h' v' Hv%points_below_spec H.
    by destruct (deepCopy_fresh fuel d h v h' v' Hcl Hv H) as (_ & _ & _ & ?).
Qed.

Lemma merge_and_copy_allocate_their_objects_witness :
  (forall t s h' r,
     Config.deepMergeConfig 8 DefaultConfig.initial_heap t s = Some (h', r) ->
     StoreSpec.fresh 3 (length DefaultConfig.initial_heap) h' r) /\
  (forall v h' v',
     StoreSpec.points_below (length DefaultConfig.initial_heap) v = true ->
     Config.deepCopy 8 DefaultConfig.initial_heap v = Some (h', v') ->
     StoreSpec.fresh 3 (length DefaultConfig.initial_heap) h' v').
Proof.
  apply (merge_and_copy_allocate_their_objects 8 3 DefaultConfig.initial_heap).
  vm_compute. reflexivity.
Defined.

(** ** Merging with the empty object, and the round trip of a difference *)







(** ** What [fullRerender] and [possibleMoves] put in their maps *)

Section MapFacts.

Import Board.

Context {V : Type}.

Lemma map_set_keys (key : string) (v : V) (m : list (string * V)) :
  (map_set key v m).*1 = if decide (key ∈ m.*1) then m.*1 else m.*1 ++ [key].
Proof.
  induction m as [|[k w] m IH]; cbn [map_set].
  - rewrite decide_False; [reflexivity|]. cbn. apply not_elem_of_nil.
  - cbn [fmap list_fmap fst]. destruct (decide (k = key)) as [->|Hne].
    + rewrite decide_True; [reflexivity|]. apply elem_of_cons. by left.
    + cbn [fmap list_fmap fst]. change (list_fmap _ _ fst ?l) with (l.*1).
      rewrite IH. destruct (decide (key ∈ m.*1)) as [Hin|Hnin].
      * rewrite decide_True; [reflexivity|]. apply elem_of_cons. by right.
      * rewrite decide_False; [reflexivity|].
        intros [?|?]%elem_of_cons; [congruence|done].
Qed.

Lemma map_set_keys_incl (key k : string) (v : V) (m : list (string * V)) :
  k ∈ m.*1 -> k ∈ (map_set key v m).*1.
Proof.
  intros Hk. rewrite map_set_keys. destruct (decide _); [done|].
  apply elem_of_app. by left.
Qed.

Lemma map_set_key_in (key : string) (v : V) (m : list (string * V)) :
  key ∈ (map_set key v m).*1.
Proof.
  rewrite map_set_keys. destruct (decide _); [done|].
  apply elem_of_app. right. apply elem_of_cons. by left.
Qed.

Lemma map_set_NoDup (key : string) (v : V) (m : list (string * V)) :
  NoDup m.*1 -> NoDup (map_set key v m).*1.
Proof.
  intros Hnd. rewrite map_set_keys. destruct (decide _) as [|Hnin]; [done|].
  apply NoDup_app. split; [done|]. split.
  - intros x Hx [->|Hx']%elem_of_cons; [done|by apply elem_of_nil in Hx'].
  - apply NoDup_singleton.
Qed.

Lemma elem_of_map_set (key : string) (v : V) (m : list (string * V))
    (k : string) (x : V) :
  NoDup m.*1 ->
  (k, x) ∈ map_set key v m <->
  (k = key /\ x = v) \/ (k <> key /\ (k, x) ∈ m).
Proof.
  induction m as [|[k0 w] m IH]; intros Hnd; cbn [map_set].
  - split.
    + intros [Heq|Hin]%elem_of_cons; [left; by injection Heq|by apply elem_of_nil in Hin].
    + intros [[-> ->]|[_ Hin]]; [apply elem_of_cons; by left|by apply elem_of_nil in Hin].
  - cbn [fmap list_fmap fst] in Hnd. apply NoDup_cons in Hnd as [Hk0 Hnd].
    destruct (decide (k0 = key)) as [->|Hne].
    + split.
      * intros [Heq|Hin]%elem_of_cons; [left; by injection Heq|].
        right. split; [|apply elem_of_cons; by right].
        intros ->. apply Hk0. by apply (list_elem_of_fmap_2 fst _ (key, x)).
      * intros [[-> ->]|[Hk Hin]]; [apply elem_of_cons; by left|].
        apply elem_of_cons in Hin as [Heq|Hin]; [congruence|].
        apply elem_of_cons. by right.
    + split.
      * intros [Heq|Hin]%elem_of_cons.
        -- injection Heq as -> ->. right. split; [done|apply elem_of_cons; by left].
        -- apply (proj1 (IH Hnd)) in Hin as [?|[? ?]]; [by left|].
           right. split; [done|apply elem_of_cons; by right].
      * intros [[-> ->]|[Hk Hin]].
        -- apply elem_of_cons. right. apply (proj2 (IH Hnd)). by left.
        -- apply elem_of_cons in Hin as [Heq|Hin]; [apply elem_of_cons; by left|].
           apply elem_of_cons. right. apply (proj2 (IH Hnd)). right. by split.
Qed.

End MapFacts.

Section BoardFacts.

Import Board.

Context {E : NichessApi}.

Lemma square_indices_spec (i : Z) :
  i ∈ square_indices <-> 0 <= i < NUM_SQUARES.
Proof.
  unfold square_indices. change (map Z.of_nat ?l) with (Z.of_nat <$> l).
  rewrite list_elem_of_fmap. split.
  - intros (n & -> & Hn). apply elem_of_seq in Hn. lia.
  - intros Hi. exists (Z.to_nat i). split; [lia|]. apply elem_of_seq. lia.
Qed.

Lemma square_indices_NoDup : NoDup square_indices.
Proof.
  unfold square_indices. change (map Z.of_nat ?l) with (Z.of_nat <$> l).
  apply NoDup_fmap_2; [intros x y; lia|apply NoDup_seq].
Qed.

(** The first loop of [fullRerender]. *)
Lemma clear_loop_spec (indices : list Z) (m : list (string * option PieceView)) :
  NoDup m.*1 ->
  NoDup (fold_left (fun diff i => map_set (squareIndexToKey (Int i)) None diff)
           indices m).*1 /\
  forall k v,
    (k, v) ∈ fold_left (fun diff i => map_set (squareIndexToKey (Int i)) None diff)
               indices m <->
    (k ∈ (fun i => squareIndexToKey (Int i)) <$> indices) /\ v = None \/
    (k ∉ (fun i => squareIndexToKey (Int i)) <$> indices) /\ (k, v) ∈ m.
Proof.
  revert m. induction indices as [|i indices IH]; intros m Hnd; cbn [fold_left].
  - split; [done|]. intros k v. cbn. split.
    + intros Hin. right. split; [apply not_elem_of_nil|done].
    + intros [[Hin _]|[_ Hin]]; [by apply elem_of_nil in Hin|done].
  - destruct (IH (map_set (squareIndexToKey (Int i)) None m)
                (map_set_NoDup _ _ _ Hnd)) as [Hnd' Hspec].
    split; [done|]. intros k v. rewrite Hspec, (elem_of_map_set _ _ _ _ _ Hnd).
    cbn [fmap list_fmap]. change (list_fmap _ _ ?f ?l) with (f <$> l).
    rewrite !elem_of_cons.
    destruct (decide (k ∈ (fun i => squareIndexToKey (Int i)) <$> indices)).
    + split; [intros [[_ ->]|[? _]]; [|done]|intros [[_ ->]|[Hn _]]].
      * left. split; [by right|done].
      * left. by split.
      * exfalso. apply Hn. by right.
    + split.
      * intros [[? _]|[_ [[-> ->]|[Hne Hin]]]]; [done| |].
        -- left. split; [by left|done].
        -- right. split; [|done]. intros [?|?]; done.
      * intros [[[->|?] ->]|[Hn Hin]]; [| done |].
        -- right. split; [done|]. by left.
        -- right. split; [done|]. right. split; [|done].
           intros ->. apply Hn. by left.
Qed.

(** The loops of [fullRerender] over the pieces of a player. *)
Lemma set_player_pieces_app (ps1 ps2 : list Piece)
    (d : list (string * option PieceView)) :
  set_player_pieces ps2 (set_player_pieces ps1 d) = set_player_pieces (ps1 ++ ps2) d.
Proof. unfold set_player_pieces. by rewrite fold_left_app. Qed.

Lemma set_player_pieces_cons (cp : Piece) (ps : list Piece)
    (d : list (string * option PieceView)) :
  set_player_pieces (cp :: ps) d
  = set_player_pieces ps
      (if healthPoints cp <=? 0 then d
       else map_set (squareIndexToKey (Int (squareIndex cp)))
              (Some {| role := nichessTypeToRole (piece_type cp);
                       color := nichessTypeToColor (piece_type cp);
                       view_healthPoints := healthPoints cp |}) d).
Proof. reflexivity. Qed.

Lemma set_player_pieces_sound (ps : list Piece)
    (d : list (string * option PieceView)) :
  NoDup d.*1 ->
  NoDup (set_player_pieces ps d).*1 /\
  (forall k, k ∈ d.*1 -> k ∈ (set_player_pieces ps d).*1) /\
  (forall k v, (k, v) ∈ set_player_pieces ps d ->
     (k, v) ∈ d \/
     exists cp, cp ∈ ps /\ 0 < healthPoints cp /\
       k = squareIndexToKey (Int (squareIndex cp)) /\
       v = Some {| role := nichessTypeToRole (piece_type cp);
                   color := nichessTypeToColor (piece_type cp);
                   view_healthPoints := healthPoints cp |}).
Proof.
  revert d. induction ps as [|cp ps IH]; intros d Hnd.
  - cbn. split; [done|]. split; [done|]. intros k v Hin. by left.
  - rewrite set_player_pieces_cons.
    destruct (Z.leb_spec (healthPoints cp) 0) as [Hdead|Halive].
    + destruct (IH d Hnd) as (Hnd' & Hk & Hv). split; [done|]. split; [done|].
      intros k v Hin. destruct (Hv k v Hin) as [?|(cp' & ? & ?)]; [by left|].
      right. exists cp'. split; [apply elem_of_cons; by right|done].
    + match goal with |- context [set_player_pieces ps ?d'] =>
        destruct (IH d' (map_set_NoDup _ _ _ Hnd)) as (Hnd' & Hk & Hv) end.
      split; [done|]. split.
      * intros k Hin. apply Hk. by apply map_set_keys_incl.
      * intros k v Hin. destruct (Hv k v Hin) as [Hin'|(cp' & ? & ?)].
        -- apply (elem_of_map_set _ _ _ _ _ Hnd) in Hin' as [[-> ->]|[_ ?]];
             [|by left].
           right. exists cp. split; [apply elem_of_cons; by left|done].
        -- right. exists cp'. split; [apply elem_of_cons; by right|done].
Qed.

Lemma set_player_pieces_exact (ps : list Piece)
    (d : list (string * option PieceView)) :
  NoDup d.*1 ->
  NoDup ((fun cp => squareIndexToKey (Int (squareIndex cp)))
           <$> filter (fun cp => 0 < healthPoints cp) ps) ->
  forall k v,
    (k, v) ∈ set_player_pieces ps d <->
    (exists cp, cp ∈ ps /\ 0 < healthPoints cp /\
       k = squareIndexToKey (Int (squareIndex cp)) /\
       v = Some {| role := nichessTypeToRole (piece_type cp);
                   color := nichessTypeToColor (piece_type cp);
                   view_healthPoints := healthPoints cp |}) \/
    (forall cp, cp ∈ ps -> 0 < healthPoints cp ->
       k <> squareIndexToKey (Int (squareIndex cp))) /\ (k, v) ∈ d.
Proof.
  revert d. induction ps as [|cp ps IH]; intros d Hnd Hkeys k v.
  - cbn. split.
    + intros Hin. right. split; [|done]. intros cp Hcp. by apply elem_of_nil in Hcp.
    + intros [(cp & Hcp & _)|[_ ?]]; [by apply elem_of_nil in Hcp|done].
  - rewrite set_player_pieces_cons.
    destruct (Z.leb_spec (healthPoints cp) 0) as [Hdead|Halive].
    + rewrite filter_cons_False in Hkeys by lia.
      rewrite (IH d Hnd Hkeys). split.
      * intros [(cp' & Hcp' & Hrest)|[Hnone Hin]].
        -- left. exists cp'. split; [apply elem_of_cons; by right|done].
        -- right. split; [|done]. intros cp' [->|Hcp']%elem_of_cons; [lia|auto].
      * intros [(cp' & Hcp' & Hal & Hrest)|[Hnone Hin]].
        -- apply elem_of_cons in Hcp' as [->|Hcp']; [lia|].
           left. by exists cp'.
        -- right. split; [|done]. intros cp' Hcp'. apply Hnone.
           apply elem_of_cons. by right.
    + rewrite filter_cons_True in Hkeys by lia.
      cbn [fmap list_fmap] in Hkeys. change (list_fmap _ _ ?f ?l) with (f <$> l) in Hkeys.
      apply NoDup_cons in Hkeys as [Hfresh Hkeys].
      assert (forall cp', cp' ∈ ps -> 0 < healthPoints cp' ->
                squareIndexToKey (Int (squareIndex cp))
                <> squareIndexToKey (Int (squareIndex cp'))) as Hother.
      { intros cp' Hcp' Hal Heq. apply Hfresh. rewrite Heq.
        apply (list_elem_of_fmap_2 (fun cp => squareIndexToKey (Int (squareIndex cp)))).
        by apply list_elem_of_filter. }
      rewrite (IH _ (map_set_NoDup _ _ _ Hnd) Hkeys),
        (elem_of_map_set _ _ _ _ _ Hnd). split.
      * intros [(cp' & Hcp' & Hrest)|[Hnone [[-> ->]|[Hne Hin]]]].
        -- left. exists cp'. split; [apply elem_of_cons; by right|done].
        -- left. exists cp. split; [apply elem_of_cons; by left|done].
        -- right. split; [|done]. intros cp' [->|Hcp']%elem_of_cons; auto.
      * intros [(cp' & Hcp' & Hal & -> & ->)|[Hnone Hin]].
        -- apply elem_of_cons in Hcp' as [->|Hcp'].
           ++ right. split; [|by left]. intros cp' Hcp' Hal'. by apply Hother.
           ++ left. by exists cp'.
        -- right. split.
           ++ intros cp' Hcp'. apply Hnone. apply elem_of_cons. by right.
           ++ right. split; [|done]. apply Hnone; [apply elem_of_cons; by left|done].
Qed.

Lemma cleared_board :
  NoDup (fold_left (fun diff i => map_set (squareIndexToKey (Int i)) None diff)
           square_indices ([] : list (string * option PieceView))).*1 /\
  forall k v,
    (k, v) ∈ fold_left (fun diff i => map_set (squareIndexToKey (Int i)) None diff)
               square_indices ([] : list (string * option PieceView)) <->
    (exists i, 0 <= i < NUM_SQUARES /\ k = squareIndexToKey (Int i)) /\ v = None.
Proof.
  destruct (clear_loop_spec square_indices [] (NoDup_nil_2)) as [Hnd Hspec].
  split; [done|]. intros k v. rewrite Hspec, list_elem_of_fmap. split.
  - intros [[(i & -> & Hi) ->]|[_ Hin]]; [|by apply elem_of_nil in Hin].
    split; [|done]. exists i. by rewrite <- square_indices_spec.
  - intros [(i & Hi & ->) ->]. left. split; [|done].
    exists i. by rewrite square_indices_spec.
Qed.

End BoardFacts.

Section PossibleMovesFacts.

Import Board.

Context {E : NichessApi}.

Variable game : engine.

Lemma possibleMoves_loop_spec (indices : list Z) (d : list (string * list string)) :
  NoDup d.*1 ->
  NoDup ((fun i => squareIndexToKey (Int i)) <$> indices) ->
  NoDup (fold_left
           (fun dests i =>
              let legalMoves := legalActionsBySquare (Int i) game in
              match legalMoves with
              | [] => dests
              | _ =>
                  let srcKey := squareIndexToKey (Int i) in
                  map_set srcKey
                    (map (fun m => squareIndexToKey (Int (dstIdx m))) legalMoves) dests
              end) indices d).*1 /\
  forall k ds,
    (k, ds) ∈ fold_left
           (fun dests i =>
              let legalMoves := legalActionsBySquare (Int i) game in
              match legalMoves with
              | [] => dests
              | _ =>
                  let srcKey := squareIndexToKey (Int i) in
                  map_set srcKey
                    (map (fun m => squareIndexToKey (Int (dstIdx m))) legalMoves) dests
              end) indices d <->
    (exists i, i ∈ indices /\ legalActionsBySquare (Int i) game <> [] /\
       k = squareIndexToKey (Int i) /\
       ds = map (fun m => squareIndexToKey (Int (dstIdx m)))
              (legalActionsBySquare (Int i) game)) \/
    (forall i, i ∈ indices -> legalActionsBySquare (Int i) game <> [] ->
       k <> squareIndexToKey (Int i)) /\ (k, ds) ∈ d.
Proof.
  revert d. induction indices as [|i indices IH]; intros d Hnd Hkeys.
  - cbn [fold_left]. split; [done|]. intros k ds. split.
    + intros Hin. right. split; [|done]. intros i Hi. by apply elem_of_nil in Hi.
    + intros [(i & Hi & _)|[_ ?]]; [by apply elem_of_nil in Hi|done].
  - cbn [fmap list_fmap] in Hkeys. change (list_fmap _ _ ?f ?l) with (f <$> l) in Hkeys.
    apply NoDup_cons in Hkeys as [Hfresh Hkeys].
    assert (forall j, j ∈ indices ->
              squareIndexToKey (Int i) <> squareIndexToKey (Int j)) as Hother.
    { intros j Hj Heq. apply Hfresh. rewrite Heq.
      by apply (list_elem_of_fmap_2 (fun i => squareIndexToKey (Int i))). }
    cbn [fold_left]. cbv zeta.
    destruct (legalActionsBySquare (Int i) game) as [|a acts] eqn:Hlegal.
    + destruct (IH d Hnd Hkeys) as [Hnd' Hspec]. split; [done|].
      intros k ds. rewrite Hspec. split.
      * intros [(j & Hj & Hrest)|[Hnone Hin]].
        -- left. exists j. split; [apply elem_of_cons; by right|done].
        -- right. split; [|done].
           intros j [->|Hj]%elem_of_cons; [by rewrite Hlegal|auto].
      * intros [(j & Hj & Hne & Hrest)|[Hnone Hin]].
        -- apply elem_of_cons in Hj as [->|Hj]; [by rewrite Hlegal in Hne|].
           left. by exists j.
        -- right. split; [|done]. intros j Hj. apply Hnone.
           apply elem_of_cons. by right.
    + match goal with |- context [fold_left _ indices ?d'] =>
        destruct (IH d' (map_set_NoDup _ _ _ Hnd) Hkeys) as [Hnd' Hspec] end.
      split; [done|]. intros k ds.
      rewrite Hspec, (elem_of_map_set _ _ _ _ _ Hnd). split.
      * intros [(j & Hj & Hrest)|[Hnone [[-> ->]|[Hne Hin]]]].
        -- left. exists j. split; [apply elem_of_cons; by right|done].
        -- left. exists i. split; [apply elem_of_cons; by left|].
           rewrite Hlegal. done.
        -- right. split; [|done]. intros j [->|Hj]%elem_of_cons; auto.
      * intros [(j & Hj & Hne & -> & ->)|[Hnone Hin]].
        -- apply elem_of_cons in Hj as [->|Hj].
           ++ right. split; [|left; by rewrite Hlegal].
              intros j Hj _. by apply Hother.
           ++ left. by exists j.
        -- right. split.
           ++ intros j Hj. apply Hnone. apply elem_of_cons. by right.
           ++ right. split; [|done].
              apply Hnone; [apply elem_of_cons; by left|by rewrite Hlegal].
Qed.

Lemma possibleMoves_spec :
  0 < NUM_ROWS <= 8 -> NUM_SQUARES <= 9 * NUM_ROWS ->
  NoDup (possibleMoves game).*1 /\
  forall k ds,
    (k, ds) ∈ possibleMoves game <->
    exists i, 0 <= i < NUM_SQUARES /\ legalActionsBySquare (Int i) game <> [] /\
      k = squareIndexToKey (Int i) /\
      ds = map (fun m => squareIndexToKey (Int (dstIdx m)))
             (legalActionsBySquare (Int i) game).
Proof.
  intros HR HN.
  assert (NoDup ((fun i => squareIndexToKey (Int i)) <$> square_indices)) as Hkeys.
  { apply NoDup_fmap_2_strong; [|apply square_indices_NoDup].
    intros i j Hi%square_indices_spec Hj%square_indices_spec Heq.
    by apply (squareIndexToKey_inj NUM_ROWS NUM_SQUARES). }
  destruct (possibleMoves_loop_spec square_indices [] NoDup_nil_2 Hkeys)
    as [Hnd Hspec].
  split; [exact Hnd|]. intros k ds. unfold possibleMoves. rewrite Hspec. split.
  - intros [(i & Hi & Hrest)|[_ Hin]]; [|by apply elem_of_nil in Hin].
    exists i. by rewrite <- square_indices_spec.
  - intros (i & Hi & Hrest). left. exists i. by rewrite square_indices_spec.
Qed.

End PossibleMovesFacts.

Lemma num_strict_eq_Int (z : Z) (n : number) :
  num_strict_eq (Int z) n = true -> n = Int z.
Proof.
  destruct n as [|z']; cbn; [done|].
  intros H. f_equal. symmetry. by apply Z.eqb_eq.
Qed.

(** X15. [fullRerender] makes one call on the board, [setPieces], with a map
    that has one entry for each of its keys and a key for every square of
    the board; a piece it shows is a piece of one of the two players, with
    health points above 0, under the key of that piece's square, with the
    role and colour of the piece's type. A piece whose health points are 0
    or less is never shown. *)
Theorem fullRerender_shows_living_pieces {E : NichessApi} {B : Chessground}
    (cg : cg_state widget) (nichess : engine) :
  exists pieceDiff,
    Board.fullRerender cg nichess = cg_call (cg_setPieces pieceDiff) cg /\
    NoDup pieceDiff.*1 /\
    (forall i, 0 <= i < NUM_SQUARES ->
       Board.squareIndexToKey (Int i) ∈ pieceDiff.*1) /\
    (forall k p, (k, Some p) ∈ pieceDiff ->
       0 < view_healthPoints p /\
       exists player cp,
         cp ∈ allPiecesByPlayer player nichess /\
         k = Board.squareIndexToKey (Int (squareIndex cp)) /\
         p = {| role := Board.nichessTypeToRole (piece_type cp);
                color := Board.nichessTypeToColor (piece_type cp);
                view_healthPoints := healthPoints cp |}).
Proof.
  exists (Board.pieceDiff_of nichess). split; [reflexivity|].
  unfold Board.pieceDiff_of. cbv zeta.
  destruct cleared_board as [Hnd0 Hcleared].
  set (cleared := fold_left _ Board.square_indices []) in *.
  set (cur := allPiecesByPlayer (currentPlayer nichess) nichess).
  set (oth := allPiecesByPlayer (other_player (currentPlayer nichess)) nichess).
  destruct (set_player_pieces_sound cur cleared Hnd0) as (Hnd1 & Hk1 & Hv1).
  destruct (set_player_pieces_sound oth _ Hnd1) as (Hnd2 & Hk2 & Hv2).
  split; [done|]. split.
  - intros i Hi. apply Hk2, Hk1.
    apply (list_elem_of_fmap_2 fst _ (Board.squareIndexToKey (Int i), None)).
    apply Hcleared. split; [by exists i|done].
  - intros k p Hin.
    destruct (Hv2 _ _ Hin) as [Hin1|(cp & Hcp & Hal & -> & Hp)].
    + destruct (Hv1 _ _ Hin1) as [Hin0|(cp & Hcp & Hal & -> & Hp)].
      * apply Hcleared in Hin0 as [_ ?]. done.
      * injection Hp as ->. split; [done|]. by exists (currentPlayer nichess), cp.
    + injection Hp as ->. split; [done|].
      by exists (other_player (currentPlayer nichess)), cp.
Qed.

(** X16. When no two pieces with health points above 0 are on squares of
    the same key, the map [fullRerender] gives the board is exactly this:
    each such piece of either player under the key of its square, and
    [undefined] under the key of every square of the board where there is
    none. *)
Theorem fullRerender_exact {E : NichessApi} (nichess : engine) :
  NoDup ((fun cp => Board.squareIndexToKey (Int (squareIndex cp)))
           <$> filter (fun cp => 0 < healthPoints cp)
                 (allPiecesByPlayer (currentPlayer nichess) nichess
                  ++ allPiecesByPlayer (other_player (currentPlayer nichess))
                       nichess)) ->
  forall k v,
    (k, v) ∈ Board.pieceDiff_of nichess <->
    (exists cp,
       cp ∈ allPiecesByPlayer (currentPlayer nichess) nichess
            ++ allPiecesByPlayer (other_player (currentPlayer nichess)) nichess /\
       0 < healthPoints cp /\
       k = Board.squareIndexToKey (Int (squareIndex cp)) /\
       v = Some {| role := Board.nichessTypeToRole (piece_type cp);
                   color := Board.nichessTypeToColor (piece_type cp);
                   view_healthPoints := healthPoints cp |}) \/
    (forall cp,
       cp ∈ allPiecesByPlayer (currentPlayer nichess) nichess
            ++ allPiecesByPlayer (other_player (currentPlayer nichess)) nichess ->
       0 < healthPoints cp ->
       k <> Board.squareIndexToKey (Int (squareIndex cp))) /\
    (exists i, 0 <= i < NUM_SQUARES /\ k = Board.squareIndexToKey (Int i)) /\
    v = None.
Proof.
  intros Hkeys k v. unfold Board.pieceDiff_of. cbv zeta.
  rewrite set_player_pieces_app.
  destruct cleared_board as [Hnd0 Hcleared].
  rewrite (set_player_pieces_exact _ _ Hnd0 Hkeys k v), Hcleared. reflexivity.
Qed.

Lemma fullRerender_exact_witness :
  let start : @engine Stub.stub_engine := Stub.start_position in
  (("e1", Some {| role := "king"; color := "white"; view_healthPoints := 10 |})
     ∈ Board.pieceDiff_of start) /\
  (("e4", None) ∈ Board.pieceDiff_of start).
Proof.
  intros start.
  assert (Hkeys :
    NoDup ((fun cp => Board.squareIndexToKey (E := Stub.stub_engine)
                        (Int (squareIndex cp)))
             <$> filter (fun cp => 0 < healthPoints cp)
                   (allPiecesByPlayer (currentPlayer start) start
                    ++ allPiecesByPlayer (other_player (currentPlayer start))
                         start))).
  { apply (bool_decide_unpack _); vm_compute; exact I. }
  split.
  - apply (fullRerender_exact start Hkeys).
    left. exists {| piece_type := P1_KING; squareIndex := 4; healthPoints := 10 |}.
    split; [|split; [cbn; lia|split; reflexivity]].
    apply (list_elem_of_lookup_2 _ 4%nat). vm_compute. reflexivity.
  - apply (fullRerender_exact start Hkeys).
    right. split; [|split; [exists 28; split; [cbn; lia|reflexivity]|reflexivity]].
    apply (proj1 (Forall_forall
             (fun cp => 0 < healthPoints cp ->
                        "e4" <> Board.squareIndexToKey (E := Stub.stub_engine)
                                  (Int (squareIndex cp))) _)).
    apply (bool_decide_unpack _); vm_compute; exact I.
Defined.

(** X17. On a board of at most eight columns and nine ranks, the map
    [possibleMoves] returns has one entry for each square of the board from
    which the engine has a legal action, under the key of that square, with
    the keys of the destinations of these actions in the engine's order; it
    has no other entry and no entry with an empty list. *)
Theorem possibleMoves_exact {E : NichessApi} (game : engine) :
  0 < NUM_ROWS <= 8 -> NUM_SQUARES <= 9 * NUM_ROWS ->
  NoDup (Board.possibleMoves game).*1 /\
  (forall k ds,
     (k, ds) ∈ Board.possibleMoves game <->
     exists i, 0 <= i < NUM_SQUARES /\
       legalActionsBySquare (Int i) game <> [] /\
       k = Board.squareIndexToKey (Int i) /\
       ds = map (fun m => Board.squareIndexToKey (Int (dstIdx m)))
              (legalActionsBySquare (Int i) game)) /\
  (forall k, (k, []) ∉ Board.possibleMoves game).
Proof.
  intros HR HN. destruct (possibleMoves_spec game HR HN) as [Hnd Hspec].
  split; [exact Hnd|]. split; [exact Hspec|].
  intros k Hin. apply Hspec in Hin as (i & _ & Hne & _ & Hds).
  destruct (legalActionsBySquare (Int i) game); [done|discriminate].
Qed.

Lemma possibleMoves_exact_witness :
  let start : @engine Stub.stub_engine := Stub.start_position in
  ("e2", ["e3"; "e4"]) ∈ Board.possibleMoves start /\
  (forall k, (k, []) ∉ Board.possibleMoves start).
Proof.
  intros start.
  assert (HR : 0 < @NUM_ROWS Stub.stub_engine <= 8) by (cbn; lia).
  assert (HN : @NUM_SQUARES Stub.stub_engine <= 9 * @NUM_ROWS Stub.stub_engine)
    by (cbn; lia).
  destruct (possibleMoves_exact start HR HN) as (_ & Hspec & Hnonempty).
  split; [|exact Hnonempty].
  apply Hspec. exists 12. split; [cbn; lia|].
  split; [vm_compute; discriminate|]. split; vm_compute; reflexivity.
Defined.

(** X18. On a board of at most eight columns and nine ranks, a move between
    two keys of the board that [isMoveLegal] accepts is among the moves
    [possibleMoves] gives the board: the map has an entry under the move's
    origin whose destinations contain the move's destination. *)
Theorem isMoveLegal_is_offered {E : NichessApi} {B : Chessground}
    (m : BoardApi.Move) (st : BoardApi.api) :
  0 < NUM_ROWS <= 8 -> NUM_SQUARES <= 9 * NUM_ROWS ->
  Coordinates.valid_key NUM_ROWS NUM_SQUARES (BoardApi.from m) ->
  Coordinates.valid_key NUM_ROWS NUM_SQUARES (BoardApi.to m) ->
  BoardApi.isMoveLegal m st = true ->
  exists ds,
    (BoardApi.from m, ds) ∈ Board.possibleMoves (BoardApi.game st) /\
    BoardApi.to m ∈ ds.
Proof.
  intros HR HN Hfrom Hto Hlegal.
  destruct (keyToSquareIndex_valid NUM_ROWS NUM_SQUARES _ HR HN Hfrom)
    as (i & Ei & Hi).
  pose proof (key_to_index_to_key NUM_ROWS NUM_SQUARES _ HR HN Hfrom) as Kfrom.
  pose proof (key_to_index_to_key NUM_ROWS NUM_SQUARES _ HR HN Hto) as Kto.
  unfold BoardApi.isMoveLegal, Board.keyToSquareIndex in Hlegal.
  cbv zeta in Hlegal. rewrite Ei in Hlegal.
  apply existsb_exists in Hlegal as (a & Ha & Heq).
  apply andb_true_iff in Heq as [_ Hdst]. apply num_strict_eq_Int in Hdst.
  exists (map (fun m => Board.squareIndexToKey (Int (dstIdx m)))
            (legalActionsBySquare (Int i) (BoardApi.game st))).
  split.
  - apply (possibleMoves_spec (BoardApi.game st) HR HN). exists i.
    split; [exact Hi|]. split.
    + intros Hnil. rewrite Hnil in Ha. destruct Ha.
    + split; [|reflexivity]. unfold Board.squareIndexToKey.
      by rewrite <- Ei, Kfrom.
  - apply list_elem_of_In, in_map_iff. exists a. split; [|exact Ha].
    unfold Board.squareIndexToKey. by rewrite <- Hdst, Kto.
Qed.

Lemma isMoveLegal_is_offered_witness :
  exists ds,
    ("e2", ds) ∈ Board.possibleMoves (BoardApi.game Stub.start_api) /\
    "e4" ∈ ds.
Proof.
  assert (HR : 0 < @NUM_ROWS Stub.stub_engine <= 8) by (cbn; lia).
  assert (HN : @NUM_SQUARES Stub.stub_engine <= 9 * @NUM_ROWS Stub.stub_engine)
    by (cbn; lia).
  apply (isMoveLegal_is_offered
           {| BoardApi.from := "e2"; BoardApi.to := "e4";
              BoardApi.promotion := None |} Stub.start_api HR HN).
  - exists 4, 2. cbn. repeat split; lia.
  - exists 4, 4. cbn. repeat split; lia.
  - vm_compute. reflexivity.
Defined.

(** ** The board API *)

(** Closed goals about the stand-ins are settled by evaluation, one conjunct
    at a time. *)
Ltac by_evaluation :=
  repeat match goal with |- _ /\ _ => split end;
  match goal with
  | |- _ <> _ => vm_compute; discriminate
  | |- _ = _ => vm_compute; reflexivity
  end.

Section ApiFacts.

Import BoardApi.

Context {E : NichessApi} {B : Chessground}.

Lemma game_emitEvents (st : api) : game (emitEvents st) = game st.
Proof. unfold emitEvents. destruct (isGameOver (game st)), (draw (game st)); reflexivity. Qed.

Lemma game_updateGameState (updateFen : bool) (st : api) :
  game (updateGameState updateFen st) = game st.
Proof.
  unfold updateGameState. rewrite game_emitEvents.
  destruct (negb _); [|reflexivity].
  destruct updateFen; cbn;
    match goal with |- context [if ?b then _ else _] => destruct b end;
    reflexivity.
Qed.

(** A move given as an object is applied whatever the engine says about
    it: the engine is asked to make the action, and the answer is [true]. *)
Lemma move_object_applied (m : Move) (emitEvent : bool) (st : api) :
  fst (move (ObjectMove m) emitEvent st) = true /\
  game (snd (move (ObjectMove m) emitEvent st))
  = makeAction (Board.keyToSquareIndex (from m)) (Board.keyToSquareIndex (to m))
      (game st).
Proof.
  split; [reflexivity|]. cbn [move snd].
  match goal with |- game (if ?b then _ else _) = _ => destruct b end;
    cbn [forbidMoves with_board nextTick game];
    rewrite game_updateGameState; destruct emitEvent; reflexivity.
Qed.

Lemma stopViewingHistory_id (st : api) : stopViewingHistory st = st.
Proof. unfold stopViewingHistory, viewHistory. now destruct (isEnabled _). Qed.

End ApiFacts.

(** C1: the code does not do what the claim says. From the start position
    [e2] to [e5] is no legal action of the engine ([isMoveLegal] says so),
    and [move] applies it all the same: it returns [true], the engine has
    made the action, the turn has passed to black and the pawn is shown on
    [e5]. *)
Theorem illegal_move_is_applied :
  let e2e5 := {| BoardApi.from := "e2"; BoardApi.to := "e5"; BoardApi.promotion := None |} in
  let after := snd (BoardApi.move (BoardApi.ObjectMove e2e5) true Stub.start_api) in
  BoardApi.isMoveLegal e2e5 Stub.start_api = false /\
  fst (BoardApi.move (BoardApi.ObjectMove e2e5) true Stub.start_api) = true /\
  BoardApi.game after
  = Stub.stub_makeAction (Int 12) (Int 36) (BoardApi.game Stub.start_api) /\
  BoardApi.game after <> BoardApi.game Stub.start_api /\
  BoardApi.getTurnColor Stub.start_api = white /\
  BoardApi.getTurnColor after = black /\
  Js.lookup_prop "e2" (map (fun kv => (kv.1, Js.VStr (role kv.2)))
                      (Stub.shown (cg_widget (BoardApi.board Stub.start_api))))
  = Some (Js.VStr "pawn") /\
  Js.lookup_prop "e5" (map (fun kv => (kv.1, Js.VStr (role kv.2)))
                      (Stub.shown (cg_widget (BoardApi.board after))))
  = Some (Js.VStr "pawn").
Proof. cbv zeta. by_evaluation. Qed.

(** C5: the code does not do what the claim says. The nine moves below are
    legal one after the other and the last captures the king: the game is
    over, [checkmate] is emitted and the board takes no more moves
    ([movable.color] is [undefined]). [move] still applies [h7] to [h6]: it
    returns [true] and the engine has made the action. *)
Theorem move_after_game_over_is_applied :
  let line := [("c2", "c4"); ("a7", "a6"); ("c4", "c5"); ("a6", "a5"); ("c5", "c6");
               ("a5", "a4"); ("c6", "d7"); ("a4", "a3"); ("d7", "e8")] in
  let over := Stub.play line Stub.start_api in
  let h7h6 := {| BoardApi.from := "h7"; BoardApi.to := "h6"; BoardApi.promotion := None |} in
  BoardApi.getIsGameOver over = true /\
  movable_color (BoardApi.board over) = None /\
  last (BoardApi.emitted over) = Some (BoardApi.ev_checkmate black) /\
  BoardApi.isMoveLegal h7h6 over = true /\
  fst (BoardApi.move (BoardApi.ObjectMove h7h6) true over) = true /\
  BoardApi.game (snd (BoardApi.move (BoardApi.ObjectMove h7h6) true over))
  = Stub.stub_makeAction (Int 55) (Int 47) (BoardApi.game over) /\
  BoardApi.game (snd (BoardApi.move (BoardApi.ObjectMove h7h6) true over))
  <> BoardApi.game over.
Proof. cbv zeta. by_evaluation. Qed.

Example game_over_line_is_legal :
  forallb
    (fun n =>
       let line := [("c2", "c4"); ("a7", "a6"); ("c4", "c5"); ("a6", "a5"); ("c5", "c6");
                    ("a5", "a4"); ("c6", "d7"); ("a4", "a3"); ("d7", "e8")] in
       match line !! n with
       | Some m =>
           BoardApi.isMoveLegal
             {| BoardApi.from := m.1; BoardApi.to := m.2; BoardApi.promotion := None |}
             (Stub.play (take n line) Stub.start_api)
       | None => false
       end)
    (seq 0 9) = true.
Proof. vm_compute. reflexivity. Qed.

(** C8: the code does not do what the claim says. [viewHistory] is left to
    do (its body is [// TODO] and [return;]), against its own description
    ("Views the position at the given ply number"): for every state and every
    ply it changes nothing, and so does [stopViewingHistory]. After three
    moves, [viewHistory(1)] leaves the history viewer off and the board
    showing the position after the third move (the knight on [f3], not on
    [g1]); a move made then goes to the live game, and
    [stopViewingHistory()] does not bring back the position from before
    [viewHistory(1)]. *)
Theorem viewHistory_views_nothing :
  (forall (E : NichessApi) (B : Chessground) (ply : Z) (st : BoardApi.api),
     BoardApi.viewHistory ply st = st /\ BoardApi.stopViewingHistory st = st) /\
  let st3 := Stub.play [("e2", "e4"); ("e7", "e5"); ("g1", "f3")] Stub.start_api in
  let viewing := BoardApi.viewHistory 1 st3 in
  let moved := snd (BoardApi.move (Stub.object_move "b8" "c6") true viewing) in
  let stopped := BoardApi.stopViewingHistory moved in
  let shown_on (st : @BoardApi.api Stub.stub_engine Stub.stub_board) (key : string) :=
    Js.lookup_prop key (map (fun kv => (kv.1, Js.VStr (role kv.2)))
                          (Stub.shown (cg_widget (BoardApi.board st)))) in
  BoardApi.getCurrentPlyNumber st3 = 3 /\
  BoardApi.historyViewerState (BoardApi.boardState viewing)
  = BoardApi.HistoryDisabled /\
  BoardApi.historyViewerState (BoardApi.boardState viewing)
  <> BoardApi.HistoryEnabled 1 true /\
  shown_on viewing "f3" = Some (Js.VStr "knight") /\
  shown_on viewing "g1" = None /\
  BoardApi.game moved
  = Stub.stub_makeAction (Int 57) (Int 42) (BoardApi.game st3) /\
  BoardApi.game stopped = BoardApi.game moved /\
  BoardApi.game stopped <> BoardApi.game st3.
Proof.
  split.
  - intros E B ply st. split; [reflexivity|apply stopViewingHistory_id].
  - cbv zeta. by_evaluation.
Qed.

(** C9. The six operations are left to do: in every state each leaves the
    state as it is, and those that return a value return an empty one
    ([undefined] for [getLastMove], [[]] for [getHistory] and
    [getBoardPosition], [{}] for [getPgnInfo]). *)
Theorem stubbed_operations {E : NichessApi} {B : Chessground}
    (st : BoardApi.api) (pgn : string) (verbose : bool) :
  BoardApi.undoLastMove st = st /\
  BoardApi.loadPgn pgn st = st /\
  BoardApi.getHistory verbose st = ([], st) /\
  BoardApi.getLastMove st = (None, st) /\
  BoardApi.getBoardPosition st = ([], st) /\
  BoardApi.getPgnInfo st = ([], st).
Proof. repeat match goal with |- _ /\ _ => split end; reflexivity. Qed.

(** C10. A move given as a string is never applied: [move] returns [false]
    and the state is the one before the call. *)
Theorem move_string_returns_false {E : NichessApi} {B : Chessground}
    (san : string) (emitEvent : bool) (st : BoardApi.api) :
  BoardApi.move (BoardApi.SanMove san) emitEvent st = (false, st).
Proof. reflexivity. Qed.

(** C2: the code does not do what the claim says. Without [fillDefaults],
    [setConfig] writes the patched function into the object it was given;
    given the same object again it patches the patched function, and a move
    made on the board then runs [changeTurn] twice (two [move] events, two
    actions of the engine) and the function of the host once. *)
Theorem setConfig_twice_runs_changeTurn_twice :
  Stub.set_twice_then_move Stub.host_after_config false = Some (2%nat, ["hostAfter"]) /\
  (exists h1 st1 h2 st2 st3 inner outer,
     BoardApi.setConfig 8 Stub.host_after_config.1 Stub.host_after_config.2 false
       Stub.start_api = Some (Coordinates.Return (h1, st1)) /\
     BoardApi.setConfig 8 h1 Stub.host_after_config.2 false st1
     = Some (Coordinates.Return (h2, st2)) /\
     Stub.after_slot (cg_widget (BoardApi.board st2)) = Js.VRef outer /\
     h2 !! outer = Some (Js.CFun (Js.AfterPatch (Js.VRef inner))) /\
     h2 !! inner = Some (Js.CFun (Js.AfterPatch (Js.VRef 52%nat))) /\
     h2 !! 52%nat = Some (Js.CFun (Js.HostFunction "hostAfter")) /\
     Stub.move_on_board 8 h2 "e2" "e4" st2 = Some (st3, ["hostAfter"]) /\
     BoardApi.game st3
     = Stub.stub_makeAction (Int 12) (Int 28)
         (Stub.stub_makeAction (Int 12) (Int 28) (BoardApi.game st2))).
Proof.
  split; [vm_compute; reflexivity|].
  let r1 := eval vm_compute in
      (BoardApi.setConfig 8 Stub.host_after_config.1 Stub.host_after_config.2 false
         Stub.start_api) in
  match r1 with
  | Some (Coordinates.Return (?h1, ?st1)) =>
      let r2 := eval vm_compute in
          (BoardApi.setConfig 8 h1 Stub.host_after_config.2 false st1) in
      match r2 with
      | Some (Coordinates.Return (?h2, ?st2)) =>
          let r3 := eval vm_compute in (Stub.move_on_board 8 h2 "e2" "e4" st2) in
          match r3 with
          | Some (?st3, _) => exists h1, st1, h2, st2, st3, 56%nat, 58%nat
          end
      end
  end.
  repeat match goal with |- _ /\ _ => split end;
    match goal with |- _ = ?rhs => vm_cast_no_check (@eq_refl _ rhs) end.
Qed.

(** With [fillDefaults] the patch goes into the merged copy, and the same
    object can be given again: one run of [changeTurn] for a move. *)
Example setConfig_twice_with_defaults :
  Stub.set_twice_then_move Stub.host_after_config true = Some (1%nat, ["hostAfter"]).
Proof. vm_compute. reflexivity. Qed.

(** ** What [move], [setPosition] and [isMoveLegal] do, for any engine and
    any board *)

Section ApiEffects.

Import BoardApi.

Context {E : NichessApi} {B : Chessground}.

Lemma emitEvents_effects (st : api) :
  board (emitEvents st) = board st /\
  boardState (emitEvents st) = boardState st /\
  props (emitEvents st) = props st /\
  ticks (emitEvents st) = ticks st /\
  emitted (emitEvents st)
  = emitted st
    ++ (if isGameOver (game st)
        then [if draw (game st) then ev_draw
              else ev_checkmate (turnColor (board st))]
        else []).
Proof.
  unfold emitEvents. destruct (isGameOver (game st)), (draw (game st)); cbn;
    rewrite ?app_nil_r; done.
Qed.

(** [updateGameState] while the history viewer is off. *)
Lemma updateGameState_live (updateFen : bool) (st : api) :
  isEnabled (historyViewerState (boardState st)) = false ->
  let shown := if updateFen
               then cg_call (cg_set_fen (boardToString (game st))) (board st)
               else board st in
  let st' := updateGameState updateFen st in
  turnColor (board st') = getTurnColor st /\
  movable_free (board st') = movable_free shown /\
  selected (board st') = selected shown /\
  cg_widget (board st') = cg_widget shown /\
  movable_color (board st')
  = Some (if movable_free shown then mc_both
          else match playerColor (props st) with
               | Some c => c
               | None => movable_of (getTurnColor st)
               end) /\
  movable_dests (board st')
  = Some (if movable_free shown then [] else Board.possibleMoves (game st)).
Proof.
  intros Hoff. cbv zeta. unfold updateGameState. rewrite Hoff. cbn [negb].
  match goal with |- context [emitEvents ?s] =>
    destruct (emitEvents_effects s) as (Hb & _); rewrite !Hb; clear Hb end.
  destruct updateFen; cbn;
    match goal with |- context [if ?b then _ else _] => destruct b eqn:Hfree end;
    cbn; rewrite ?Hfree; done.
Qed.

Lemma updateGameState_rest (updateFen : bool) (st : api) :
  boardState (updateGameState updateFen st) = boardState st /\
  props (updateGameState updateFen st) = props st /\
  ticks (updateGameState updateFen st) = ticks st /\
  exists c,
    emitted (updateGameState updateFen st)
    = emitted st
      ++ (if isGameOver (game st)
          then [if draw (game st) then ev_draw else ev_checkmate c]
          else []) /\
    (isEnabled (historyViewerState (boardState st)) = false ->
     c = getTurnColor st).
Proof.
  unfold updateGameState.
  match goal with |- context [emitEvents ?s] =>
    destruct (emitEvents_effects s) as (_ & Hbs & Hp & Ht & He);
    rewrite Hbs, Hp, Ht, He; clear Hbs Hp Ht He end.
  destruct (isEnabled (historyViewerState (boardState st))); cbn [negb].
  - split; [done|]. split; [done|]. split; [done|].
    exists (turnColor (board st)). split; [done|]. discriminate.
  - destruct updateFen; cbn;
      match goal with |- context [if movable_free ?b then _ else _] =>
        destruct (movable_free b) end; cbn;
      (split; [done|]); (split; [done|]); (split; [done|]);
      eexists; (split; [reflexivity|]); done.
Qed.

End ApiEffects.

Section MoveEffects.

Import BoardApi.

Context {E : NichessApi} {B : Chessground}.

Variable m : Move.
Variable emitEvent : bool.
Variable st : api.

(** The state [move] hands to [updateGameState]. *)
Lemma move_unfold :
  snd (move (ObjectMove m) emitEvent st)
  = let st1 := with_game (makeAction (Board.keyToSquareIndex (from m))
                            (Board.keyToSquareIndex (to m))) st in
    let st2 := with_board (cg_call (cg_move (from m) (to m))) st1 in
    let st3 := with_board (fun cg => Board.fullRerender cg (game st2)) st2 in
    let st4 := if emitEvent then emit (ev_move m) st3 else st3 in
    let st5 := nextTick task_playPremove (updateGameState false st4) in
    if isGameOver (game st5) then forbidMoves st5 else st5.
Proof. reflexivity. Qed.

End MoveEffects.

(** X19. What a [move] given as an object leaves behind, whatever the engine
    and the board: one [playPremove] scheduled for the next tick; the [move]
    event if it was asked for, followed, if the engine says the game is over
    after the action, by exactly one of [draw] (if the engine says draw) and
    [checkmate]; [boardState] and [props] as they were. Outside the history
    viewer the colour sent with [checkmate] is the colour of the engine's
    current player after the action. *)
Theorem move_events_and_tick {E : NichessApi} {B : Chessground}
    (m : BoardApi.Move) (emitEvent : bool) (st : BoardApi.api) :
  let after :=
    makeAction (Board.keyToSquareIndex (BoardApi.from m))
      (Board.keyToSquareIndex (BoardApi.to m)) (BoardApi.game st) in
  let st' := snd (BoardApi.move (BoardApi.ObjectMove m) emitEvent st) in
  BoardApi.ticks st' = BoardApi.ticks st ++ [BoardApi.task_playPremove] /\
  BoardApi.boardState st' = BoardApi.boardState st /\
  BoardApi.props st' = BoardApi.props st /\
  exists c,
    BoardApi.emitted st'
    = BoardApi.emitted st
      ++ (if emitEvent then [BoardApi.ev_move m] else [])
      ++ (if isGameOver after
          then [if draw after then BoardApi.ev_draw else BoardApi.ev_checkmate c]
          else []) /\
    (BoardApi.isEnabled
       (BoardApi.historyViewerState (BoardApi.boardState st)) = false ->
     c = match currentPlayer after with PLAYER_1 => white | PLAYER_2 => black end).
Proof.
  cbv zeta. rewrite move_unfold. cbv zeta.
  match goal with |- context [BoardApi.updateGameState false ?s] =>
    destruct (updateGameState_rest false s) as (Hbs & Hp & Ht & c & He & Hc);
    set (st4 := s) in * end.
  assert (forall s : BoardApi.api,
            BoardApi.ticks (if isGameOver (BoardApi.game s)
                            then BoardApi.forbidMoves s else s) = BoardApi.ticks s /\
            BoardApi.boardState (if isGameOver (BoardApi.game s)
                                 then BoardApi.forbidMoves s else s)
            = BoardApi.boardState s /\
            BoardApi.props (if isGameOver (BoardApi.game s)
                            then BoardApi.forbidMoves s else s) = BoardApi.props s /\
            BoardApi.emitted (if isGameOver (BoardApi.game s)
                              then BoardApi.forbidMoves s else s)
            = BoardApi.emitted s) as Hforbid.
  { intros s. destruct (isGameOver (BoardApi.game s)); done. }
  match goal with |- context [if isGameOver (BoardApi.game ?s) then _ else _] =>
    destruct (Hforbid s) as (-> & -> & -> & ->) end.
  cbn [BoardApi.nextTick BoardApi.ticks BoardApi.boardState BoardApi.props
       BoardApi.emitted].
  rewrite Hbs, Hp, Ht, He.
  assert (BoardApi.game st4
          = makeAction (Board.keyToSquareIndex (BoardApi.from m))
              (Board.keyToSquareIndex (BoardApi.to m)) (BoardApi.game st)) as Hg.
  { subst st4. destruct emitEvent; reflexivity. }
  rewrite Hg in *.
  subst st4. destruct emitEvent; cbn; (split; [done|]); (split; [done|]);
    (split; [done|]); exists c; rewrite <- ?app_assoc;
    (split; [done|]); intros Hoff; apply Hc; exact Hoff.
Qed.

(** X20. When the engine says the game is over after the action, [move]
    leaves the board closed to moves: [movable.color] is [undefined]. *)
Theorem move_that_ends_the_game_forbids_moves {E : NichessApi} {B : Chessground}
    (m : BoardApi.Move) (emitEvent : bool) (st : BoardApi.api) :
  isGameOver
    (makeAction (Board.keyToSquareIndex (BoardApi.from m))
       (Board.keyToSquareIndex (BoardApi.to m)) (BoardApi.game st)) = true ->
  movable_color
    (BoardApi.board (snd (BoardApi.move (BoardApi.ObjectMove m) emitEvent st)))
  = None.
Proof.
  intros Hover. rewrite move_unfold. cbv zeta.
  cbn [BoardApi.nextTick BoardApi.game]. rewrite game_updateGameState.
  replace (BoardApi.game (if emitEvent then _ else _))
    with (makeAction (Board.keyToSquareIndex (BoardApi.from m))
            (Board.keyToSquareIndex (BoardApi.to m)) (BoardApi.game st))
    by (destruct emitEvent; reflexivity).
  rewrite Hover. reflexivity.
Qed.

Lemma move_that_ends_the_game_forbids_moves_witness :
  let line := [("c2", "c4"); ("a7", "a6"); ("c4", "c5"); ("a6", "a5"); ("c5", "c6");
               ("a5", "a4"); ("c6", "d7"); ("a4", "a3")] in
  let before := Stub.play line Stub.start_api in
  movable_color
    (BoardApi.board
       (snd (BoardApi.move (Stub.object_move "d7" "e8") true before)))
  = None.
Proof.
  intros line before.
  apply (move_that_ends_the_game_forbids_moves
           {| BoardApi.from := "d7"; BoardApi.to := "e8";
              BoardApi.promotion := None |} true before).
  vm_compute. reflexivity.
Defined.

(** X21. Outside the history viewer, [move] leaves the board in step with
    the engine: the board's turn colour is the colour of the engine's
    current player, and unless the board is in free mode the destinations it
    is given are [possibleMoves] of the engine's new state (none in free
    mode). If the game is not over, the side allowed to move is [both] in
    free mode, else the player's colour if [props] has one, else the side to
    move. *)
Theorem move_keeps_board_in_step {E : NichessApi} {B : Chessground}
    (m : BoardApi.Move) (emitEvent : bool) (st : BoardApi.api) :
  BoardApi.isEnabled (BoardApi.historyViewerState (BoardApi.boardState st))
  = false ->
  let st' := snd (BoardApi.move (BoardApi.ObjectMove m) emitEvent st) in
  turnColor (BoardApi.board st') = BoardApi.getTurnColor st' /\
  movable_dests (BoardApi.board st')
  = Some (if movable_free (BoardApi.board st') then []
          else Board.possibleMoves (BoardApi.game st')) /\
  (isGameOver (BoardApi.game st') = false ->
   movable_color (BoardApi.board st')
   = Some (if movable_free (BoardApi.board st') then mc_both
           else match BoardApi.playerColor (BoardApi.props st') with
                | Some c => c
                | None => movable_of (BoardApi.getTurnColor st')
                end)).
Proof.
  intros Hoff. cbv zeta. rewrite move_unfold. cbv zeta.
  match goal with |- context [BoardApi.updateGameState false ?s] =>
    set (st4 := s) end.
  assert (BoardApi.isEnabled
            (BoardApi.historyViewerState (BoardApi.boardState st4)) = false) as Hoff4.
  { subst st4. destruct emitEvent; exact Hoff. }
  destruct (updateGameState_live false st4 Hoff4) as (Ht & Hf & _ & _ & Hc & Hd).
  destruct (updateGameState_rest false st4) as (_ & Hp & _).
  pose proof (game_updateGameState false st4) as Hg.
  cbv zeta in Ht, Hf, Hc, Hd.
  set (st5 := BoardApi.updateGameState false st4) in *.
  cbn [BoardApi.nextTick BoardApi.game].
  unfold BoardApi.getTurnColor in *.
  destruct (isGameOver (BoardApi.game st5)) eqn:Hover;
    cbn [BoardApi.forbidMoves BoardApi.with_board BoardApi.board BoardApi.game
         BoardApi.props BoardApi.nextTick BoardApi.set_movable_color turnColor
         movable_dests movable_free movable_color];
    rewrite ?Hover, Ht, Hd, Hf, Hg; (split; [done|]); (split; [done|]).
  - discriminate.
  - intros _. by rewrite Hc, Hp.
Qed.

Lemma move_keeps_board_in_step_witness :
  let st' := snd (BoardApi.move (Stub.object_move "e2" "e4") true Stub.start_api) in
  turnColor (BoardApi.board st') = BoardApi.getTurnColor st' /\
  movable_dests (BoardApi.board st')
  = Some (if movable_free (BoardApi.board st') then []
          else Board.possibleMoves (BoardApi.game st')) /\
  (isGameOver (BoardApi.game st') = false ->
   movable_color (BoardApi.board st')
   = Some (if movable_free (BoardApi.board st') then mc_both
           else match BoardApi.playerColor (BoardApi.props st') with
                | Some c => c
                | None => movable_of (BoardApi.getTurnColor st')
                end)).
Proof.
  apply (move_keeps_board_in_step
           {| BoardApi.from := "e2"; BoardApi.to := "e4";
              BoardApi.promotion := None |} true Stub.start_api).
  vm_compute. reflexivity.
Defined.

(** X22. [setPosition] loads the position into the engine, leaves the
    history viewer off and the board in step with the engine: the board has
    been sent the engine's position string, its turn colour is the colour of
    the engine's current player, and its destinations are [possibleMoves] of
    the loaded position (none in free mode). *)
Theorem setPosition_puts_board_in_step {E : NichessApi} {B : Chessground}
    (fen : string) (st : BoardApi.api) :
  let st' := BoardApi.setPosition fen st in
  let shown :=
    cg_call (cg_set_fen (boardToString (boardFromString fen (BoardApi.game st))))
      (BoardApi.board st) in
  BoardApi.game st' = boardFromString fen (BoardApi.game st) /\
  BoardApi.historyViewerState (BoardApi.boardState st') = BoardApi.HistoryDisabled /\
  BoardApi.showThreats (BoardApi.boardState st')
  = BoardApi.showThreats (BoardApi.boardState st) /\
  cg_widget (BoardApi.board st') = cg_widget shown /\
  turnColor (BoardApi.board st') = BoardApi.getTurnColor st' /\
  movable_dests (BoardApi.board st')
  = Some (if movable_free shown then []
          else Board.possibleMoves (BoardApi.game st')).
Proof.
  cbv zeta. unfold BoardApi.setPosition.
  match goal with |- context [BoardApi.updateGameState true ?s] =>
    set (st2 := s) end.
  assert (BoardApi.isEnabled
            (BoardApi.historyViewerState (BoardApi.boardState st2)) = false) as Hoff
    by reflexivity.
  destruct (updateGameState_live true st2 Hoff) as (Ht & Hf & _ & Hw & _ & Hd).
  destruct (updateGameState_rest true st2) as (Hbs & _).
  pose proof (game_updateGameState true st2) as Hg.
  cbv zeta in Ht, Hf, Hw, Hd.
  unfold BoardApi.getTurnColor in *.
  rewrite Hg, Hbs, Ht, Hd, Hw. done.
Qed.

(** X23. [isMoveLegal] answers [false], whatever the engine, for a move one
    of whose keys has no square index: the index of a key without a digit in
    second place is [NaN], and [NaN] is not [===] to any index. *)
Theorem isMoveLegal_needs_two_indices {E : NichessApi} {B : Chessground}
    (m : BoardApi.Move) (st : BoardApi.api) :
  Board.keyToSquareIndex (BoardApi.from m) = NaN \/
  Board.keyToSquareIndex (BoardApi.to m) = NaN ->
  BoardApi.isMoveLegal m st = false.
Proof.
  intros Hnan. unfold BoardApi.isMoveLegal. cbv zeta.
  apply not_true_is_false. intros (a & _ & Heq)%existsb_exists.
  apply andb_true_iff in Heq as [Hs Hd].
  apply num_strict_eq_Int in Hs. apply num_strict_eq_Int in Hd.
  destruct Hnan as [Hn|Hn]; congruence.
Qed.

Lemma isMoveLegal_needs_two_indices_witness :
  BoardApi.isMoveLegal
    {| BoardApi.from := "e"; BoardApi.to := "e4"; BoardApi.promotion := None |}
    Stub.start_api = false.
Proof.
  apply isMoveLegal_needs_two_indices. left. reflexivity.
Defined.

(** ** [setConfig] called again with the same configuration *)

Section PatchFacts.

Import Js BoardApi BoardApiRuns.

Context {E : NichessApi} {B : Chessground}.

(** The path [config.movable.events.after] in the store. *)
Definition after_path (h : heap) (c mv ev : nat) (f : value) : Prop :=
  exists pc pm pe,
    h !! c = Some (CObj pc) /\ lookup_prop "movable" pc = Some (VRef mv) /\
    h !! mv = Some (CObj pm) /\ lookup_prop "events" pm = Some (VRef ev) /\
    h !! ev = Some (CObj pe) /\ lookup_prop "after" pe = Some f.

Lemma after_path_get (h : heap) (c mv ev : nat) (f : value) :
  after_path h c mv ev f ->
  get h (get h (get h (VRef c) "movable") "events") "after" = f.
Proof.
  intros (pc & pm & pe & Hc & Hmv & Hm & Hev & He & Hf).
  rewrite (get_ref _ _ _ _ Hc), Hmv. cbn [default from_option id].
  rewrite (get_ref _ _ _ _ Hm), Hev. cbn [default from_option id].
  by rewrite (get_ref _ _ _ _ He), Hf.
Qed.

(** The store after one call. *)
Definition patched_store (h : heap) (c ev : nat) (f : value) : heap :=
  let h1 := h ++ [CFun (AfterPatch f)] in
  let h2 := store_prop h1 ev "after" (VRef (length h)) in
  h2 ++ [CObj (filter (fun kv => kv.1 <> "fen") (own_props h2 (VRef c)))].

Lemma patched_store_cell (h : heap) (c ev x : nat) (f : value) pe px :
  h !! ev = Some (CObj pe) -> h !! x = Some (CObj px) ->
  exists px',
    patched_store h c ev f !! x = Some (CObj px') /\
    (forall k, k <> "after" -> lookup_prop k px' = lookup_prop k px) /\
    (x = ev -> lookup_prop "after" px' = Some (VRef (length h))).
Proof.
  intros He Hx. unfold patched_store. cbv zeta.
  assert (x < length h)%nat as Hlt by (by eapply lookup_lt_Some).
  assert (ev < length h)%nat as Hlte by (by eapply lookup_lt_Some).
  unfold store_prop, loc. rewrite (lookup_app_l_Some _ _ _ _ He).
  destruct (decide (x = ev)) as [->|Hne].
  - exists (set_prop "after" (VRef (length h)) pe).
    assert (px = pe) as -> by congruence.
    split; [|split].
    + rewrite lookup_app_l by (rewrite length_insert, length_app; lia).
      apply list_lookup_insert_eq. rewrite length_app. lia.
    + intros k Hk. rewrite lookup_prop_set_prop. by rewrite decide_False.
    + intros _. rewrite lookup_prop_set_prop. by rewrite decide_True.
  - exists px. split; [|split; [done|done]].
    rewrite lookup_app_l by (rewrite length_insert, length_app; lia).
    rewrite list_lookup_insert_ne by done. by apply lookup_app_l_Some.
Qed.

Lemma patched_store_fun (h : heap) (c ev l : nat) (f : value) pe g :
  h !! ev = Some (CObj pe) -> h !! l = Some (CFun g) ->
  patched_store h c ev f !! l = Some (CFun g).
Proof.
  intros He Hl. unfold patched_store. cbv zeta.
  assert (l < length h)%nat as Hlt by (by eapply lookup_lt_Some).
  unfold store_prop, loc. rewrite (lookup_app_l_Some _ _ _ _ He).
  rewrite lookup_app_l by (rewrite length_insert, length_app; lia).
  rewrite list_lookup_insert_ne by congruence. by apply lookup_app_l_Some.
Qed.

Lemma patched_store_new (h : heap) (c ev : nat) (f : value) pe :
  h !! ev = Some (CObj pe) ->
  patched_store h c ev f !! length h = Some (CFun (AfterPatch f)).
Proof.
  intros He. unfold patched_store. cbv zeta.
  assert (ev < length h)%nat as Hlte by (by eapply lookup_lt_Some).
  unfold store_prop, loc. rewrite (lookup_app_l_Some _ _ _ _ He).
  rewrite lookup_app_l by (rewrite length_insert, length_app; cbn; lia).
  rewrite list_lookup_insert_ne by lia.
  rewrite lookup_app_r by lia. by rewrite Nat.sub_diag.
Qed.

Lemma patched_store_path (h : heap) (c mv ev : nat) (f : value) :
  after_path h c mv ev f ->
  after_path (patched_store h c ev f) c mv ev (VRef (length h)).
Proof.
  intros (pc & pm & pe & Hc & Hmv & Hm & Hev & He & Hf).
  destruct (patched_store_cell h c ev c f pe pc He Hc) as (pc' & Hc' & Hkc & _).
  destruct (patched_store_cell h c ev mv f pe pm He Hm) as (pm' & Hm' & Hkm & _).
  destruct (patched_store_cell h c ev ev f pe pe He He) as (pe' & He' & _ & Hke).
  exists pc', pm', pe'. split_and!; try done.
  - by rewrite Hkc.
  - by rewrite Hkm.
  - by apply Hke.
Qed.

(** One call, on a configuration with a function in the [after] slot. *)
Lemma setConfig_patches (fuel : nat) (h : heap) (c mv ev l : nat) (st : api) :
  after_path h c mv ev (VRef l) ->
  exists st',
    setConfig fuel h (VRef c) false st
    = Some (Coordinates.Return (patched_store h c ev (VRef l), st')).
Proof.
  intros Hpath. pose proof (after_path_get _ _ _ _ _ Hpath) as Hget.
  destruct Hpath as (pc & pm & pe & Hc & Hmv & Hm & Hev & He & Hf).
  assert (get h (VRef c) "movable" = VRef mv) as Gm.
  { by rewrite (get_ref _ _ _ _ Hc), Hmv. }
  assert (get h (VRef mv) "events" = VRef ev) as Ge.
  { by rewrite (get_ref _ _ _ _ Hm), Hev. }
  assert (has_key h (VRef ev) "after" = true) as Hk.
  { unfold has_key. rewrite own_props_ref, He, Hf. by apply bool_decide_eq_true. }
  assert (get h (VRef ev) "after" = VRef l) as Ga.
  { by rewrite (get_ref _ _ _ _ He), Hf. }
  unfold setConfig. cbn [mbind option_bind nullish].
  rewrite Gm, Ge. cbn [truthy]. rewrite Hk, Ga. cbn [truthy alloc].
  unfold without_fen, alloc.
  eexists. unfold patched_store. cbv zeta. reflexivity.
Qed.

(** A function of the store runs the same way in a store that has kept the
    functions. *)
Lemma call_after_kept (fuel : nat) (h h' : heap) (f : value) orig dest
    (st : api) calls r :
  (forall (l : nat) g, h !! l = Some (CFun g) -> h' !! l = Some (CFun g)) ->
  call_after fuel h f orig dest st calls = Some r ->
  call_after fuel h' f orig dest st calls = Some r.
Proof.
  intros Hkept. revert f st. induction fuel as [|fuel IH]; intros f st; [done|].
  cbn [call_after]. destruct f as [| | | | |l]; try done.
  unfold loc in *.
  destruct (h !! l) as [[| | |g]|] eqn:Hl; try done.
  rewrite (Hkept l g Hl). destruct g; try done. apply IH.
Qed.

Lemma changeTurn_ticks orig dest (st : api) :
  ticks (changeTurn orig dest st) = ticks st ++ [task_playPremove].
Proof.
  unfold changeTurn. rewrite move_unfold. cbv zeta.
  match goal with |- context [updateGameState false ?s] =>
    destruct (updateGameState_rest false s) as (_ & _ & Ht & _) end.
  match goal with |- ticks (if ?b then _ else _) = _ => destruct b end;
    cbn [forbidMoves with_board nextTick ticks]; by rewrite Ht.
Qed.

Lemma changeTurn_game orig dest (st : api) :
  game (changeTurn orig dest st)
  = makeAction (Board.keyToSquareIndex orig) (Board.keyToSquareIndex dest) (game st).
Proof.
  unfold changeTurn.
  apply (move_object_applied {| from := orig; to := dest; promotion := None |}).
Qed.

(** [n] calls. *)
Lemma setConfig_times_patches (fuel n : nat) :
  forall (h : heap) (c mv ev l : nat) (st : api) (k : nat) (name : string),
    after_path h c mv ev (VRef l) ->
    (forall orig dest s calls,
       call_after (S k) h (VRef l) orig dest s calls
       = Some (Nat.iter k (changeTurn orig dest) s, calls ++ [name])) ->
    exists h' st' l',
      setConfig_times fuel n h (VRef c) st = Some (Coordinates.Return (h', st')) /\
      after_path h' c mv ev (VRef l') /\
      length h' = (length h + 2 * n)%nat /\
      forall orig dest s calls,
        call_after (S (k + n)) h' (VRef l') orig dest s calls
        = Some (Nat.iter (k + n) (changeTurn orig dest) s, calls ++ [name]).
Proof.
  induction n as [|n IH]; intros h c mv ev l st k name Hpath Hcall.
  - exists h, st, l. cbn [setConfig_times]. rewrite !Nat.add_0_r.
    split_and!; try done; lia.
  - destruct (setConfig_patches fuel h c mv ev l st Hpath) as (st1 & Hstep).
    cbn [setConfig_times]. rewrite Hstep.
    pose proof (patched_store_path h c mv ev (VRef l) Hpath) as Hpath1.
    destruct Hpath as (pc & pm & pe & Hc & Hmv & Hm & Hev & He & Hf).
    destruct (IH (patched_store h c ev (VRef l)) c mv ev (length h) st1 (S k) name
                Hpath1) as (h' & st' & l' & Hrun & Hpath' & Hlen & Hcall').
    { intros orig dest s calls.
      change (call_after (S (S k)) ?hh (VRef ?x) orig dest s calls)
        with (match hh !! x with
              | Some (CFun (HostFunction nm)) => Some (s, calls ++ [nm])
              | Some (CFun EmptyArrow) => Some (s, calls)
              | Some (CFun ChangeTurnBound) => Some (changeTurn orig dest s, calls)
              | Some (CFun (AfterPatch userAfter)) =>
                  call_after (S k) hh userAfter orig dest (changeTurn orig dest s)
                    calls
              | _ => None
              end).
      rewrite (patched_store_new h c ev (VRef l) pe He).
      rewrite (call_after_kept (S k) h _ _ _ _ _ _ _
                 (fun l0 g => patched_store_fun h c ev l0 (VRef l) pe g He)
                 (Hcall orig dest (changeTurn orig dest s) calls)).
      by rewrite Nat.iter_succ_r. }
    exists h', st', l'. split; [done|]. split; [done|]. split.
    + rewrite Hlen. unfold patched_store. cbv zeta.
      rewrite length_app. unfold store_prop, loc.
      rewrite (lookup_app_l_Some _ _ _ _ He), length_insert, length_app. cbn. lia.
    + intros orig dest s calls. replace (k + S n)%nat with (S k + n)%nat by lia.
      apply Hcall'.
Qed.

Lemma changeTurn_iter_ticks (n : nat) orig dest (st : api) :
  ticks (Nat.iter n (changeTurn orig dest) st)
  = ticks st ++ replicate n task_playPremove.
Proof.
  induction n as [|n IH]; [by rewrite app_nil_r|].
  rewrite Nat.iter_succ, changeTurn_ticks, IH, <- app_assoc.
  f_equal. change [task_playPremove] with (replicate 1 task_playPremove).
  by rewrite <- replicate_add, Nat.add_1_r.
Qed.

Lemma changeTurn_iter_game (n : nat) orig dest (st : api) :
  game (Nat.iter n (changeTurn orig dest) st)
  = Nat.iter n (makeAction (Board.keyToSquareIndex orig)
                  (Board.keyToSquareIndex dest)) (game st).
Proof.
  induction n as [|n IH]; [done|].
  by rewrite !Nat.iter_succ, changeTurn_game, IH.
Qed.

End PatchFacts.

(** X24. [setConfig(config, false)] writes its patched function back into
    the object it was given, so calling it [n] times with the same object,
    whose [movable.events.after] is a function of the host, leaves in that
    slot a function that runs [changeTurn] [n] times before the host's
    function runs once: after one move made on the board the engine has been
    asked to make the action [n] times and [playPremove] has been scheduled
    [n] times. *)
Theorem setConfig_n_times_runs_changeTurn_n_times {E : NichessApi} {B : Chessground}
    (fuel n : nat) (h : Js.heap) (c mv ev l : nat) (pc pm pe : list (string * Js.value))
    (name : string) (st : BoardApi.api) :
  h !! c = Some (Js.CObj pc) -> Js.lookup_prop "movable" pc = Some (Js.VRef mv) ->
  h !! mv = Some (Js.CObj pm) -> Js.lookup_prop "events" pm = Some (Js.VRef ev) ->
  h !! ev = Some (Js.CObj pe) -> Js.lookup_prop "after" pe = Some (Js.VRef l) ->
  h !! l = Some (Js.CFun (Js.HostFunction name)) ->
  exists h' st',
    BoardApiRuns.setConfig_times fuel n h (Js.VRef c) st
    = Some (Coordinates.Return (h', st')) /\
    length h' = (length h + 2 * n)%nat /\
    forall orig dest s calls,
      let slot :=
        Js.get h' (Js.get h' (Js.get h' (Js.VRef c) "movable") "events") "after" in
      let s' := Nat.iter n (BoardApi.changeTurn orig dest) s in
      BoardApi.call_after (S n) h' slot orig dest s calls
      = Some (s', calls ++ [name]) /\
      BoardApi.game s'
      = Nat.iter n (makeAction (Board.keyToSquareIndex orig)
                      (Board.keyToSquareIndex dest)) (BoardApi.game s) /\
      BoardApi.ticks s'
      = BoardApi.ticks s ++ replicate n BoardApi.task_playPremove.
Proof.
  intros Hc Hmv Hm Hev He Hf Hl.
  assert (after_path h c mv ev (Js.VRef l)) as Hpath.
  { exists pc, pm, pe. by split_and!. }
  destruct (setConfig_times_patches fuel n h c mv ev l st 0 name Hpath)
    as (h' & st' & l' & Hrun & Hpath' & Hlen & Hcall).
  { intros orig dest s calls. cbn [BoardApi.call_after Nat.iter nat_rect].
    unfold Js.loc. by rewrite Hl. }
  exists h', st'. split; [exact Hrun|]. split; [exact Hlen|].
  intros orig dest s calls. cbv zeta.
  rewrite (after_path_get _ _ _ _ _ Hpath').
  split; [apply (Hcall orig dest s calls)|].
  split; [apply changeTurn_iter_game|apply changeTurn_iter_ticks].
Qed.

Lemma setConfig_n_times_runs_changeTurn_n_times_witness :
  exists h' st',
    BoardApiRuns.setConfig_times 0 3 Stub.host_after_config.1
      (Js.VRef 55%nat) Stub.start_api
    = Some (Coordinates.Return (h', st')) /\
    length h' = (length Stub.host_after_config.1 + 2 * 3)%nat /\
    forall orig dest
      (s : @BoardApi.api Stub.stub_engine Stub.stub_board) calls,
      let slot :=
        Js.get h' (Js.get h' (Js.get h' (Js.VRef 55%nat) "movable") "events")
          "after" in
      let s' := Nat.iter 3 (BoardApi.changeTurn orig dest) s in
      BoardApi.call_after 4 h' slot orig dest s calls
      = Some (s', calls ++ ["hostAfter"]) /\
      BoardApi.game s'
      = Nat.iter 3 (makeAction
                      (Board.keyToSquareIndex (E := Stub.stub_engine) orig)
                      (Board.keyToSquareIndex (E := Stub.stub_engine) dest))
          (BoardApi.game s) /\
      BoardApi.ticks s'
      = BoardApi.ticks s ++ replicate 3 BoardApi.task_playPremove.
Proof.
  apply (setConfig_n_times_runs_changeTurn_n_times 0 3
           Stub.host_after_config.1 55 54 53 52
           [("movable", Js.VRef 54%nat)] [("events", Js.VRef 53%nat)]
           [("after", Js.VRef 52%nat)] "hostAfter" Stub.start_api);
    vm_compute; reflexivity.
Defined.

(** ** [setConfig] with the defaults filled in *)

(** X26. With [fillDefaults], [setConfig] changes no object that was there
    before the call: in a store without dangling references, for a
    configuration that has objects (or nothing) where its type has them (the
    configuration, its [movable] and its [movable.events] are no function
    and no array), when [setConfig] returns, every cell the store had is as
    it was. The patched function goes into the merged copy, not into the
    configuration it was given nor into the default configuration. *)
Theorem setConfig_with_defaults_keeps_every_object {E : NichessApi} {B : Chessground}
    (fuel : nat) (h : Js.heap) (config : Js.value) (st : BoardApi.api)
    (h' : Js.heap) (st' : BoardApi.api) :
  StoreSpec.closed h = true ->
  StoreSpec.events_path_typed h config = true ->
  BoardApi.setConfig fuel h config true st = Some (Coordinates.Return (h', st')) ->
  h `prefix_of` h'.
Proof.
  intros Hcl _ H. unfold BoardApi.setConfig in H.
  destruct (Config.deepMergeConfig fuel h DefaultConfig.defaultBoardConfig config)
    as [[h1 merged]|] eqn:Em; cbn [mbind option_bind] in H; [|done].
  destruct (deepMergeConfig_fresh fuel 3 _ _ _ _ _ (closed_closedP _ Hcl) Em)
    as (Hp1 & _ & _ & Hf).
  destruct (BoardApi.nullish merged); [done|].
  pose proof (merged_events_fresh (length h) h1 merged) as Hfresh.
  specialize (Hfresh) with (1 := Hf).
  destruct (Js.get h1 (Js.get h1 merged "movable") "events") as [| |b|q|s|l] eqn:Hev;
    cbn [Js.truthy] in H.
  1,2: cbn in H; injection H as <- _; etrans; [exact Hp1|by eexists].
  1,2,3: match type of H with context [if ?c then _ else _] => destruct c end;
         cbn in H; try done; injection H as <- _; etrans; [exact Hp1|by eexists].
  destruct (Js.has_key h1 (Js.VRef l) "after") eqn:Hk.
  - specialize (Hfresh l eq_refl Hk).
    cbn [mbind option_bind Js.alloc BoardApi.without_fen fst snd] in H.
    injection H as <- _.
    etrans; [|by eexists].
    apply store_prop_prefix; [|exact Hfresh].
    etrans; [exact Hp1|by eexists].
  - cbn in H. injection H as <- _. etrans; [exact Hp1|by eexists].
Qed.

Lemma setConfig_with_defaults_keeps_every_object_witness :
  exists h' st',
    BoardApi.setConfig 8 Stub.host_after_config.1 Stub.host_after_config.2 true
      Stub.start_api = Some (Coordinates.Return (h', st')) /\
    Stub.host_after_config.1 `prefix_of` h'.
Proof.
  let r := eval vm_compute in
      (BoardApi.setConfig 8 Stub.host_after_config.1 Stub.host_after_config.2 true
         Stub.start_api) in
  match r with
  | Some (Coordinates.Return (?h1, ?st1)) =>
      exists h1, st1;
      assert (BoardApi.setConfig 8 Stub.host_after_config.1 Stub.host_after_config.2
                true Stub.start_api = Some (Coordinates.Return (h1, st1))) as Hrun
        by (vm_cast_no_check (@eq_refl _ (Some (Coordinates.Return (h1, st1)))))
  end.
  split; [exact Hrun|].
  apply (setConfig_with_defaults_keeps_every_object 8 _ _ _ _ _) with (3 := Hrun);
    vm_compute; reflexivity.
Defined.
